(** * coroc: the coroutine compiler of [coroc/compiler]

    A shallow embedding of the syntax-tree rewriting done by
    [compile.go] (gating of unsupported statements, the slot plan, the
    prologue and epilogue, [compileStatement] and [compileDispatch]) and of
    the second validation pass [unsupported] with [countFunctionCalls],
    together with the properties of the generated code that the design
    document states.

    Conventions.
    - Go's [int] is modelled by [Z]; the only arithmetic the compiler does
      on it is [len(..)-1] and comparisons, so no wrap-around is involved.
    - A pointer to a syntax node that is used as a map key
      ([map[ast.Stmt]span], [map[*ast.Object]*ast.Ident],
      [map[*ast.FuncDecl]*types.Signature]) is modelled by an address of
      type [N] stored in the node; Go maps are [gmap]s, and a lookup of an
      absent key yields the zero value, as in Go.
    - [go/ast] is embedded constructor by constructor for statements; for
      expressions the node kinds that the compiler builds or inspects are
      embedded. *)

From Stdlib Require Import ZArith String List Decimal DecimalString DecimalZ DecimalNat.
From stdpp Require Import base option list gmap strings.

#[local] Set Warnings "-register-all,-clear-no-such-hyp".

Open Scope string_scope.
Open Scope Z_scope.

(** ** strconv.Itoa and its inverse *)

Definition Itoa (z : Z) : string := NilZero.string_of_int (Z.to_int z).

(** The integer denoted by a decimal literal, as the Go compiler reads the
    [token.INT] literals emitted with [strconv.Itoa]. *)
Definition Atoi (s : string) : option Z :=
  option_map Z.of_int (NilZero.int_of_string s).

(** ** go/token *)

Inductive token :=
| ILLEGAL | INT | STRING
| ADD | SUB | MUL | QUO | LAND | LOR | EQL | NEQ | LSS | GTR | LEQ | GEQ | NOT
| ASSIGN | DEFINE | ADD_ASSIGN | INC | DEC | ARROW
| BREAK | CONTINUE | FALLTHROUGH | GOTO
| IMPORT | VAR | TYPE | CONST.

Global Instance token_eq_dec : EqDecision token.
Proof. solve_decision. Defined.

(** ** go/types, as far as the compiler consults it *)

(** [types.Type]: the dynamic kinds that [%T] prints and that the range
    check distinguishes. *)
Inductive gotype :=
| TBasic (name : string)
| TNamed (name : string)
| TPointer (elem : gotype)
| TArray (len : Z) (elem : gotype)
| TSlice (elem : gotype)
| TMap (key elem : gotype)
| TChan (elem : gotype)
| TInterface.

Global Instance gotype_eq_dec : EqDecision gotype.
Proof. solve_decision. Defined.

(** [%T] of a [types.Type]. *)
Definition typeT (t : gotype) : string :=
  match t with
  | TBasic _ => "*types.Basic"
  | TNamed _ => "*types.Named"
  | TPointer _ => "*types.Pointer"
  | TArray _ _ => "*types.Array"
  | TSlice _ => "*types.Slice"
  | TMap _ _ => "*types.Map"
  | TChan _ => "*types.Chan"
  | TInterface => "*types.Interface"
  end.

(** ** go/ast *)

(** Identity of an [*ast.Object] and of a statement node. *)
Definition objptr := N.
Definition addr := N.

(** [ast.Ident]: its name and the declaration object the parser resolved
    it to ([nil] when unresolved). *)
Record ident := MkIdent { Name : string; Obj : option objptr }.

Global Instance ident_eq_dec : EqDecision ident.
Proof. solve_decision. Defined.

(** [ast.NewIdent]. *)
Definition NewIdent (name : string) : ident := MkIdent name None.

(** Expressions, statements, the [ast.ValueSpec] of a [var] declaration and
    the [ast.Field] of a parameter or result list.  A [DeclStmt] holds the
    token and the specs of its [ast.GenDecl]; the [Type_] of a [FuncLit] is
    an [*ast.FuncType], here [FuncTypeExpr]; the [Body] of a statement and
    of a function literal is an [*ast.BlockStmt], here [BlockStmt]. *)
#[local] Unset Elimination Schemes.
Inductive expr :=
| BadExpr
| Ident (id : ident)
| BasicLit (Kind : token) (Value : string)
| FuncTypeExpr (Params Results : option (list field))
| FuncLit (Type_ : expr) (Body : stmt)
| CompositeLit (Type_ : option expr) (Elts : list expr)
| ParenExpr (X : expr)
| SelectorExpr (X : expr) (Sel : ident)
| IndexExpr (X Index : expr)
| IndexListExpr (X : expr) (Indices : list expr)
| TypeAssertExpr (X : expr) (Type_ : option expr)
| CallExpr (Fun : expr) (Args : list expr)
| StarExpr (X : expr)
| UnaryExpr (Op : token) (X : expr)
| BinaryExpr (X : expr) (Op : token) (Y : expr)
| ArrayType (Len : option expr) (Elt : expr)
with stmt :=
| BadStmt (a : addr)
| DeclStmt (a : addr) (Tok : token) (Specs : list spec)
| EmptyStmt (a : addr)
| LabeledStmt (a : addr) (Label : ident) (Stmt : stmt)
| ExprStmt (a : addr) (X : expr)
| SendStmt (a : addr) (Chan Value : expr)
| IncDecStmt (a : addr) (X : expr) (Tok : token)
| AssignStmt (a : addr) (Lhs : list expr) (Tok : token) (Rhs : list expr)
| GoStmt (a : addr) (Call : expr)
| DeferStmt (a : addr) (Call : expr)
| ReturnStmt (a : addr) (Results : list expr)
| BranchStmt (a : addr) (Tok : token) (Label : option ident)
| BlockStmt (a : addr) (List_ : list stmt)
| IfStmt (a : addr) (Init : option stmt) (Cond : expr) (Body : stmt) (Else : option stmt)
| CaseClause (a : addr) (List_ : list expr) (Body : list stmt)
| SwitchStmt (a : addr) (Init : option stmt) (Tag : option expr) (Body : stmt)
| TypeSwitchStmt (a : addr) (Init : option stmt) (Assign : stmt) (Body : stmt)
| CommClause (a : addr) (Comm : option stmt) (Body : list stmt)
| SelectStmt (a : addr) (Body : stmt)
| ForStmt (a : addr) (Init : option stmt) (Cond : option expr) (Post : option stmt) (Body : stmt)
| RangeStmt (a : addr) (Key Value : option expr) (Tok : token) (X : expr) (Body : stmt)
with spec :=
| ValueSpec (Names : list ident) (Type_ : option expr) (Values : list expr)
with field :=
| Field (Names : list ident) (Type_ : expr).
#[local] Set Elimination Schemes.

(** The address of a statement node: the key under which the span map
    holds its span. *)
Definition addr_of (s : stmt) : addr :=
  match s with
  | BadStmt a | DeclStmt a _ _ | EmptyStmt a | LabeledStmt a _ _ | ExprStmt a _
  | SendStmt a _ _ | IncDecStmt a _ _ | AssignStmt a _ _ _ | GoStmt a _
  | DeferStmt a _ | ReturnStmt a _ | BranchStmt a _ _ | BlockStmt a _
  | IfStmt a _ _ _ _ | CaseClause a _ _ | SwitchStmt a _ _ _
  | TypeSwitchStmt a _ _ _ | CommClause a _ _ | SelectStmt a _
  | ForStmt a _ _ _ _ | RangeStmt a _ _ _ _ _ => a
  end.

(** A node the compiler allocates itself ([&ast.AssignStmt{...}] and the
    like) is never a key of the span map; such nodes carry this address. *)
Definition fresh : addr := 0%N.

(** [%T] of a statement and of an expression. *)
Definition stmtT (s : stmt) : string :=
  match s with
  | BadStmt _ => "*ast.BadStmt"
  | DeclStmt _ _ _ => "*ast.DeclStmt"
  | EmptyStmt _ => "*ast.EmptyStmt"
  | LabeledStmt _ _ _ => "*ast.LabeledStmt"
  | ExprStmt _ _ => "*ast.ExprStmt"
  | SendStmt _ _ _ => "*ast.SendStmt"
  | IncDecStmt _ _ _ => "*ast.IncDecStmt"
  | AssignStmt _ _ _ _ => "*ast.AssignStmt"
  | GoStmt _ _ => "*ast.GoStmt"
  | DeferStmt _ _ => "*ast.DeferStmt"
  | ReturnStmt _ _ => "*ast.ReturnStmt"
  | BranchStmt _ _ _ => "*ast.BranchStmt"
  | BlockStmt _ _ => "*ast.BlockStmt"
  | IfStmt _ _ _ _ _ => "*ast.IfStmt"
  | CaseClause _ _ _ => "*ast.CaseClause"
  | SwitchStmt _ _ _ _ => "*ast.SwitchStmt"
  | TypeSwitchStmt _ _ _ _ => "*ast.TypeSwitchStmt"
  | CommClause _ _ _ => "*ast.CommClause"
  | SelectStmt _ _ => "*ast.SelectStmt"
  | ForStmt _ _ _ _ _ => "*ast.ForStmt"
  | RangeStmt _ _ _ _ _ _ => "*ast.RangeStmt"
  end.

Definition exprT (e : expr) : string :=
  match e with
  | BadExpr => "*ast.BadExpr"
  | Ident _ => "*ast.Ident"
  | BasicLit _ _ => "*ast.BasicLit"
  | FuncTypeExpr _ _ => "*ast.FuncType"
  | FuncLit _ _ => "*ast.FuncLit"
  | CompositeLit _ _ => "*ast.CompositeLit"
  | ParenExpr _ => "*ast.ParenExpr"
  | SelectorExpr _ _ => "*ast.SelectorExpr"
  | IndexExpr _ _ => "*ast.IndexExpr"
  | IndexListExpr _ _ => "*ast.IndexListExpr"
  | TypeAssertExpr _ _ => "*ast.TypeAssertExpr"
  | CallExpr _ _ => "*ast.CallExpr"
  | StarExpr _ => "*ast.StarExpr"
  | UnaryExpr _ _ => "*ast.UnaryExpr"
  | BinaryExpr _ _ _ => "*ast.BinaryExpr"
  | ArrayType _ _ => "*ast.ArrayType"
  end.

(** [ast.FuncType] and [ast.FuncDecl]. *)
Record FuncType := MkFuncType {
  ft_Params : option (list field);
  ft_Results : option (list field)
}.

(** [fd_addr] is the identity of the declaration node, the key of
    [colorsByDecl]; [fd_Recv] is the receiver list of a method. *)
Record FuncDecl := MkFuncDecl {
  fd_addr : addr;
  fd_Recv : option (list field);
  fd_Name : ident;
  fd_Type : FuncType;
  fd_Body : stmt
}.

(** ** Spans *)

Record span := MkSpan { start : Z; end_ : Z }.

(** [spans[stmt]]: the zero span when the node has none. *)
Definition span_at (spans : gmap addr span) (s : stmt) : span :=
  default (MkSpan 0 0) (spans !! addr_of s).

(** The expression [_f.IP] and the statement [_f.IP = <n>]. *)
Definition frameIP : expr := SelectorExpr (Ident (NewIdent "_f")) (NewIdent "IP").

Definition setIP (n : Z) : stmt :=
  AssignStmt fresh [frameIP] ASSIGN [BasicLit INT (Itoa n)].

(** ** The dispatch compiler: compileStatement and compileDispatch *)

(** [s.Body.List = append(s.Body.List, x)] for a body, which [go/ast] types
    as a [*ast.BlockStmt]. *)
Definition appendToBlock (body : stmt) (x : stmt) : stmt :=
  match body with
  | BlockStmt a l => BlockStmt a (l ++ [x])
  | _ => body
  end.

(** The guard [_f.IP < <n>] of a dispatch case. *)
Definition guardIP (n : Z) : expr := BinaryExpr frameIP LSS (BasicLit INT (Itoa n)).

Section Compiler.

(** [unnestBlocks] is defined in a file of the package that is not part
    of the sources at hand; the compiler is embedded over it. *)
Variable unnestBlocks : stmt -> stmt.

(** The span map computed by [trackSpans] for the function body. *)
Variable spans : gmap addr span.

(** The loop of [compileDispatch]: [i] is the index of the head of
    [stmts] in the whole list, [n] the length of the whole list. *)
Definition dispatchCases (compileStatement : stmt -> stmt) (n : Z) :
    Z -> list stmt -> list stmt :=
  fix go (i : Z) (stmts : list stmt) : list stmt :=
    match stmts with
    | [] => []
    | child :: rest =>
        let childSpan := span_at spans child in
        let compiledChild := unnestBlocks (compileStatement child) in
        let caseBody :=
          if i <? n - 1
          then [compiledChild; setIP (end_ childSpan); BranchStmt fresh FALLTHROUGH None]
          else [compiledChild] in
        CaseClause fresh [guardIP (end_ childSpan)] caseBody :: go (i + 1) rest
    end.

Definition compileDispatchWith (compileStatement : stmt -> stmt)
    (stmts : list stmt) : stmt :=
  SwitchStmt fresh None None
    (BlockStmt fresh (dispatchCases compileStatement (Z.of_nat (length stmts)) 0 stmts)).

Fixpoint compileStatement (s : stmt) : stmt :=
  match s with
  | BlockStmt a l =>
      match l with
      | [] => s
      | [child] => BlockStmt a [unnestBlocks (compileStatement child)]
      | _ => BlockStmt fresh [compileDispatchWith compileStatement l]
      end
  | IfStmt a init cond body els =>
      IfStmt a init cond (compileStatement body) els
  | ForStmt a init cond post body =>
      let forSpan := span_at spans s in
      ForStmt a init cond post
        (appendToBlock (compileStatement body) (setIP (start forSpan)))
  | SwitchStmt a init tag body =>
      match body with
      | BlockStmt b l => SwitchStmt a init tag (BlockStmt b (map compileStatement l))
      | _ => s
      end
  | CaseClause a es l =>
      match l with
      | [] => s
      | [child] => CaseClause a es [unnestBlocks (compileStatement child)]
      | _ => CaseClause a es [compileDispatchWith compileStatement l]
      end
  | _ => s
  end.

Definition compileDispatch (stmts : list stmt) : stmt :=
  compileDispatchWith compileStatement stmts.

(** The compiled form of a statement of a dispatched list, as it stands
    at the head of its clause. *)
Definition compiled (s : stmt) : stmt := unnestBlocks (compileStatement s).

(** The clause that [compileDispatch] emits for the statement [child] at
    index [i] of a list of [n] statements, written out. *)
Definition dispatchClause (n : nat) (i : nat) (child : stmt) : stmt :=
  let e := end_ (span_at spans child) in
  CaseClause fresh [guardIP e]
    (if (i + 1 <? n)%nat
     then [compiled child; setIP e; BranchStmt fresh FALLTHROUGH None]
     else [compiled child]).

(** The span ends of a statement list increase strictly along the list:
    the ordering that the span tracker guarantees within one statement
    list. *)
Fixpoint ends_increasing (l : list stmt) : bool :=
  match l with
  | [] => true
  | s :: rest =>
      match rest with
      | [] => true
      | s' :: _ => (end_ (span_at spans s) <? end_ (span_at spans s')) && ends_increasing rest
      end
  end.

End Compiler.

(** The statements on which [compileStatement] is called when it is
    called on [s]: [s] itself and, call after call, the statements of a
    block or of a case clause (the only one directly, two or more in the
    loop of [compileDispatch]), the body of an [if] statement, the body of
    a [for] statement and the clauses of a [switch] statement.  It is not
    called on the [else] branch of an [if] statement, nor on anything
    inside a statement of another kind. *)
Fixpoint compiledStatements (s : stmt) : list stmt :=
  s :: match s with
       | BlockStmt _ l => flat_map compiledStatements l
       | IfStmt _ _ _ body _ => compiledStatements body
       | ForStmt _ _ _ _ body => compiledStatements body
       | SwitchStmt _ _ _ body =>
           match body with
           | BlockStmt _ l => flat_map compiledStatements l
           | _ => []
           end
       | CaseClause _ _ l => flat_map compiledStatements l
       | _ => []
       end.

(** ** Execution of a dispatch block

    The meaning of the switch that [compileDispatch] emits, following the
    Go rules for an expression switch without tag: the clauses' guards are
    evaluated from the top, the body of the first clause whose guard holds
    is run, and a final [fallthrough] moves control into the body of the
    next clause without evaluating its guard.  The first statement of a
    clause body is the compiled child; it is run as one step that
    terminates normally, may change [_f.IP] in any way (a nested dispatch
    block or a loop does) and is recorded in [ran].  The statements after
    it are the bookkeeping of [compileDispatch]: assignments of an integer
    literal to [_f.IP] and [fallthrough]. *)

Record machine := MkMachine { IP : Z; ran : list stmt }.

Definition is_frameIP (e : expr) : bool :=
  match e with
  | SelectorExpr (Ident x) sel => String.eqb (Name x) "_f" && String.eqb (Name sel) "IP"
  | _ => false
  end.

Section DispatchSemantics.

(** What running a compiled child does to [_f.IP]. *)
Variable effect : stmt -> Z -> Z.

Definition run_child (c : stmt) (m : machine) : machine :=
  MkMachine (effect c (IP m)) (ran m ++ [c]).

(** The bookkeeping after the child; the boolean tells whether the body
    ends in [fallthrough]. *)
Fixpoint run_tail (l : list stmt) (m : machine) : option (machine * bool) :=
  match l with
  | [] => Some (m, false)
  | [BranchStmt _ FALLTHROUGH None] => Some (m, true)
  | AssignStmt _ [lhs] ASSIGN [BasicLit INT v] :: rest =>
      if is_frameIP lhs
      then match Atoi v with
           | Some n => run_tail rest (MkMachine n (ran m))
           | None => None
           end
      else None
  | _ => None
  end.

Definition run_body (body : list stmt) (m : machine) : option (machine * bool) :=
  match body with
  | [] => Some (m, false)
  | child :: tail => run_tail tail (run_child child m)
  end.

(** Control enters the body of the first clause of [clauses]. *)
Fixpoint run_from (clauses : list stmt) (m : machine) : option machine :=
  match clauses with
  | CaseClause _ _ body :: rest =>
      match run_body body m with
      | Some (m', true) => run_from rest m'
      | Some (m', false) => Some m'
      | None => None
      end
  | _ => None
  end.

Definition eval_guard (e : expr) (m : machine) : option bool :=
  match e with
  | BinaryExpr x LSS (BasicLit INT v) =>
      if is_frameIP x then option_map (fun n => IP m <? n) (Atoi v) else None
  | _ => None
  end.

(** The guards are tried in order; no clause is a [default]. *)
Fixpoint select (clauses : list stmt) (m : machine) : option machine :=
  match clauses with
  | [] => Some m
  | CaseClause _ [g] _ :: rest =>
      match eval_guard g m with
      | Some true => run_from clauses m
      | Some false => select rest m
      | None => None
      end
  | _ => None
  end.

Definition exec_dispatch (s : stmt) (m : machine) : option machine :=
  match s with
  | SwitchStmt _ None None (BlockStmt _ clauses) => select clauses m
  | _ => None
  end.

End DispatchSemantics.

(** ** ast.Inspect

    [ast.Walk] visits a node and then its children in the order of the
    fields of the node; [walkExpr], [walkStmt], [walkSpec] and [walkField]
    lay a syntax tree out as the tree of the visited nodes.  The nodes that
    are neither expressions nor statements (field lists, function types,
    declarations, specs) are told apart only by the type switches of the
    callbacks, which skip them all.  An [*ast.FuncType] is an [ast.Expr]:
    the type of a function literal is the expression [Type_], and the type
    of a declaration is visited as [FuncTypeExpr]. *)

Inductive node :=
| NExpr (e : expr)
| NStmt (s : stmt)
| NField (f : field)
| NFieldList (l : list field)
| NGenDecl (Tok : token) (Specs : list spec)
| NSpec (sp : spec)
| NFuncDecl.

Inductive tree := Tree (n : node) (children : list tree).

Definition walkIdent (id : ident) : tree := Tree (NExpr (Ident id)) [].

Definition walkOpt {A} (walk : A -> tree) (o : option A) : list tree :=
  match o with
  | Some x => [walk x]
  | None => []
  end.

Fixpoint walkExpr (e : expr) : tree :=
  Tree (NExpr e)
    match e with
    | BadExpr | Ident _ | BasicLit _ _ => []
    | FuncTypeExpr ps rs =>
        match ps with
        | Some l => [Tree (NFieldList l) (map walkField l)]
        | None => []
        end ++
        match rs with
        | Some l => [Tree (NFieldList l) (map walkField l)]
        | None => []
        end
    | FuncLit t body => [walkExpr t; walkStmt body]
    | CompositeLit t elts => walkOpt walkExpr t ++ map walkExpr elts
    | ParenExpr x => [walkExpr x]
    | SelectorExpr x sel => [walkExpr x; walkIdent sel]
    | IndexExpr x i => [walkExpr x; walkExpr i]
    | IndexListExpr x is_ => walkExpr x :: map walkExpr is_
    | TypeAssertExpr x t => walkExpr x :: walkOpt walkExpr t
    | CallExpr f args => walkExpr f :: map walkExpr args
    | StarExpr x => [walkExpr x]
    | UnaryExpr _ x => [walkExpr x]
    | BinaryExpr x _ y => [walkExpr x; walkExpr y]
    | ArrayType len elt => walkOpt walkExpr len ++ [walkExpr elt]
    end
with walkStmt (s : stmt) : tree :=
  Tree (NStmt s)
    match s with
    | BadStmt _ | EmptyStmt _ => []
    | DeclStmt _ tok specs => [Tree (NGenDecl tok specs) (map walkSpec specs)]
    | LabeledStmt _ label st => [walkIdent label; walkStmt st]
    | ExprStmt _ x => [walkExpr x]
    | SendStmt _ ch v => [walkExpr ch; walkExpr v]
    | IncDecStmt _ x _ => [walkExpr x]
    | AssignStmt _ lhs _ rhs => map walkExpr lhs ++ map walkExpr rhs
    | GoStmt _ call => [walkExpr call]
    | DeferStmt _ call => [walkExpr call]
    | ReturnStmt _ results => map walkExpr results
    | BranchStmt _ _ label => walkOpt walkIdent label
    | BlockStmt _ l => map walkStmt l
    | IfStmt _ init cond body els =>
        walkOpt walkStmt init ++ [walkExpr cond; walkStmt body] ++ walkOpt walkStmt els
    | CaseClause _ es body => map walkExpr es ++ map walkStmt body
    | SwitchStmt _ init tag body =>
        walkOpt walkStmt init ++ walkOpt walkExpr tag ++ [walkStmt body]
    | TypeSwitchStmt _ init assign body =>
        walkOpt walkStmt init ++ [walkStmt assign; walkStmt body]
    | CommClause _ comm body => walkOpt walkStmt comm ++ map walkStmt body
    | SelectStmt _ body => [walkStmt body]
    | ForStmt _ init cond post body =>
        walkOpt walkStmt init ++ walkOpt walkExpr cond ++ walkOpt walkStmt post
        ++ [walkStmt body]
    | RangeStmt _ key value _ x body =>
        walkOpt walkExpr key ++ walkOpt walkExpr value ++ [walkExpr x; walkStmt body]
    end
with walkSpec (sp : spec) : tree :=
  Tree (NSpec sp)
    match sp with
    | ValueSpec names t values =>
        map walkIdent names ++ walkOpt walkExpr t ++ map walkExpr values
    end
with walkField (f : field) : tree :=
  Tree (NField f)
    match f with
    | Field names t => map walkIdent names ++ [walkExpr t]
    end.

Definition walkFieldList (l : list field) : tree := Tree (NFieldList l) (map walkField l).

Definition walkFuncType (t : FuncType) : tree :=
  walkExpr (FuncTypeExpr (ft_Params t) (ft_Results t)).

Definition walkFuncDecl (d : FuncDecl) : tree :=
  Tree NFuncDecl
    (walkOpt walkFieldList (fd_Recv d)
     ++ [walkIdent (fd_Name d); walkFuncType (fd_Type d); walkStmt (fd_Body d)]).

(** [ast.Inspect(root, f)]: [f] is called on a node; when it answers
    [true] the children are inspected in order and [f] is then called with
    [nil], whose answer is ignored.  The variables that the Go closure
    updates are the state [S] threaded through the calls. *)
Fixpoint Inspect {S : Type} (f : option node -> S -> S * bool) (t : tree) (s : S) : S :=
  match t with
  | Tree n children =>
      let '(s1, descend) := f (Some n) s in
      if descend
      then fst (f None (fold_left (fun acc child => Inspect f child acc) children s1))
      else s1
  end.

(** The nodes of a tree, in the order in which [ast.Walk] reaches them. *)
Fixpoint nodes (t : tree) : list node :=
  match t with
  | Tree n children => n :: concat (map nodes children)
  end.

(** ** Type information *)

(** [types.Object]: the dynamic kind, the name, and an identity that tells
    apart two objects of the same kind and name. *)
Inductive objkind :=
| KBuiltin | KTypeName | KPkgName (path : string) | KFunc | KVar | KConst | KNil.

Global Instance objkind_eq_dec : EqDecision objkind.
Proof. solve_decision. Defined.

Record tobject := MkObject { obj_kind : objkind; obj_name : string; obj_id : N }.

Global Instance tobject_eq_dec : EqDecision tobject.
Proof. solve_decision. Defined.

(** [types.Info]: [TypeOf] and [ObjectOf], both [nil] for what the type
    checker has not recorded. *)
Record Info := MkInfo {
  TypeOf : expr -> option gotype;
  ObjectOf : ident -> option tobject
}.

(** The scope [types.Universe]: the predeclared types, constants, [nil]
    and built-in functions of Go. *)
Definition universe_types : list string :=
  ["bool"; "int"; "int8"; "int16"; "int32"; "int64"; "uint"; "uint8"; "uint16";
   "uint32"; "uint64"; "uintptr"; "float32"; "float64"; "complex64"; "complex128";
   "string"; "byte"; "rune"; "any"; "error"; "comparable"].
Definition universe_consts : list string := ["true"; "false"; "iota"].
Definition universe_builtins : list string :=
  ["append"; "cap"; "clear"; "close"; "complex"; "copy"; "delete"; "imag"; "len";
   "make"; "max"; "min"; "new"; "panic"; "print"; "println"; "real"; "recover"].

Definition Universe_Lookup (name : string) : option tobject :=
  if bool_decide (name ∈ universe_types) then Some (MkObject KTypeName name 0)
  else if bool_decide (name ∈ universe_consts) then Some (MkObject KConst name 0)
  else if bool_decide (name = "nil") then Some (MkObject KNil name 0)
  else if bool_decide (name ∈ universe_builtins) then Some (MkObject KBuiltin name 0)
  else None.

(** ** The second validation pass: unsupported and countFunctionCalls *)

(** The calls that [countFunctionCalls] leaves out of the count: the
    callee is an identifier that denotes the object of that name in the
    universe scope (the comparison also holds when both are [nil]) or a
    type name, or it is a selector on the package [unsafe]. *)
Definition skipCall (info : Info) (fn : expr) : bool :=
  match fn with
  | Ident f =>
      let obj := ObjectOf info f in
      if bool_decide (Universe_Lookup (Name f) = obj) then true
      else match obj with
           | Some (MkObject KTypeName _ _) => true
           | _ => false
           end
  | SelectorExpr (Ident x) _ =>
      match ObjectOf info x with
      | Some (MkObject (KPkgName pkgPath) _ _) => bool_decide (pkgPath = "unsafe")
      | _ => false
      end
  | _ => false
  end.

Definition countVisit (info : Info) (n : option node) (count : Z) : Z * bool :=
  match n with
  | Some (NExpr (CallExpr f _)) =>
      if skipCall info f then (count, true) else (count + 1, true)
  | _ => (count, true)
  end.

Definition countFunctionCalls (e : expr) (info : Info) : Z :=
  Inspect (countVisit info) (walkExpr e) 0.

(** The check of the post statement of a [for] loop, shared by the two
    passes. *)
Definition forPostError (post : option stmt) : option string :=
  match post with
  | None => None
  | Some (IncDecStmt _ x _) =>
      match x with
      | Ident _ => None
      | _ => Some ("not implemented: for post inc/dec " ++ exprT x)
      end
  | Some p => Some ("not implemented: for post " ++ stmtT p)
  end.

(** What [unsupported] assigns to [err] at a statement ([None]: nothing). *)
Definition unsupportedStmt (s : stmt) : option string :=
  match s with
  | DeferStmt _ _ => Some "not implemented: defer"
  | GoStmt _ _ => Some "not implemented: go"
  | SelectStmt _ _ => Some "not implemented: select"
  | CommClause _ _ _ => Some "not implemented: select case"
  | BranchStmt _ tok _ =>
      match tok with
      | GOTO => Some "not implemented: goto"
      | FALLTHROUGH => Some "not implemented: fallthrough"
      | _ => None
      end
  | LabeledStmt _ _ st =>
      match st with
      | ForStmt _ _ _ _ _ | SwitchStmt _ _ _ _ | TypeSwitchStmt _ _ _ _ | SelectStmt _ _ => None
      | _ => Some "not implemented: labels not attached to for/switch/select"
      end
  | ForStmt _ _ _ post _ => forPostError post
  | AssignStmt _ _ _ _ | BlockStmt _ _ | CaseClause _ _ _ | DeclStmt _ _ _
  | EmptyStmt _ | ExprStmt _ _ | IfStmt _ _ _ _ _ | IncDecStmt _ _ _
  | RangeStmt _ _ _ _ _ _ | ReturnStmt _ _ | SendStmt _ _ _ | SwitchStmt _ _ _ _
  | TypeSwitchStmt _ _ _ _ => None
  | BadStmt _ => Some ("not implmemented: ast.Stmt(" ++ stmtT s ++ ")")
  end.

(** What [unsupported] assigns to [err] at an expression: the second
    assignment overwrites the first. *)
Definition unsupportedExpr (info : Info) (e : expr) : option string :=
  if 1 <? countFunctionCalls e info
  then Some "not implemented: multiple function calls in an expression"
  else match e with
       | FuncLit _ _ => Some "not implemented: func literals"
       | _ => None
       end.

Definition unsupportedNode (info : Info) (n : node) : option string :=
  match n with
  | NExpr e => unsupportedExpr info e
  | NStmt s => unsupportedStmt s
  | _ => None
  end.

(** An assignment to the captured variable [err] overwrites it; a node
    that assigns nothing leaves it. *)
Definition assignErr (new old : option string) : option string :=
  match new with
  | Some e => Some e
  | None => old
  end.

(** The closure passed to [ast.Inspect] by [unsupported]. *)
Definition unsupportedVisit (info : Info) (n : option node) (err : option string) :
    option string * bool :=
  let err' :=
    match n with
    | Some nn => assignErr (unsupportedNode info nn) err
    | None => err
    end in
  (err', bool_decide (err' = None)).

Definition unsupported (decl : FuncDecl) (info : Info) : option string :=
  Inspect (unsupportedVisit info) (walkFuncDecl decl) None.

(** ** The gating pass of compilePackage

    The closure that [compilePackage] passes to [ast.Inspect] for every
    colored function ("Reject certain language features for now"). *)

(** What the closure assigns to [err] at a statement: [None] when the
    statement makes it panic (the index expression [n.Lhs[0]] on an
    assignment without left-hand side), otherwise the assigned error, if
    any. *)
Definition gatingStmt (info : Info) (s : stmt) : option (option string) :=
  match s with
  | DeferStmt _ _ => Some (Some "not implemented: defer")
  | GoStmt _ _ => Some (Some "not implemented: go")
  | LabeledStmt _ _ _ => Some (Some "not implemented: labels")
  | TypeSwitchStmt _ _ _ _ => Some (Some "not implemented: type switch")
  | SelectStmt _ _ => Some (Some "not implemented: select")
  | CommClause _ _ _ => Some (Some "not implemented: select case")
  | DeclStmt _ _ _ => Some (Some "not implemented: inline decls")
  | RangeStmt _ _ _ _ x _ =>
      match TypeOf info x with
      | Some (TArray _ _) | Some (TSlice _) => Some None
      | Some t => Some (Some ("not implemented: for range for " ++ typeT t))
      | None => Some (Some "not implemented: for range for <nil>")
      end
  | AssignStmt _ lhs _ rhs =>
      let err1 :=
        if negb (length lhs =? 1)%nat || negb (length lhs =? length rhs)%nat
        then Some "not implemented: multiple assign"
        else None in
      match lhs with
      | [] => None
      | Ident _ :: _ => Some err1
      | _ :: _ => Some (Some "not implemented: assign to non-ident")
      end
  | BranchStmt _ tok label =>
      match tok with
      | GOTO => Some (Some "not implemented: goto")
      | FALLTHROUGH => Some (Some "not implemented: fallthrough")
      | BREAK => Some (Some "not implemented: break")
      | CONTINUE => Some (Some "not implemented: continue")
      | _ => match label with
             | Some _ => Some (Some "not implemented: labeled branch")
             | None => Some None
             end
      end
  | ForStmt _ _ _ post _ => Some (forPostError post)
  | BlockStmt _ _ | CaseClause _ _ _ | EmptyStmt _ | ExprStmt _ _ | IfStmt _ _ _ _ _
  | IncDecStmt _ _ _ | ReturnStmt _ _ | SendStmt _ _ _ | SwitchStmt _ _ _ _ => Some None
  | BadStmt _ => Some (Some ("not implmemented: ast.Stmt(" ++ stmtT s ++ ")"))
  end.

(** The state of the inspection: the captured [err], or a panic that has
    unwound the inspection. *)
Inductive gating_state :=
| Running (err : option string)
| Panicked.

Definition gatingVisit (info : Info) (n : option node) (st : gating_state) : gating_state * bool :=
  match st with
  | Panicked => (Panicked, false)
  | Running err =>
      match n with
      | Some (NStmt s) =>
          match gatingStmt info s with
          | Some new =>
              let err' := assignErr new err in
              (Running err', bool_decide (err' = None))
          | None => (Panicked, false)
          end
      | _ => (Running err, true)
      end
  end.

Definition gating (decl : FuncDecl) (info : Info) : gating_state :=
  Inspect (gatingVisit info) (walkFuncDecl decl) (Running None).

(** The error that the gating pass assigns at a node, and whether it panics
    there. *)
Definition gatingError (info : Info) (n : node) : option string :=
  match n with
  | NStmt s => match gatingStmt info s with
               | Some new => new
               | None => None
               end
  | _ => None
  end.

Definition gatingPanics (info : Info) (n : node) : bool :=
  match n with
  | NStmt s => match gatingStmt info s with
               | Some _ => false
               | None => true
               end
  | _ => false
  end.

(** Every assignment of the function has a left-hand side, as in every
    tree that the Go parser builds. *)
Definition assignsHaveLhs (decl : FuncDecl) : bool :=
  forallb (fun n => match n with
                    | NStmt (AssignStmt _ [] _ _) => false
                    | _ => true
                    end) (nodes (walkFuncDecl decl)).

(** The statements of a function, and its expressions. *)
Definition hasStmt (decl : FuncDecl) (s : stmt) : Prop :=
  NStmt s ∈ nodes (walkFuncDecl decl).

Definition hasExpr (decl : FuncDecl) (e : expr) : Prop :=
  NExpr e ∈ nodes (walkFuncDecl decl).

(** The constructs that the design lists as rejected without condition,
    each with the name of its category: defer, go, labels, select and its
    clauses, type switch, inline declarations, assignments with several
    targets or values or with a target that is not an identifier, goto and
    fallthrough. *)
Definition spec_unconditionallyRejected (s : stmt) : option string :=
  match s with
  | DeferStmt _ _ => Some "defer"
  | GoStmt _ _ => Some "go"
  | LabeledStmt _ _ _ => Some "labels"
  | SelectStmt _ _ => Some "select"
  | CommClause _ _ _ => Some "select case"
  | TypeSwitchStmt _ _ _ _ => Some "type switch"
  | DeclStmt _ _ _ => Some "inline decls"
  | AssignStmt _ (Ident _ :: _ :: _) _ _ => Some "multiple assign"
  | AssignStmt _ [Ident _] _ rhs =>
      if (length rhs =? 1)%nat then None else Some "multiple assign"
  | AssignStmt _ (_ :: _) _ _ => Some "assign to non-ident"
  | BranchStmt _ GOTO _ => Some "goto"
  | BranchStmt _ FALLTHROUGH _ => Some "fallthrough"
  | _ => None
  end.

(** A bare [break] or [continue]. *)
Definition bareBreakOrContinue (s : stmt) : bool :=
  match s with
  | BranchStmt _ BREAK None | BranchStmt _ CONTINUE None => true
  | _ => false
  end.

(** The count of function calls as the design words it: every call
    counts, except the calls of the built-in functions of the universe
    scope and the type conversions (calls whose callee denotes a type). *)
Fixpoint denotesType (info : Info) (e : expr) : bool :=
  match e with
  | Ident f =>
      match ObjectOf info f with
      | Some (MkObject KTypeName _ _) => true
      | _ => false
      end
  | SelectorExpr _ sel =>
      match ObjectOf info sel with
      | Some (MkObject KTypeName _ _) => true
      | _ => false
      end
  | ParenExpr x | StarExpr x => denotesType info x
  | ArrayType _ _ | FuncTypeExpr _ _ => true
  | _ => false
  end.

Definition universeBuiltin (info : Info) (e : expr) : bool :=
  match e with
  | Ident f =>
      match ObjectOf info f with
      | Some (MkObject KBuiltin name id) =>
          bool_decide (Universe_Lookup (Name f) = Some (MkObject KBuiltin name id))
      | _ => false
      end
  | _ => false
  end.

Definition spec_countedCall (info : Info) (n : node) : bool :=
  match n with
  | NExpr (CallExpr f _) => negb (universeBuiltin info f || denotesType info f)
  | _ => false
  end.

Definition spec_countFunctionCalls (e : expr) (info : Info) : Z :=
  Z.of_nat (length (filter (fun n => spec_countedCall info n = true) (nodes (walkExpr e)))).

(** The calls that [countFunctionCalls] counts. *)
Definition countedCall (info : Info) (n : node) : bool :=
  match n with
  | NExpr (CallExpr f _) => negb (skipCall info f)
  | _ => false
  end.

(** ** Inspections that update the tree

    The two inspections of [compileFunction] update the nodes they visit:
    the first one replaces the token of assignments, the second one the
    name of identifiers.  What a closure writes into a node depends on
    that node only, and it reads no field that it or the other closure
    writes, so an inspection is given by two things: the variables that
    the closure captures, threaded through [Inspect] over the tree as it
    was, and the tree as it is afterwards, [updateStmt]. *)

Section Update.

Variable onTok : token -> token.
Variable onIdent : ident -> ident.

Definition updateFields (updateField : field -> field) (o : option (list field)) :
    option (list field) :=
  option_map (map updateField) o.

Fixpoint updateExpr (e : expr) : expr :=
  match e with
  | BadExpr | BasicLit _ _ => e
  | Ident id => Ident (onIdent id)
  | FuncTypeExpr ps rs =>
      FuncTypeExpr (updateFields updateField ps) (updateFields updateField rs)
  | FuncLit t body => FuncLit (updateExpr t) (updateStmt body)
  | CompositeLit t elts => CompositeLit (option_map updateExpr t) (map updateExpr elts)
  | ParenExpr x => ParenExpr (updateExpr x)
  | SelectorExpr x sel => SelectorExpr (updateExpr x) (onIdent sel)
  | IndexExpr x i => IndexExpr (updateExpr x) (updateExpr i)
  | IndexListExpr x is_ => IndexListExpr (updateExpr x) (map updateExpr is_)
  | TypeAssertExpr x t => TypeAssertExpr (updateExpr x) (option_map updateExpr t)
  | CallExpr f args => CallExpr (updateExpr f) (map updateExpr args)
  | StarExpr x => StarExpr (updateExpr x)
  | UnaryExpr op x => UnaryExpr op (updateExpr x)
  | BinaryExpr x op y => BinaryExpr (updateExpr x) op (updateExpr y)
  | ArrayType len elt => ArrayType (option_map updateExpr len) (updateExpr elt)
  end
with updateStmt (s : stmt) : stmt :=
  match s with
  | BadStmt _ | EmptyStmt _ => s
  | DeclStmt a tok specs => DeclStmt a tok (map updateSpec specs)
  | LabeledStmt a label st => LabeledStmt a (onIdent label) (updateStmt st)
  | ExprStmt a x => ExprStmt a (updateExpr x)
  | SendStmt a ch v => SendStmt a (updateExpr ch) (updateExpr v)
  | IncDecStmt a x tok => IncDecStmt a (updateExpr x) tok
  | AssignStmt a lhs tok rhs =>
      AssignStmt a (map updateExpr lhs) (onTok tok) (map updateExpr rhs)
  | GoStmt a call => GoStmt a (updateExpr call)
  | DeferStmt a call => DeferStmt a (updateExpr call)
  | ReturnStmt a results => ReturnStmt a (map updateExpr results)
  | BranchStmt a tok label => BranchStmt a tok (option_map onIdent label)
  | BlockStmt a l => BlockStmt a (map updateStmt l)
  | IfStmt a init cond body els =>
      IfStmt a (option_map updateStmt init) (updateExpr cond) (updateStmt body)
        (option_map updateStmt els)
  | CaseClause a es body => CaseClause a (map updateExpr es) (map updateStmt body)
  | SwitchStmt a init tag body =>
      SwitchStmt a (option_map updateStmt init) (option_map updateExpr tag)
        (updateStmt body)
  | TypeSwitchStmt a init assign body =>
      TypeSwitchStmt a (option_map updateStmt init) (updateStmt assign) (updateStmt body)
  | CommClause a comm body =>
      CommClause a (option_map updateStmt comm) (map updateStmt body)
  | SelectStmt a body => SelectStmt a (updateStmt body)
  | ForStmt a init cond post body =>
      ForStmt a (option_map updateStmt init) (option_map updateExpr cond)
        (option_map updateStmt post) (updateStmt body)
  | RangeStmt a key value tok x body =>
      RangeStmt a (option_map updateExpr key) (option_map updateExpr value) tok
        (updateExpr x) (updateStmt body)
  end
with updateSpec (sp : spec) : spec :=
  match sp with
  | ValueSpec names t values =>
      ValueSpec (map onIdent names) (option_map updateExpr t) (map updateExpr values)
  end
with updateField (f : field) : field :=
  match f with
  | Field names t => Field (map onIdent names) (updateExpr t)
  end.

(** The nodes that [ast.Walk] reaches, after the update. *)
Definition updateNode (n : node) : node :=
  match n with
  | NExpr e => NExpr (updateExpr e)
  | NStmt s => NStmt (updateStmt s)
  | NField f => NField (updateField f)
  | NFieldList l => NFieldList (map updateField l)
  | NGenDecl tok specs => NGenDecl tok (map updateSpec specs)
  | NSpec sp => NSpec (updateSpec sp)
  | NFuncDecl => NFuncDecl
  end.

End Update.

Fixpoint mapTree (f : node -> node) (t : tree) : tree :=
  match t with
  | Tree n children => Tree (f n) (map (mapTree f) children)
  end.

(** ** compileFunction *)

(** [*types.Signature] of a color: the types of its parameters and of its
    results. *)
Record Signature := MkSignature { sig_Params : list gotype; sig_Results : list gotype }.

(** The variables captured by the first inspection of [compileFunction]. *)
Record scanState := MkScan {
  objectVars : gmap objptr ident;
  varNames : list ident;
  varTypes : list (option gotype)
}.

(** The first closure ("Scan/replace variables defined in the function"),
    at an assignment: the captured variables afterwards, or [None] when
    the type assertion of [n.Lhs[0]] to an identifier panics. *)
Definition scanAssign (info : Info) (lhs : list expr) (st : scanState) : option scanState :=
  match lhs with
  | Ident name :: _ =>
      match Obj name with
      | None => Some st
      | Some o =>
          match objectVars st !! o with
          | Some _ => Some st
          | None =>
              let varName := NewIdent ("_v" ++ Itoa (Z.of_nat (length (varNames st)))) in
              Some (MkScan (<[o := varName]> (objectVars st))
                           (varNames st ++ [varName])
                           (varTypes st ++ [TypeOf info (Ident name)]))
          end
      end
  | _ => None
  end.

(** The token it leaves in the assignment. *)
Definition defineToAssign (tok : token) : token :=
  if decide (tok = DEFINE) then ASSIGN else tok.

(** The closure as [ast.Inspect] calls it: it always answers [true]; the
    state is [None] once it has panicked. *)
Definition scanVisit (info : Info) (n : option node) (st : option scanState) :
    option scanState * bool :=
  match n, st with
  | Some (NStmt (AssignStmt _ lhs _ _)), Some st' => (scanAssign info lhs st', true)
  | _, _ => (st, true)
  end.

Definition scanVariables (info : Info) (body : stmt) : option (stmt * scanState) :=
  match Inspect (scanVisit info) (walkStmt body) (Some (MkScan ∅ [] [])) with
  | Some scan => Some (updateStmt defineToAssign (fun id => id) body, scan)
  | None => None
  end.

(** The second closure, at an identifier. *)
Definition replaceIdent (objectVars : gmap objptr ident) (id : ident) : ident :=
  match Obj id with
  | Some o =>
      match objectVars !! o with
      | Some replacement => MkIdent (Name replacement) (Obj id)
      | None => id
      end
  | None => id
  end.

Definition replaceVariables (objectVars : gmap objptr ident) (body : stmt) : stmt :=
  updateStmt (fun tok => tok) (replaceIdent objectVars) body.

(** The closure at a node, and over the nodes in the order of the walk. *)
Definition scanNode (info : Info) (st : option scanState) (n : node) : option scanState :=
  fst (scanVisit info (Some n) st).

(** Every assignment of the body has an identifier as its first target. *)
Definition assignTargetsAreIdents (body : stmt) : bool :=
  forallb (fun n => match n with
                    | NStmt (AssignStmt _ (Ident _ :: _) _ _) => true
                    | NStmt (AssignStmt _ _ _ _) => false
                    | _ => true
                    end) (nodes (walkStmt body)).

(** The first targets of the assignments of the body, in the order of
    the walk. *)
Definition assignedIdents (body : stmt) : list ident :=
  omap (fun n => match n with
                 | NStmt (AssignStmt _ (Ident name :: _) _ _) => Some name
                 | _ => None
                 end) (nodes (walkStmt body)).

(** Of a list of identifiers, the first one for every object, in order;
    [seen] holds the objects met before. *)
Fixpoint firstOfEachObject (seen : gset objptr) (ids : list ident) : list ident :=
  match ids with
  | [] => []
  | id :: rest =>
      match Obj id with
      | None => firstOfEachObject seen rest
      | Some o =>
          if decide (o ∈ seen) then firstOfEachObject seen rest
          else id :: firstOfEachObject ({[o]} ∪ seen) rest
      end
  end.

(** The synthetic name of slot variable [i]. *)
Definition slotVar (i : nat) : ident := NewIdent ("_v" ++ Itoa (Z.of_nat i)).

(** The closure at an assignment whose first target is the identifier
    [name]. *)
Definition scanIdent (info : Info) (st : scanState) (name : ident) : scanState :=
  match Obj name with
  | None => st
  | Some o =>
      match objectVars st !! o with
      | Some _ => st
      | None =>
          MkScan (<[o := NewIdent ("_v" ++ Itoa (Z.of_nat (length (varNames st))))]>
                    (objectVars st))
                 (varNames st ++ [NewIdent ("_v" ++ Itoa (Z.of_nat (length (varNames st))))])
                 (varTypes st ++ [TypeOf info (Ident name)])
      end
  end.

(** The variables that get a slot: for every object that is the first
    target of an assignment of the body, the identifier of its first such
    assignment, in the order of the walk. *)
Definition localSlots (body : stmt) : list ident :=
  firstOfEachObject ∅ (assignedIdents body).

(** The captured variables at the end of the scan of a body, and the body
    as the two inspections leave it. *)
Definition scanned (info : Info) (body : stmt) : scanState :=
  fold_left (scanIdent info) (assignedIdents body) (MkScan ∅ [] []).

Definition rewritten (info : Info) (body : stmt) : stmt :=
  updateStmt (fun tok => tok) (replaceIdent (objectVars (scanned info body)))
    (updateStmt defineToAssign (fun id => id) body).

(** The names of a parameter or result list that are not [_]. *)
Definition fieldNames (fl : option (list field)) : list ident :=
  match fl with
  | Some l =>
      filter (fun name => Name name <> "_")
        (concat (map (fun f => match f with Field names _ => names end) l))
  | None => []
  end.

Definition ctx : ident := NewIdent "_c".
Definition frame : ident := NewIdent "_f".

Definition intLit (i : nat) : expr := BasicLit INT (Itoa (Z.of_nat i)).

Definition callMethod (recv : ident) (method : string) (args : list expr) : expr :=
  CallExpr (SelectorExpr (Ident recv) (NewIdent method)) args.

Section CompileFunction.

(** Functions of the package whose files are not part of the sources at
    hand: [typeExpr] renders a type as a type expression, [desugar]
    rewrites the body in place before the variables are scanned,
    [trackSpans] computes the span map of the body. *)
Variable typeExpr : option gotype -> expr.
Variable desugar : stmt -> Info -> stmt.
Variable trackSpans : stmt -> gmap addr span.
Variable unnestBlocks : stmt -> stmt.

(** [_c := coroutine.LoadContext[R, S]()] *)
Definition loadContextStmt (yieldTypeExpr : list expr) : stmt :=
  AssignStmt fresh [Ident ctx] DEFINE
    [CallExpr
       (IndexListExpr
          (SelectorExpr (Ident (NewIdent "coroutine")) (NewIdent "LoadContext"))
          yieldTypeExpr) []].

(** [_f := _c.Push()] *)
Definition pushStmt : stmt :=
  AssignStmt fresh [Ident frame] DEFINE [callMethod ctx "Push" []].

(** "Declare variables upfront": the two slices grow together, so that
    [varNames[i]] goes with [varTypes[i]]. *)
Definition varDeclStmts (varNames : list ident) (varTypes : list (option gotype)) :
    list stmt :=
  if (0 <? length varTypes)%nat
  then [DeclStmt fresh VAR
          (zip_with (fun name t => ValueSpec [name] (Some (typeExpr t)) [])
             varNames varTypes)]
  else [].

(** [name = _f.Get(i).(T)] *)
Definition restoreStmt (i : nat) (slot : ident * option gotype) : stmt :=
  AssignStmt fresh [Ident (fst slot)] ASSIGN
    [TypeAssertExpr (callMethod frame "Get" [intLit i]) (Some (typeExpr (snd slot)))].

(** [if _f.IP > 0 { restoreStmts }] *)
Definition restoreIf (slots : list (ident * option gotype)) : stmt :=
  IfStmt fresh None
    (BinaryExpr (SelectorExpr (Ident (NewIdent "_f")) (NewIdent "IP")) GTR
       (BasicLit INT "0"))
    (BlockStmt fresh (imap restoreStmt slots)) None.

(** [_f.Set(i, name)] *)
Definition saveStmt (i : nat) (name : ident) : stmt :=
  ExprStmt fresh (callMethod frame "Set" [intLit i; Ident name]).

(** The body of the deferred function literal:
    [if _c.Unwinding() { saveStmts } else { _c.Pop() }] *)
Definition exitHandler (names : list ident) : stmt :=
  IfStmt fresh None (callMethod ctx "Unwinding" [])
    (BlockStmt fresh (imap saveStmt names))
    (Some (BlockStmt fresh [ExprStmt fresh (callMethod ctx "Pop" [])])).

(** [defer func() { ... }()] *)
Definition deferStmt (names : list ident) : stmt :=
  DeferStmt fresh
    (CallExpr (FuncLit (FuncTypeExpr None None) (BlockStmt fresh [exitHandler names])) []).

(** The names and types to save and restore: parameters, results, then
    the scanned variables. *)
Definition saveAndRestoreNames (fn : FuncDecl) (varNames : list ident) : list ident :=
  fieldNames (ft_Params (fd_Type fn)) ++ fieldNames (ft_Results (fd_Type fn)) ++ varNames.

Definition saveAndRestoreTypes (info : Info) (fn : FuncDecl)
    (varTypes : list (option gotype)) : list (option gotype) :=
  map (fun name => TypeOf info (Ident name)) (fieldNames (ft_Params (fd_Type fn)))
  ++ map (fun name => TypeOf info (Ident name)) (fieldNames (ft_Results (fd_Type fn)))
  ++ varTypes.

(** [compileFunction]; [None] when it panics. *)
Definition compileFunction (info : Info) (fn : FuncDecl) (color : Signature) :
    option FuncDecl :=
  match sig_Params color, sig_Results color with
  | yieldType :: _, resumeType :: _ =>
      let yieldTypeExpr := [typeExpr (Some yieldType); typeExpr (Some resumeType)] in
      let body0 := desugar (fd_Body fn) info in
      match scanVariables info body0 with
      | None => None
      | Some (body1, scan) =>
          let body2 := replaceVariables (objectVars scan) body1 in
          let names := saveAndRestoreNames fn (varNames scan) in
          let types := saveAndRestoreTypes info fn (varTypes scan) in
          let spans := trackSpans body2 in
          match compileStatement unnestBlocks spans body2 with
          | BlockStmt _ compiledBody =>
              Some (MkFuncDecl fresh None (fd_Name fn) (fd_Type fn)
                      (BlockStmt fresh
                         ([loadContextStmt yieldTypeExpr; pushStmt]
                          ++ varDeclStmts (varNames scan) (varTypes scan)
                          ++ [restoreIf (zip names types); deferStmt names]
                          ++ compiledBody)))
          | _ => None
          end
      end
  | _, _ => None
  end.

(** The conditions under which [compileFunction] does not panic: the
    color has a parameter and a result (it is the signature of an
    instance of Yield), and the desugared body is a block in which the
    first target of every assignment is an identifier. *)
Definition compilable (info : Info) (fn : FuncDecl) (color : Signature) : bool :=
  match sig_Params color, sig_Results color, desugar (fd_Body fn) info with
  | _ :: _, _ :: _, BlockStmt _ _ => assignTargetsAreIdents (desugar (fd_Body fn) info)
  | _, _, _ => false
  end.

End CompileFunction.

(** ** compilePackage *)

(** Top-level declarations and files. *)
Inductive topSpec :=
| ImportSpec (Path : expr)
| OtherSpec (sp : spec).

Inductive Decl :=
| FuncDeclD (d : FuncDecl)
| GenDeclD (Tok : token) (Specs : list topSpec).

Record File := MkFile { f_Name : ident; f_Decls : list Decl }.

(** [packages.Package], as far as [compilePackage] reads it. *)
Record Package := MkPackage {
  p_Name : string;
  p_GoFiles : list string;
  p_Syntax : list File;
  p_TypesInfo : Info
}.

(** [fn.Syntax()] of an [*ssa.Function]: a function declaration (given by
    the identity of the node), a function literal, or nothing. *)
Inductive syntax :=
| SynFuncDecl (decl : addr)
| SynFuncLit
| SynNil.

Definition syntaxT (s : syntax) : string :=
  match s with
  | SynFuncDecl _ => "*ast.FuncDecl"
  | SynFuncLit => "*ast.FuncLit"
  | SynNil => "<nil>"
  end.

(** An [*ssa.Function]: how [%s] prints it, and its syntax. *)
Record ssaFunction := MkSsaFunction { fn_String : string; fn_Syntax : syntax }.

(** The compiler options. *)
Record compiler := MkCompiler { outputFilename : string; buildTags : string }.

Definition coroutinePackage : string := "github.com/stealthrocket/coroutine".

Definition dquote : string := String (Ascii.ascii_of_nat 34) EmptyString.

(** The value of [strconv.Quote] on a string in which it escapes nothing,
    as the import path [coroutinePackage]: the string between double
    quotes. *)
Definition Quote (s : string) : string := (dquote ++ s ++ dquote)%string.

Definition newline : string := String (Ascii.ascii_of_nat 10) EmptyString.

(** What the file system and the printer answer: [None] for success,
    otherwise the error. *)
Record OS := MkOS {
  os_Create : string -> option string;
  file_WriteString : string -> option string;
  format_Node : File -> option string;
  file_Close : option string
}.

(** The effects of [compilePackage] on the file system, in order. *)
Inductive event :=
| EvCreate (path : string)
| EvWriteString (s : string)
| EvFormatNode (f : File)
| EvClose.

(** How a call ends: it returns an error or [nil], or it panics. *)
Inductive outcome :=
| Returns (err : option string)
| Panics.

(** The loop that builds [colorsByDecl]; the order in which Go ranges over
    the map [colors] is the order of the list. *)
Fixpoint colorsByDeclOf (colors : list (ssaFunction * Signature))
    (acc : gmap addr Signature) : string + gmap addr Signature :=
  match colors with
  | [] => inr acc
  | (fn, color) :: rest =>
      match fn_Syntax fn with
      | SynFuncDecl decl => colorsByDeclOf rest (<[decl := color]> acc)
      | other =>
          inl ("unsupported yield function " ++ fn_String fn ++ " (Syntax is "
               ++ syntaxT other ++ ", not *ast.FuncDecl)")%string
      end
  end.

Section CompilePackage.

Variable typeExpr : option gotype -> expr.
Variable desugar : stmt -> Info -> stmt.
Variable trackSpans : stmt -> gmap addr span.
Variable unnestBlocks : stmt -> stmt.
(** [filepath.Dir] and [filepath.Join]. *)
Variable filepath_Dir : string -> string.
Variable filepath_Join : string -> string -> string.
(** The verb [%q] of [fmt.Errorf] on a string, which is [strconv.Quote]:
    the string between double quotes, with its backslashes, double quotes
    and non-printable characters escaped. *)
Variable strconv_Quote : string -> string.
Variable os : OS.

(** The loop over the declarations of the files: the declarations
    generated so far, or the way the loop ends early. *)
Fixpoint compileDecls (p : Package) (colorsByDecl : gmap addr Signature)
    (decls : list Decl) (gen : list Decl) : outcome + list Decl :=
  match decls with
  | [] => inr gen
  | GenDeclD _ _ :: rest => compileDecls p colorsByDecl rest gen
  | FuncDeclD decl :: rest =>
      match colorsByDecl !! fd_addr decl with
      | None => compileDecls p colorsByDecl rest gen
      | Some color =>
          match gating decl (p_TypesInfo p) with
          | Panicked => inl Panics
          | Running (Some err) => inl (Returns (Some err))
          | Running None =>
              match compileFunction typeExpr desugar trackSpans unnestBlocks
                      (p_TypesInfo p) decl color with
              | None => inl Panics
              | Some compiledFn =>
                  compileDecls p colorsByDecl rest (gen ++ [FuncDeclD compiledFn])
              end
          end
      end
  end.

(** The text written before the tree is printed. *)
Definition header (c : compiler) : string :=
  ("// Code generated by coroc. DO NOT EDIT" ++ newline ++ newline
   ++ (if bool_decide (buildTags c = "") then ""
       else "//go:build " ++ buildTags c ++ newline ++ newline))%string.

(** "Get ready to write" and what follows it. *)
Definition writeOutput (c : compiler) (p : Package) (gen : File) : list event * outcome :=
  match p_GoFiles p with
  | [] => ([], Panics)
  | goFile :: _ =>
      let packageDir := filepath_Dir goFile in
      let outputPath := filepath_Join packageDir (outputFilename c) in
      match os_Create os outputPath with
      | Some err =>
          ([EvCreate outputPath],
           Returns (Some ("os.Create " ++ strconv_Quote outputPath ++ ": " ++ err)%string))
      | None =>
          match file_WriteString os (header c) with
          | Some err =>
              ([EvCreate outputPath; EvWriteString (header c); EvClose], Returns (Some err))
          | None =>
              match format_Node os gen with
              | Some err =>
                  ([EvCreate outputPath; EvWriteString (header c); EvFormatNode gen; EvClose],
                   Returns (Some err))
              | None =>
                  ([EvCreate outputPath; EvWriteString (header c); EvFormatNode gen;
                    EvClose; EvClose],
                   Returns (file_Close os))
              end
          end
      end
  end.

Definition compilePackage (c : compiler) (p : Package)
    (colors : list (ssaFunction * Signature)) : list event * outcome :=
  let importDecl :=
    GenDeclD IMPORT [ImportSpec (BasicLit STRING (Quote coroutinePackage))] in
  match colorsByDeclOf colors ∅ with
  | inl err => ([], Returns (Some err))
  | inr colorsByDecl =>
      match compileDecls p colorsByDecl (concat (map f_Decls (p_Syntax p))) [importDecl] with
      | inl out => ([], out)
      | inr decls => writeOutput c p (MkFile (NewIdent (p_Name p)) decls)
      end
  end.

End CompilePackage.

(** ** The generated prologue and epilogue at run time

    The statements of the prologue and of the exit handler are run by the
    rules of Go: an [if] runs its body when its condition holds and its
    [else] otherwise, and the type assertion [x.(T)] with one result
    panics when the value in [x] is [nil] or not of type [T]. *)

(** A value with its dynamic type. *)
Record value := MkValue { dynType : option gotype; payload : Z }.

Record runtime := MkRuntime {
  rt_IP : Z;                        (* [_f.IP] *)
  rt_slots : gmap nat value;        (* the slots of the frame [_f] *)
  rt_onStack : bool;                (* the frame is on the stack of [_c] *)
  rt_unwinding : bool;              (* [_c.Unwinding()] *)
  rt_vars : string -> value         (* the variables of the function, by name *)
}.

Inductive run :=
| Done (r : runtime)
| Panic
| Unknown.

Definition setVar (name : string) (v : value) (r : runtime) : runtime :=
  MkRuntime (rt_IP r) (rt_slots r) (rt_onStack r) (rt_unwinding r)
    (fun x => if bool_decide (x = name) then v else rt_vars r x).

Definition setSlot (i : nat) (v : value) (r : runtime) : runtime :=
  MkRuntime (rt_IP r) (<[i := v]> (rt_slots r)) (rt_onStack r) (rt_unwinding r) (rt_vars r).

Definition pop (r : runtime) : runtime :=
  MkRuntime (rt_IP r) (rt_slots r) false (rt_unwinding r) (rt_vars r).

(** A call [recv.method(args)] on the identifier [recv]. *)
Definition isCall (e : expr) (recv method : string) : option (list expr) :=
  match e with
  | CallExpr (SelectorExpr (Ident x) sel) args =>
      if String.eqb (Name x) recv && String.eqb (Name sel) method then Some args else None
  | _ => None
  end.

Definition natLit (e : expr) : option nat :=
  match e with
  | BasicLit INT v => option_map Z.to_nat (Atoi v)
  | _ => None
  end.

Section Runtime.

(** Whether a value has the type that a type expression denotes. *)
Variable hasType : expr -> value -> bool.

Definition evalCond (e : expr) (r : runtime) : option bool :=
  match e with
  | BinaryExpr x GTR (BasicLit INT v) =>
      if is_frameIP x then option_map (fun n => rt_IP r >? n) (Atoi v) else None
  | _ =>
      match isCall e "_c" "Unwinding" with
      | Some [] => Some (rt_unwinding r)
      | _ => None
      end
  end.

(** Modelled from the spec: the runtime that the generated code calls
    ([Frame.Get], [Frame.Set], [Frame.IP], [Context.Unwinding],
    [Context.Pop]) is not part of the sources at hand; the design gives
    its contract.  A frame holds an instruction pointer, zero at first,
    and values stored by slot index; [Get] reads a slot, [Set] writes
    it, [Unwinding] tells a suspension from a normal return and [Pop]
    discards the current frame.  [execSimple] runs the statements of the
    prologue and of the exit handler against it. *)
Definition execSimple (s : stmt) (r : runtime) : run :=
  match s with
  | AssignStmt _ [Ident name] ASSIGN [TypeAssertExpr x (Some t)] =>
      match isCall x "_f" "Get" with
      | Some [i] =>
          match natLit i with
          | Some i' =>
              match rt_slots r !! i' with
              | Some v => if hasType t v then Done (setVar (Name name) v r) else Panic
              | None => Panic
              end
          | None => Unknown
          end
      | _ => Unknown
      end
  | ExprStmt _ x =>
      match isCall x "_f" "Set", isCall x "_c" "Pop" with
      | Some [i; Ident name], _ =>
          match natLit i with
          | Some i' => Done (setSlot i' (rt_vars r (Name name)) r)
          | None => Unknown
          end
      | _, Some [] => Done (pop r)
      | _, _ => Unknown
      end
  | _ => Unknown
  end.

Fixpoint execList (l : list stmt) (r : runtime) : run :=
  match l with
  | [] => Done r
  | s :: rest =>
      match execSimple s r with
      | Done r' => execList rest r'
      | other => other
      end
  end.

(** An [if] statement over blocks of such statements. *)
Definition execIf (s : stmt) (r : runtime) : run :=
  match s with
  | IfStmt _ None cond (BlockStmt _ body) els =>
      match evalCond cond r with
      | Some true => execList body r
      | Some false =>
          match els with
          | None => Done r
          | Some (BlockStmt _ l) => execList l r
          | Some _ => Unknown
          end
      | None => Unknown
      end
  | _ => Unknown
  end.

End Runtime.

(** ** Induction on syntax trees

    The induction principle of the four mutual types: the premises for
    the lists and options of a node are [Forall] and [from_option]. *)

Section SyntaxInduction.
Variables (Pe : expr -> Prop) (Ps : stmt -> Prop) (Pp : spec -> Prop) (Pf : field -> Prop).
Hypothesis H_BadExpr : Pe BadExpr.
Hypothesis H_Ident : forall id, Pe (Ident id).
Hypothesis H_BasicLit : forall k v, Pe (BasicLit k v).
Hypothesis H_FuncTypeExpr : forall ps rs, from_option (Forall Pf) True ps -> from_option (Forall Pf) True rs -> Pe (FuncTypeExpr ps rs).
Hypothesis H_FuncLit : forall t body, Pe t -> Ps body -> Pe (FuncLit t body).
Hypothesis H_CompositeLit : forall t elts, from_option Pe True t -> Forall Pe elts -> Pe (CompositeLit t elts).
Hypothesis H_ParenExpr : forall x, Pe x -> Pe (ParenExpr x).
Hypothesis H_SelectorExpr : forall x sel, Pe x -> Pe (SelectorExpr x sel).
Hypothesis H_IndexExpr : forall x i, Pe x -> Pe i -> Pe (IndexExpr x i).
Hypothesis H_IndexListExpr : forall x is_, Pe x -> Forall Pe is_ -> Pe (IndexListExpr x is_).
Hypothesis H_TypeAssertExpr : forall x t, Pe x -> from_option Pe True t -> Pe (TypeAssertExpr x t).
Hypothesis H_CallExpr : forall f args, Pe f -> Forall Pe args -> Pe (CallExpr f args).
Hypothesis H_StarExpr : forall x, Pe x -> Pe (StarExpr x).
Hypothesis H_UnaryExpr : forall op x, Pe x -> Pe (UnaryExpr op x).
Hypothesis H_BinaryExpr : forall x op y, Pe x -> Pe y -> Pe (BinaryExpr x op y).
Hypothesis H_ArrayType : forall len elt, from_option Pe True len -> Pe elt -> Pe (ArrayType len elt).
Hypothesis H_BadStmt : forall a, Ps (BadStmt a).
Hypothesis H_DeclStmt : forall a tok specs, Forall Pp specs -> Ps (DeclStmt a tok specs).
Hypothesis H_EmptyStmt : forall a, Ps (EmptyStmt a).
Hypothesis H_LabeledStmt : forall a label st, Ps st -> Ps (LabeledStmt a label st).
Hypothesis H_ExprStmt : forall a x, Pe x -> Ps (ExprStmt a x).
Hypothesis H_SendStmt : forall a ch v, Pe ch -> Pe v -> Ps (SendStmt a ch v).
Hypothesis H_IncDecStmt : forall a x tok, Pe x -> Ps (IncDecStmt a x tok).
Hypothesis H_AssignStmt : forall a lhs tok rhs, Forall Pe lhs -> Forall Pe rhs -> Ps (AssignStmt a lhs tok rhs).
Hypothesis H_GoStmt : forall a call, Pe call -> Ps (GoStmt a call).
Hypothesis H_DeferStmt : forall a call, Pe call -> Ps (DeferStmt a call).
Hypothesis H_ReturnStmt : forall a results, Forall Pe results -> Ps (ReturnStmt a results).
Hypothesis H_BranchStmt : forall a tok label, Ps (BranchStmt a tok label).
Hypothesis H_BlockStmt : forall a l, Forall Ps l -> Ps (BlockStmt a l).
Hypothesis H_IfStmt : forall a init cond body els, from_option Ps True init -> Pe cond -> Ps body -> from_option Ps True els -> Ps (IfStmt a init cond body els).
Hypothesis H_CaseClause : forall a es body, Forall Pe es -> Forall Ps body -> Ps (CaseClause a es body).
Hypothesis H_SwitchStmt : forall a init tag body, from_option Ps True init -> from_option Pe True tag -> Ps body -> Ps (SwitchStmt a init tag body).
Hypothesis H_TypeSwitchStmt : forall a init assign body, from_option Ps True init -> Ps assign -> Ps body -> Ps (TypeSwitchStmt a init assign body).
Hypothesis H_CommClause : forall a comm body, from_option Ps True comm -> Forall Ps body -> Ps (CommClause a comm body).
Hypothesis H_SelectStmt : forall a body, Ps body -> Ps (SelectStmt a body).
Hypothesis H_ForStmt : forall a init cond post body, from_option Ps True init -> from_option Pe True cond -> from_option Ps True post -> Ps body -> Ps (ForStmt a init cond post body).
Hypothesis H_RangeStmt : forall a key value tok x body, from_option Pe True key -> from_option Pe True value -> Pe x -> Ps body -> Ps (RangeStmt a key value tok x body).
Hypothesis H_ValueSpec : forall names t values, from_option Pe True t -> Forall Pe values -> Pp (ValueSpec names t values).
Hypothesis H_Field : forall names t, Pe t -> Pf (Field names t).

Fixpoint expr_ind' (n : expr) : Pe n :=
  match n with
  | BadExpr => H_BadExpr  
  | Ident id => H_Ident id 
  | BasicLit k v => H_BasicLit k v 
  | FuncTypeExpr ps rs => H_FuncTypeExpr ps rs (match ps return from_option (Forall Pf) True ps with Some l0 => ((fix go (l : list field) : Forall Pf l := match l with | [] => List.Forall_nil _ | x :: r => List.Forall_cons _ x r (field_ind' x) (go r) end) l0) | None => I end) (match rs return from_option (Forall Pf) True rs with Some l0 => ((fix go (l : list field) : Forall Pf l := match l with | [] => List.Forall_nil _ | x :: r => List.Forall_cons _ x r (field_ind' x) (go r) end) l0) | None => I end)
  | FuncLit t body => H_FuncLit t body (expr_ind' t) (stmt_ind' body)
  | CompositeLit t elts => H_CompositeLit t elts (match t return from_option Pe True t with Some x => expr_ind' x | None => I end) ((fix go (l : list expr) : Forall Pe l := match l with | [] => List.Forall_nil _ | x :: r => List.Forall_cons _ x r (expr_ind' x) (go r) end) elts)
  | ParenExpr x => H_ParenExpr x (expr_ind' x)
  | SelectorExpr x sel => H_SelectorExpr x sel (expr_ind' x)
  | IndexExpr x i => H_IndexExpr x i (expr_ind' x) (expr_ind' i)
  | IndexListExpr x is_ => H_IndexListExpr x is_ (expr_ind' x) ((fix go (l : list expr) : Forall Pe l := match l with | [] => List.Forall_nil _ | x :: r => List.Forall_cons _ x r (expr_ind' x) (go r) end) is_)
  | TypeAssertExpr x t => H_TypeAssertExpr x t (expr_ind' x) (match t return from_option Pe True t with Some x => expr_ind' x | None => I end)
  | CallExpr f args => H_CallExpr f args (expr_ind' f) ((fix go (l : list expr) : Forall Pe l := match l with | [] => List.Forall_nil _ | x :: r => List.Forall_cons _ x r (expr_ind' x) (go r) end) args)
  | StarExpr x => H_StarExpr x (expr_ind' x)
  | UnaryExpr op x => H_UnaryExpr op x (expr_ind' x)
  | BinaryExpr x op y => H_BinaryExpr x op y (expr_ind' x) (expr_ind' y)
  | ArrayType len elt => H_ArrayType len elt (match len return from_option Pe True len with Some x => expr_ind' x | None => I end) (expr_ind' elt)
  end
with stmt_ind' (n : stmt) : Ps n :=
  match n with
  | BadStmt a => H_BadStmt a 
  | DeclStmt a tok specs => H_DeclStmt a tok specs ((fix go (l : list spec) : Forall Pp l := match l with | [] => List.Forall_nil _ | x :: r => List.Forall_cons _ x r (spec_ind' x) (go r) end) specs)
  | EmptyStmt a => H_EmptyStmt a 
  | LabeledStmt a label st => H_LabeledStmt a label st (stmt_ind' st)
  | ExprStmt a x => H_ExprStmt a x (expr_ind' x)
  | SendStmt a ch v => H_SendStmt a ch v (expr_ind' ch) (expr_ind' v)
  | IncDecStmt a x tok => H_IncDecStmt a x tok (expr_ind' x)
  | AssignStmt a lhs tok rhs => H_AssignStmt a lhs tok rhs ((fix go (l : list expr) : Forall Pe l := match l with | [] => List.Forall_nil _ | x :: r => List.Forall_cons _ x r (expr_ind' x) (go r) end) lhs) ((fix go (l : list expr) : Forall Pe l := match l with | [] => List.Forall_nil _ | x :: r => List.Forall_cons _ x r (expr_ind' x) (go r) end) rhs)
  | GoStmt a call => H_GoStmt a call (expr_ind' call)
  | DeferStmt a call => H_DeferStmt a call (expr_ind' call)
  | ReturnStmt a results => H_ReturnStmt a results ((fix go (l : list expr) : Forall Pe l := match l with | [] => List.Forall_nil _ | x :: r => List.Forall_cons _ x r (expr_ind' x) (go r) end) results)
  | BranchStmt a tok label => H_BranchStmt a tok label 
  | BlockStmt a l => H_BlockStmt a l ((fix go (l : list stmt) : Forall Ps l := match l with | [] => List.Forall_nil _ | x :: r => List.Forall_cons _ x r (stmt_ind' x) (go r) end) l)
  | IfStmt a init cond body els => H_IfStmt a init cond body els (match init return from_option Ps True init with Some x => stmt_ind' x | None => I end) (expr_ind' cond) (stmt_ind' body) (match els return from_option Ps True els with Some x => stmt_ind' x | None => I end)
  | CaseClause a es body => H_CaseClause a es body ((fix go (l : list expr) : Forall Pe l := match l with | [] => List.Forall_nil _ | x :: r => List.Forall_cons _ x r (expr_ind' x) (go r) end) es) ((fix go (l : list stmt) : Forall Ps l := match l with | [] => List.Forall_nil _ | x :: r => List.Forall_cons _ x r (stmt_ind' x) (go r) end) body)
  | SwitchStmt a init tag body => H_SwitchStmt a init tag body (match init return from_option Ps True init with Some x => stmt_ind' x | None => I end) (match tag return from_option Pe True tag with Some x => expr_ind' x | None => I end) (stmt_ind' body)
  | TypeSwitchStmt a init assign body => H_TypeSwitchStmt a init assign body (match init return from_option Ps True init with Some x => stmt_ind' x | None => I end) (stmt_ind' assign) (stmt_ind' body)
  | CommClause a comm body => H_CommClause a comm body (match comm return from_option Ps True comm with Some x => stmt_ind' x | None => I end) ((fix go (l : list stmt) : Forall Ps l := match l with | [] => List.Forall_nil _ | x :: r => List.Forall_cons _ x r (stmt_ind' x) (go r) end) body)
  | SelectStmt a body => H_SelectStmt a body (stmt_ind' body)
  | ForStmt a init cond post body => H_ForStmt a init cond post body (match init return from_option Ps True init with Some x => stmt_ind' x | None => I end) (match cond return from_option Pe True cond with Some x => expr_ind' x | None => I end) (match post return from_option Ps True post with Some x => stmt_ind' x | None => I end) (stmt_ind' body)
  | RangeStmt a key value tok x body => H_RangeStmt a key value tok x body (match key return from_option Pe True key with Some x => expr_ind' x | None => I end) (match value return from_option Pe True value with Some x => expr_ind' x | None => I end) (expr_ind' x) (stmt_ind' body)
  end
with spec_ind' (n : spec) : Pp n :=
  match n with
  | ValueSpec names t values => H_ValueSpec names t values (match t return from_option Pe True t with Some x => expr_ind' x | None => I end) ((fix go (l : list expr) : Forall Pe l := match l with | [] => List.Forall_nil _ | x :: r => List.Forall_cons _ x r (expr_ind' x) (go r) end) values)
  end
with field_ind' (n : field) : Pf n :=
  match n with
  | Field names t => H_Field names t (expr_ind' t)
  end.

Definition ast_induction : (forall e, Pe e) /\ (forall s, Ps s) :=
  conj expr_ind' stmt_ind'.

End SyntaxInduction.

(** ** Sample functions *)

Module Samples.

Local Open Scope N_scope.

Definition id_ (name : string) (o : N) : ident := MkIdent name (Some o).
Definition use (name : string) : expr := Ident (NewIdent name).
Definition call0 (f : string) : expr := CallExpr (use f) [].

(** Identifiers are resolved by name: [f], [g] and [G] are functions of
    the package, [x] a variable, [unsafe] the package of that name,
    [Sizeof] its built-in function, and the predeclared names are the
    objects of the universe scope. *)
Definition info : Info :=
  MkInfo (fun _ => Some (TBasic "int"))
    (fun id =>
       if bool_decide (Name id ∈ ["f"; "g"; "G"]) then Some (MkObject KFunc (Name id) 1)
       else if bool_decide (Name id = "x") then Some (MkObject KVar "x" 2)
       else if bool_decide (Name id = "unsafe") then Some (MkObject (KPkgName "unsafe") "unsafe" 3)
       else if bool_decide (Name id = "Sizeof") then Some (MkObject KBuiltin "Sizeof" 4)
       else Universe_Lookup (Name id)).

Definition noParams : FuncType := MkFuncType (Some []) None.

(** [func G() { go f(); for { break } }] *)
Definition breakStmt : stmt := BranchStmt 5 BREAK None.
Definition goAndBreak : FuncDecl :=
  MkFuncDecl 1 None (NewIdent "G") noParams
    (BlockStmt 2
       [GoStmt 3 (call0 "f");
        ForStmt 4 None None None (BlockStmt 6 [breakStmt])]).

(** [func G() { for { break } }] *)
Definition onlyBreak : FuncDecl :=
  MkFuncDecl 1 None (NewIdent "G") noParams
    (BlockStmt 2 [ForStmt 4 None None None (BlockStmt 6 [breakStmt])]).

(** [func G(x int) uintptr { return unsafe.Sizeof(x) + f() }] *)
Definition sizeofPlusCall : expr :=
  BinaryExpr (CallExpr (SelectorExpr (use "unsafe") (NewIdent "Sizeof")) [use "x"])
    ADD (call0 "f").
Definition sizeofFn : FuncDecl :=
  MkFuncDecl 1 None (NewIdent "G")
    (MkFuncType (Some [Field [id_ "x" 2] (use "int")]) (Some [Field [] (use "uintptr")]))
    (BlockStmt 2 [ReturnStmt 3 [sizeofPlusCall]]).

(** [func G() int { return f() + g() }] *)
Definition twoCalls : expr := BinaryExpr (call0 "f") ADD (call0 "g").
Definition twoCallsFn : FuncDecl :=
  MkFuncDecl 1 None (NewIdent "G")
    (MkFuncType (Some []) (Some [Field [] (use "int")]))
    (BlockStmt 2 [ReturnStmt 3 [twoCalls]]).

(** [func (t T) G() { f() }] *)
Definition method : FuncDecl :=
  MkFuncDecl 1 (Some [Field [id_ "t" 7] (use "T")]) (NewIdent "G") noParams
    (BlockStmt 2 [ExprStmt 3 (call0 "f")]).

(** [func G() { defer f(); go g() }] and [func G() { defer f() }] *)
Definition deferF : stmt := DeferStmt 3 (call0 "f").
Definition deferAndGo : FuncDecl :=
  MkFuncDecl 1 None (NewIdent "G") noParams
    (BlockStmt 2 [deferF; GoStmt 4 (call0 "g")]).
Definition onlyDefer : FuncDecl :=
  MkFuncDecl 1 None (NewIdent "G") noParams (BlockStmt 2 [deferF]).

(** Stand-ins for what [compileFunction] and [compilePackage] take from
    outside: types are rendered by name, the body needs no desugaring,
    blocks are left nested, paths are joined with a slash, and the file
    system accepts every operation. *)
Definition typeExpr (t : option gotype) : expr :=
  match t with
  | Some (TBasic name) | Some (TNamed name) => use name
  | Some TInterface => use "any"
  | _ => BadExpr
  end.
Definition desugar (body : stmt) (_ : Info) : stmt := body.
Definition unnestBlocks (s : stmt) : stmt := s.
Definition filepath_Dir (path : string) : string := "/src/testdata".
Definition filepath_Join (dir file : string) : string := (dir ++ "/" ++ file)%string.
(** The paths of the samples hold no character that [strconv.Quote]
    escapes. *)
Definition strconv_Quote (path : string) : string := Quote path.
Definition os : OS := MkOS (fun _ => None) (fun _ => None) (fun _ => None) None.

(** Modelled from the spec: the span tracker [trackSpans], whose file is
    not part of the sources at hand.  The design has it number the
    statements depth first: a leaf statement occupies one counter value
    and the span of a block, a conditional, a loop, a switch or a clause
    is the union of the spans of the statements in it. *)
Fixpoint trackSpans0 (s : stmt) (nextID : Z) : gmap addr span * Z :=
  let startID := nextID in
  let each :=
    fix each (l : list stmt) (acc : gmap addr span * Z) : gmap addr span * Z :=
      match l with
      | [] => acc
      | child :: rest =>
          let '(m, n) := trackSpans0 child (snd acc) in each rest (fst acc ∪ m, n)
      end in
  let '(spans, nextID') :=
    match s with
    | BlockStmt _ l | CaseClause _ _ l => each l (∅, nextID)
    | IfStmt _ _ _ body _ | ForStmt _ _ _ _ body | SwitchStmt _ _ _ body =>
        trackSpans0 body nextID
    | _ => (∅, (nextID + 1)%Z)
    end in
  (<[addr_of s := MkSpan startID nextID']> spans, nextID').
Definition trackSpans (body : stmt) : gmap addr span := fst (trackSpans0 body 0%Z).

(** A value has the type that a type expression names when the
    expression is the name of its dynamic type. *)
Definition hasType (t : expr) (v : value) : bool :=
  match t, dynType v with
  | Ident id, Some (TBasic name) => String.eqb (Name id) name
  | _, _ => false
  end.

(** The generator of the test data:
    [func SquareGenerator(n int) {
       for i := 1; i <= n; i++ { coroutine.Yield[int, any](i * i) } }] *)
Definition n_ : ident := id_ "n" 10.
Definition i_ : ident := id_ "i" 11.
Definition yieldCall : stmt :=
  ExprStmt 24
    (CallExpr
       (IndexListExpr (SelectorExpr (use "coroutine") (NewIdent "Yield"))
          [use "int"; use "any"])
       [BinaryExpr (Ident i_) MUL (Ident i_)]).
Definition squareLoop : stmt :=
  ForStmt 21
    (Some (AssignStmt 22 [Ident i_] DEFINE [BasicLit INT "1"]))
    (Some (BinaryExpr (Ident i_) LEQ (Ident n_)))
    (Some (IncDecStmt 23 (Ident i_) INC))
    (BlockStmt 25 [yieldCall]).
Definition SquareGenerator : FuncDecl :=
  MkFuncDecl 1 None (NewIdent "SquareGenerator")
    (MkFuncType (Some [Field [n_] (use "int")]) None)
    (BlockStmt 20 [squareLoop]).

(** A list of three statements, and a loop over two statements. *)
Definition first : stmt := ExprStmt 31 (call0 "f").
Definition second : stmt := ExprStmt 32 (call0 "g").
Definition third : stmt := ReturnStmt 33 [].
Definition three : list stmt := [first; second; third].
Definition threeSpans : gmap addr span := trackSpans (BlockStmt 30 three).
Definition twoBody : stmt := BlockStmt 41 [first; second].
Definition twoLoop : stmt := ForStmt 40 None None None twoBody.
Definition twoLoopSpans : gmap addr span := trackSpans twoLoop.
Definition inBlock : stmt := BlockStmt 42 [twoLoop].
Definition inBlockSpans : gmap addr span := trackSpans inBlock.

(** A loop in an [else] branch:
    [func G() { if x { f() } else { for { f(); g() } } }] *)
Definition elseLoop : stmt :=
  ForStmt 54 None None None (BlockStmt 55 [ExprStmt 56 (call0 "f"); ExprStmt 57 (call0 "g")]).
Definition ifElse : stmt :=
  IfStmt 51 None (use "x") (BlockStmt 52 [ExprStmt 53 (call0 "f")])
    (Some (BlockStmt 58 [elseLoop])).
Definition elseLoopFn : FuncDecl :=
  MkFuncDecl 1 None (NewIdent "G") noParams (BlockStmt 50 [ifElse]).

(** A parameter and a result that the body assigns:
    [func G(n int) (r int) { n = n + 1; r = n }] *)
Definition r_ : ident := id_ "r" 12.
Definition assignsParam : FuncDecl :=
  MkFuncDecl 1 None (NewIdent "G")
    (MkFuncType (Some [Field [n_] (use "int")]) (Some [Field [r_] (use "int")]))
    (BlockStmt 60
       [AssignStmt 61 [Ident n_] ASSIGN [BinaryExpr (Ident n_) ADD (BasicLit INT "1")];
        AssignStmt 62 [Ident r_] ASSIGN [Ident n_]]).

(** A resumed frame whose slot 0 holds a string, and one whose slots
    hold integers; the variables hold the integers 7. *)
Definition seven : value := MkValue (Some (TBasic "int")) 7.
Definition staleFrame : runtime :=
  MkRuntime 1 {[0%nat := MkValue (Some (TBasic "string")) 0]} true false (fun _ => seven).
Definition returning : runtime :=
  MkRuntime 1 {[0%nat := seven; 1%nat := seven]} true false (fun _ => seven).

Definition theCompiler : compiler := MkCompiler "coroc_generated.go" "durable".
Definition color : Signature := MkSignature [TBasic "int"] [TInterface].
Definition colors : list (ssaFunction * Signature) :=
  [(MkSsaFunction "testdata.G" (SynFuncDecl 1), color)].
Definition packageOf (decl : FuncDecl) : Package :=
  MkPackage "testdata" ["/src/testdata/coroutine.go"]
    [MkFile (NewIdent "testdata") [FuncDeclD decl]] info.

End Samples.

(** ** The colored declarations of a package *)

(** The function declarations of [decls] that have a color, in the order
    of the declarations, each with its color: the declarations for which
    the loop of [compilePackage] does not [continue]. *)
Definition coloredDecls (colorsByDecl : gmap addr Signature) (decls : list Decl) :
    list (FuncDecl * Signature) :=
  omap (fun d => match d with
                 | FuncDeclD decl =>
                     match colorsByDecl !! fd_addr decl with
                     | Some color => Some (decl, color)
                     | None => None
                     end
                 | GenDeclD _ _ => None
                 end) decls.

Section CompiledDeclarations.

Variable typeExpr : option gotype -> expr.
Variable desugar : stmt -> Info -> stmt.
Variable trackSpans : stmt -> gmap addr span.
Variable unnestBlocks : stmt -> stmt.

(** A colored declaration passes the gating pass and [compileFunction]
    turns it into [gen]. *)
Definition compilesTo (p : Package) (dc : FuncDecl * Signature) (gen : FuncDecl) : Prop :=
  gating (fst dc) (p_TypesInfo p) = Running None
  /\ compileFunction typeExpr desugar trackSpans unnestBlocks
       (p_TypesInfo p) (fst dc) (snd dc) = Some gen.

End CompiledDeclarations.

(** ** Subexpressions in the walk *)

(** The nodes of a subexpression stand together among the nodes of the
    expression. *)
Definition holdsWalks (t : tree) : Prop :=
  forall e', NExpr e' ∈ nodes t ->
    exists pre post, nodes t = (pre ++ nodes (walkExpr e') ++ post)%list.

(** ** flattenPackages

    A [*packages.Package] is modelled by its address; the heap gives, for
    every package, the packages it imports, in the order in which Go
    happens to range over the map [p.Imports].  An address without entry
    is the nil pointer.  The set [seen] is the Go map
    [map[*packages.Package]struct{}].  The recursion of
    [flattenPackages0] is bounded by a fuel, which the properties below
    show to be enough when it exceeds the number of packages. *)

Definition pkgptr := N.

(** How a call that may panic or exhaust the fuel ends. *)
Inductive result (A : Type) :=
| Ended (a : A)
| Crashed
| OutOfFuel.
Arguments Ended {A} a.
Arguments Crashed {A}.
Arguments OutOfFuel {A}.

Fixpoint flattenPackages0 (fuel : nat) (heap : gmap pkgptr (list pkgptr))
    (seen : gset pkgptr) (p : pkgptr) : result (gset pkgptr) :=
  match fuel with
  | O => OutOfFuel
  | S fuel' =>
      if decide (p ∈ seen) then Ended seen
      else
        match heap !! p with
        | None => Crashed
        | Some imports =>
            fold_left
              (fun acc child =>
                 match acc with
                 | Ended seen' => flattenPackages0 fuel' heap seen' child
                 | other => other
                 end)
              imports (Ended ({[p]} ∪ seen))
        end
  end.

(** [flattenPackages]: the slice is filled in the order in which Go
    ranges over the map [seen], which is [rangeSeen]: some order of the
    elements of the set. *)
Definition flattenPackages (rangeSeen : gset pkgptr -> list pkgptr) (fuel : nat)
    (heap : gmap pkgptr (list pkgptr)) (pp : list pkgptr) : result (list pkgptr) :=
  match fold_left
          (fun acc p =>
             match acc with
             | Ended seen => flattenPackages0 fuel heap seen p
             | other => other
             end)
          pp (Ended ∅) with
  | Ended seen => Ended (rangeSeen seen)
  | Crashed => Crashed
  | OutOfFuel => OutOfFuel
  end.

(** The packages of a list are on the heap, and so are the packages that
    the packages on the heap import. *)
Definition validPackages (heap : gmap pkgptr (list pkgptr)) (l : list pkgptr) : bool :=
  forallb (fun p => bool_decide (is_Some (heap !! p))) l.

Definition closedHeap (heap : gmap pkgptr (list pkgptr)) : bool :=
  forallb (fun entry => validPackages heap (snd entry)) (map_to_list heap).

(** [q] is imported by [p]. *)
Definition imports (heap : gmap pkgptr (list pkgptr)) (p q : pkgptr) : Prop :=
  exists l, heap !! p = Some l /\ q ∈ l.

(** What a call of [flattenPackages0], or a loop of such calls over the
    packages [from], may add to [seen]: the packages [from] are in the
    new set, every package added can be reached from one of them, and
    every package that an added package imports is in the new set. *)
Definition grows (heap : gmap pkgptr (list pkgptr)) (from : list pkgptr)
    (seen seen' : gset pkgptr) : Prop :=
  seen ⊆ seen'
  /\ (forall p, p ∈ from -> p ∈ seen')
  /\ (forall x, x ∈ seen' -> x ∉ seen -> exists p, p ∈ from /\ rtc (imports heap) p x)
  /\ (forall x y, x ∈ seen' -> x ∉ seen -> imports heap x y -> y ∈ seen').

(** * The serialization library: [types/serde.go]

    An [unsafe.Pointer] is an address of type [N], the nil pointer being
    [0]; an [sID] is an [int64], a [Z] with its wrap-around written out.
    Go's [int] is taken to be 64 bits wide. *)

Module types.

Definition pointer := N.
Definition nil : pointer := 0%N.
Definition sID := Z.

(** The conversion [sID(n)] of the [int] value [n + 1]: the addition and
    the conversion wrap around at 64 bits. *)
Definition int64 (z : Z) : Z := (z + 2 ^ 63) mod 2 ^ 64 - 2 ^ 63.

(** The method [assignPointerID] of the serializer: the map [s.ptrs] afterwards, and the
    two results. *)
Definition assignPointerID (ptrs : gmap pointer sID) (p : pointer) :
    gmap pointer sID * (sID * bool) :=
  match ptrs !! p with
  | Some id => (ptrs, (id, false))
  | None =>
      let id := int64 (Z.of_nat (size ptrs) + 1) in
      (<[p := id]> ptrs, (id, true))
  end.

(** A run of calls of [assignPointerID] on a fresh serializer: the map at
    the end, and the results of the calls in order. *)
Definition assignPointerIDs (ps : list pointer) : gmap pointer sID * list (sID * bool) :=
  fold_left (fun acc p =>
               let '(ptrs', r) := assignPointerID (fst acc) p in
               (ptrs', snd acc ++ [r])%list)
    ps (∅, []).

(** [d.ptrs[i]]: a key without entry reads as the nil pointer. *)
Definition load (ptrs : gmap sID pointer) (i : sID) : pointer :=
  default nil (ptrs !! i).

(** The method [store] of the deserializer: the map [d.ptrs] afterwards, or [None] when
    it panics. *)
Definition store (ptrs : gmap sID pointer) (i : sID) (p : pointer) :
    option (gmap sID pointer) :=
  if decide (load ptrs i <> nil) then None else Some (<[i := p]> ptrs).

(** A run of calls of [store], which ends at the first panic. *)
Definition stores (ops : list (sID * pointer)) (ptrs : gmap sID pointer) :
    option (gmap sID pointer) :=
  fold_left (fun acc op =>
               match acc with
               | Some ptrs' => store ptrs' (fst op) (snd op)
               | None => None
               end)
    ops (Some ptrs).

End types.

(** * The generator of serialization functions: the command [serde]

    The fields of the generator that the functions below read and write
    are passed and returned.  A [typeutil.Map] is keyed by types up to
    identity: a type is given by a number that stands for its identity
    class.  A nil Go map reads as the empty map, and [ensureImport] makes
    the map before it writes to it, so [g.imports] is a [gmap] from the
    start. *)

Module serdecmd.

Record location := MkLocation { pkg : string; name : string; terminal : bool }.

Record locations := MkLocations { serializer : location; deserializer : location }.

Definition typeKey := N.

(** [isInvalidChar], on the code point of a rune. *)
Definition isInvalidChar (r : Z) : bool :=
  let valid :=
    ((48 <=? r) && (r <=? 57)) || ((97 <=? r) && (r <=? 122))
    || ((65 <=? r) && (r <=? 90)) || (r =? 95) in
  negb valid.

(** [strings.ContainsFunc(name, isInvalidChar)].  Go tests the runes of
    the string: a byte below 128 is the rune of that code point, and every
    other rune, the replacement character of an ill-formed sequence
    included, has a code point of 128 or more, for which [isInvalidChar]
    answers [true] as it does for the bytes of 128 or more; so the test of
    the runes is the test of the bytes. *)
Definition containsInvalidChar (name : string) : bool :=
  existsb (fun b => isInvalidChar (Z.of_N (Ascii.N_of_ascii b))) (list_ascii_of_string name).

(** [setLocation]: the map [g.known] afterwards, or [None] when it
    panics. *)
Definition setLocation (known : gmap typeKey locations) (t : typeKey) (loc : locations) :
    option (gmap typeKey locations) :=
  match known !! t with
  | Some prev => None
  | None => Some (<[t := loc]> known)
  end.

(** [newGenLocation]: the map [g.known] afterwards and the location, or
    [None] when it panics. *)
Definition newGenLocation (known : gmap typeKey locations) (t : typeKey) (name : string) :
    option (gmap typeKey locations * locations) :=
  let name := if containsInvalidChar name then "" else name in
  let name :=
    if bool_decide (name = "") then "gen" ++ Itoa (Z.of_nat (size known)) else name in
  let loc :=
    MkLocations (MkLocation "" ("Serialize_" ++ name) false)
                (MkLocation "" ("Deserialize_" ++ name) false) in
  match setLocation known t loc with
  | Some known' => Some (known', loc)
  | None => None
  end.

(** [get] *)
Definition get (known : gmap typeKey locations) (t : typeKey) : locations * bool :=
  match known !! t with
  | Some loc => (loc, true)
  | None => (MkLocations (MkLocation "" "" false) (MkLocation "" "" false), false)
  end.

(** [ensureImport]: the map [g.imports] afterwards, or [None] when it
    panics. *)
Definition ensureImport (imports : gmap string string) (name path : string) :
    option (gmap string string) :=
  match imports !! name with
  | Some p => if bool_decide (p <> path) then None else Some imports
  | None => Some (<[name := path]> imports)
  end.

(** A run of calls of [ensureImport], which ends at the first panic. *)
Definition ensureImports (requests : list (string * string)) (imports : gmap string string) :
    option (gmap string string) :=
  fold_left (fun acc r =>
               match acc with
               | Some imports' => ensureImport imports' (fst r) (snd r)
               | None => None
               end)
    requests (Some imports).

(** [strings.LastIndexByte]: the index of the last byte [c] of [s], or
    [-1]. *)
Fixpoint LastIndexByte (s : string) (c : Ascii.ascii) : Z :=
  match s with
  | EmptyString => -1
  | String a rest =>
      let i := LastIndexByte rest c in
      if i =? -1 then (if Ascii.eqb a c then 0 else -1) else i + 1
  end.

Definition dot : Ascii.ascii := Ascii.ascii_of_nat 46.

Section TargetFile.

(** [filepath.Split] and [filepath.Join]. *)
Variable filepath_Split : string -> string * string.
Variable filepath_Join : string -> string -> string.

(** [TargetFile], from the name of the file that holds the type; [None]
    when it panics. *)
Definition TargetFile (Filename : string) : option string :=
  let '(dir, file) := filepath_Split Filename in
  let i := LastIndexByte file dot in
  if i =? -1 then None
  else
    let outFile := substring 0 (Z.to_nat i) file ++ "_serde.go" in
    Some (filepath_Join dir outFile).

End TargetFile.

End serdecmd.

(** * The package [coroc]: Compile

    What the operating system, the path functions and the package loader
    answer is given by functions; an [error] is given by its message. *)

Module coroc.

(** [strings.HasSuffix] *)
Definition HasSuffix (s suffix : string) : bool :=
  (String.length suffix <=? String.length s)%nat
  && String.eqb
       (substring (String.length s - String.length suffix) (String.length suffix) s)
       suffix.

(** A loaded package, as far as [Compile] reads it. *)
Record Package := MkPackage { Name : string; Errors : list string }.

(** What [Compile] does to the outside, in order. *)
Inductive event :=
| EvStat (path : string)
| EvPrintln (line : string)
| EvLoad (pattern : string).

(** The path that is cleaned: the first statement of [Compile].  [inl] is
    the error of [os.Stat]. *)
Definition statPath (os_Stat : string -> string + bool)
    (filepath_Dir : string -> string) (path : string) : list event * (string + string) :=
  if negb (String.eqb path "") && negb (HasSuffix path "...")
  then match os_Stat path with
       | inl err => ([EvStat path], inl err)
       | inr isDir => ([EvStat path], inr (if isDir then path else filepath_Dir path))
       end
  else ([], inr path).

(** The pattern that is loaded: the cleaned path, with [./] before it
    when it starts neither with the separator nor with a dot. *)
Definition relativePattern (Separator : Ascii.ascii) (path : string) : string :=
  match path with
  | String c _ =>
      if negb (Ascii.eqb c Separator) && negb (Ascii.eqb c (Ascii.ascii_of_nat 46))
      then "." ++ String Separator "" ++ path
      else path
  | EmptyString => path
  end.

Section Compile.

(** [os.Stat] answers an error, or whether the path is a directory;
    [packages.Load] an error or the packages. *)
Variable os_Stat : string -> string + bool.
Variable filepath_Dir : string -> string.
Variable filepath_Clean : string -> string.
Variable Separator : Ascii.ascii.
Variable strconv_Quote : string -> string.
Variable packages_Load : string -> string + list Package.

Definition Compile (path : string) : list event * option string :=
  match statPath os_Stat filepath_Dir path with
  | (events, inl err) => (events, Some err)
  | (events, inr path) =>
      let path := relativePattern Separator (filepath_Clean path) in
      let events := (events ++ [EvPrintln path; EvLoad path])%list in
      match packages_Load path with
      | inl err =>
          (events, Some ("packages.Load " ++ strconv_Quote path ++ ": " ++ err))
      | inr pkgs =>
          match concat (map Errors pkgs) with
          | err :: _ => (events, Some err)
          | [] => ((events ++ map (fun p => EvPrintln (Name p)) pkgs)%list, None)
          end
      end
  end.

End Compile.

End coroc.

(** * compile

    The method [compile] of the compiler, from the path it is given to
    the calls of [compilePackage].  The packages are on a heap: an
    address with an entry is a [*packages.Package], an address without
    is the nil pointer.  Its first statements are those of
    [coroc.Compile].  The writes to the log are left out. *)

(** A [*packages.Package], as far as [compile] and the functions it
    calls read it: [p.Imports] in the order in which Go ranges over it,
    [p.Errors], [p.PkgPath], the address of [p.Types], and what
    [compilePackage] reads. *)
Record pkgNode := MkPkgNode {
  pk_Imports : list pkgptr;
  pk_Errors : list string;
  pk_PkgPath : string;
  pk_Types : N;
  pk_Package : Package
}.

(** The nil [*packages.Package], which a map of packages yields for a key
    without entry. *)
Definition nilPackage : pkgptr := 0%N.

(** From the SSA program to the colors.  [ssautil.Packages],
    [prog.Build] and [cha.CallGraph] are library calls without an effect
    that [compile] observes; the lookup of [Yield] in the coroutine
    package with its type assertion, the collection of the instances of
    [Yield] and [colorFunctions], which is in a file of the package that
    is not part of the sources at hand, end in a panic, in an error or in
    the colors, listed in the order in which Go ranges over that map. *)
Inductive coloringResult :=
| Colored (colors : list (ssaFunction * Signature))
| ColoringError (err : string)
| ColoringPanic.

(** What [compile] does to the outside, in order: the calls of [os.Stat]
    and of [packages.Load], and the calls of [compilePackage] with their
    effects on the file system. *)
Inductive cevent :=
| COuter (ev : coroc.event)
| CCompilePackage (p : pkgptr) (colors : list (ssaFunction * Signature))
    (events : list event).

(** The package that a call of [compilePackage] is for. *)
Definition compiledPackage (ev : cevent) : option pkgptr :=
  match ev with
  | CCompilePackage p _ _ => Some p
  | COuter _ => None
  end.

(** The flattened packages with their entries; [None] when one of them is
    the nil pointer. *)
Definition nodesOf (heap : gmap pkgptr pkgNode) (flatpkgs : list pkgptr) :
    option (list (pkgptr * pkgNode)) :=
  mapM (fun p => match heap !! p with
                 | Some node => Some (p, node)
                 | None => None
                 end) flatpkgs.

(** The first error of the first package that has one. *)
Definition firstPackageError (nodes : list (pkgptr * pkgNode)) : option string :=
  head (concat (map (fun pn => pk_Errors (snd pn)) nodes)).

(** The loop that finds the coroutine package. *)
Definition findCoroutinePackage (nodes : list (pkgptr * pkgNode)) :
    option (pkgptr * pkgNode) :=
  List.find (fun pn => String.eqb (pk_PkgPath (snd pn)) coroutinePackage) nodes.

(** The loop that builds [pkgsByTypes]. *)
Definition pkgsByTypesOf (nodes : list (pkgptr * pkgNode)) : gmap N pkgptr :=
  fold_left (fun m pn => <[pk_Types (snd pn) := fst pn]> m) nodes ∅.

Section CompileAll.

Variable typeExpr : option gotype -> expr.
Variable desugar : stmt -> Info -> stmt.
Variable trackSpans : stmt -> gmap addr span.
Variable unnestBlocks : stmt -> stmt.
Variable filepath_Dir : string -> string.
Variable filepath_Join : string -> string -> string.
Variable os : OS.
(** [os.Stat] answers an error, or whether the path is a directory;
    [packages.Load] an error or the packages. *)
Variable os_Stat : string -> string + bool.
Variable filepath_Clean : string -> string.
Variable Separator : Ascii.ascii.
Variable strconv_Quote : string -> string.
Variable packages_Load : string -> string + list pkgptr.
Variable heap : gmap pkgptr pkgNode.
Variable coloring : list pkgptr -> pkgptr -> coloringResult.
(** [fn.Pkg.Pkg], the address of a [*types.Package]; [None] when [fn.Pkg]
    is nil. *)
Variable fn_Pkg : ssaFunction -> option N.
(** The orders in which Go ranges over the set of the packages seen, over
    the map [colorsByPkg] and over the colors of one package. *)
Variable rangeSeen : gset pkgptr -> list pkgptr.
Variable rangePkgs :
  gmap pkgptr (list (ssaFunction * Signature)) ->
  list (pkgptr * list (ssaFunction * Signature)).
Variable rangeColors : list (ssaFunction * Signature) -> list (ssaFunction * Signature).

(** The package of a colored function: [pkgsByTypes[fn.Pkg.Pkg]]. *)
Definition packageOfFn (pkgsByTypes : gmap N pkgptr) (fn : ssaFunction) : option pkgptr :=
  match fn_Pkg fn with
  | Some typesPkg => Some (default nilPackage (pkgsByTypes !! typesPkg))
  | None => None
  end.

(** The loop that builds [colorsByPkg].  The keys of the map [colors] are
    distinct functions, so that an assignment [pkgColors[fn] = color]
    adds an entry to the colors of the package. *)
Fixpoint groupColors (pkgsByTypes : gmap N pkgptr)
    (colors : list (ssaFunction * Signature))
    (colorsByPkg : gmap pkgptr (list (ssaFunction * Signature))) :
    string + gmap pkgptr (list (ssaFunction * Signature)) :=
  match colors with
  | [] => inr colorsByPkg
  | (fn, color) :: rest =>
      match fn_Pkg fn with
      | None => inl ("unsupported yield function " ++ fn_String fn ++ " (Pkg is nil)")
      | Some typesPkg =>
          let p := default nilPackage (pkgsByTypes !! typesPkg) in
          let pkgColors := default [] (colorsByPkg !! p) in
          groupColors pkgsByTypes rest (<[p := (pkgColors ++ [(fn, color)])%list]> colorsByPkg)
      end
  end.

(** The loop over [colorsByPkg]: it stops at the first package whose
    compilation returns an error; the compilation of the nil package
    panics when it reads the name of the package. *)
Fixpoint compilePackages (c : compiler)
    (todo : list (pkgptr * list (ssaFunction * Signature))) :
    result (list cevent * option string) :=
  match todo with
  | [] => Ended ([], None)
  | (p, colors) :: rest =>
      match heap !! p with
      | None => Crashed
      | Some node =>
          match compilePackage typeExpr desugar trackSpans unnestBlocks
                  filepath_Dir filepath_Join strconv_Quote os c (pk_Package node) (rangeColors colors) with
          | (events, Panics) => Crashed
          | (events, Returns (Some err)) =>
              Ended ([CCompilePackage p (rangeColors colors) events], Some err)
          | (events, Returns None) =>
              match compilePackages c rest with
              | Ended (later, out) =>
                  Ended (CCompilePackage p (rangeColors colors) events :: later, out)
              | other => other
              end
          end
      end
  end.

(** The call of [compilePackage] that the event [ev] records is the call
    for the entry [todo] of [colorsByPkg]. *)
Definition compiledEntry (c : compiler)
    (todo : pkgptr * list (ssaFunction * Signature)) (ev : cevent) : Prop :=
  exists node,
    heap !! fst todo = Some node
    /\ ev = CCompilePackage (fst todo) (rangeColors (snd todo))
              (fst (compilePackage typeExpr desugar trackSpans unnestBlocks
                      filepath_Dir filepath_Join strconv_Quote os c (pk_Package node)
                      (rangeColors (snd todo)))).

Definition compile (fuel : nat) (c : compiler) (path : string) :
    result (list cevent * option string) :=
  match coroc.statPath os_Stat filepath_Dir path with
  | (stat, inl err) => Ended (map COuter stat, Some err)
  | (stat, inr path) =>
      let path := coroc.relativePattern Separator (filepath_Clean path) in
      let events := (map COuter stat ++ [COuter (coroc.EvLoad path)])%list in
      match packages_Load path with
      | inl err =>
          Ended (events, Some ("packages.Load " ++ strconv_Quote path ++ ": " ++ err))
      | inr pkgs =>
          match flattenPackages rangeSeen fuel (pk_Imports <$> heap) pkgs with
          | Crashed => Crashed
          | OutOfFuel => OutOfFuel
          | Ended flatpkgs =>
              match nodesOf heap flatpkgs with
              | None => Crashed
              | Some nodes =>
                  match firstPackageError nodes with
                  | Some err => Ended (events, Some err)
                  | None =>
                      match findCoroutinePackage nodes with
                      | None => Ended (events, None)
                      | Some (coroutinePkg, _) =>
                          match coloring pkgs coroutinePkg with
                          | ColoringPanic => Crashed
                          | ColoringError err => Ended (events, Some err)
                          | Colored colors =>
                              match groupColors (pkgsByTypesOf nodes) colors ∅ with
                              | inl err => Ended (events, Some err)
                              | inr colorsByPkg =>
                                  match compilePackages c (rangePkgs colorsByPkg) with
                                  | Ended (compiled, out) =>
                                      Ended ((events ++ compiled)%list, out)
                                  | other => other
                                  end
                              end
                          end
                      end
                  end
              end
          end
      end
  end.

End CompileAll.

(** * Compile and its options *)

(** A [CompileOption] is a function that updates the compiler. *)
Definition CompileOption := compiler -> compiler.

Definition WithOutputFilename (outputFilename : string) : CompileOption :=
  fun c => MkCompiler outputFilename (buildTags c).

Definition WithBuildTags (buildTags : string) : CompileOption :=
  fun c => MkCompiler (outputFilename c) buildTags.

(** The compiler that [Compile] builds and then configures with the
    options, in order. *)
Definition configure (options : list CompileOption) : compiler :=
  fold_left (fun c option => option c) options (MkCompiler "coroc_generated.go" "").

(** An option given by its constructor and its argument. *)
Inductive optionSpec :=
| OutputFilename (name : string)
| BuildTags (tags : string).

Definition optionOf (o : optionSpec) : CompileOption :=
  match o with
  | OutputFilename name => WithOutputFilename name
  | BuildTags tags => WithBuildTags tags
  end.

Definition outputFilenameOf (o : optionSpec) : option string :=
  match o with
  | OutputFilename name => Some name
  | BuildTags _ => None
  end.

Definition buildTagsOf (o : optionSpec) : option string :=
  match o with
  | BuildTags tags => Some tags
  | OutputFilename _ => None
  end.

Section CompileWithOptions.

Variable typeExpr : option gotype -> expr.
Variable desugar : stmt -> Info -> stmt.
Variable trackSpans : stmt -> gmap addr span.
Variable unnestBlocks : stmt -> stmt.
Variable filepath_Dir : string -> string.
Variable filepath_Join : string -> string -> string.
Variable os : OS.
Variable os_Stat : string -> string + bool.
Variable filepath_Clean : string -> string.
Variable Separator : Ascii.ascii.
Variable strconv_Quote : string -> string.
Variable packages_Load : string -> string + list pkgptr.
Variable heap : gmap pkgptr pkgNode.
Variable coloring : list pkgptr -> pkgptr -> coloringResult.
Variable fn_Pkg : ssaFunction -> option N.
Variable rangeSeen : gset pkgptr -> list pkgptr.
Variable rangePkgs :
  gmap pkgptr (list (ssaFunction * Signature)) ->
  list (pkgptr * list (ssaFunction * Signature)).
Variable rangeColors : list (ssaFunction * Signature) -> list (ssaFunction * Signature).

(** [Compile] of the package [compiler]. *)
Definition Compile (fuel : nat) (path : string) (options : list CompileOption) :
    result (list cevent * option string) :=
  compile typeExpr desugar trackSpans unnestBlocks filepath_Dir filepath_Join os
    os_Stat filepath_Clean Separator strconv_Quote packages_Load heap coloring fn_Pkg
    rangeSeen rangePkgs rangeColors fuel (configure options) path.

End CompileWithOptions.

(** * The inspection of serialized state: [types/inspect.go]

    The messages of the serialized state are records.  A field that
    refers to a string or to a type holds the index of its target plus
    one, and zero for no target; such fields are natural numbers.  The
    kinds and channel directions are those that the code names, and
    [KIND_OTHER] and [CHAN_DIR_OTHER] stand for every other value.  A
    method that panics ends in [Crashed]. *)

#[global] Instance result_ret : MRet result := fun A a => Ended a.

#[global] Instance result_bind : MBind result :=
  fun A B f r =>
    match r with
    | Ended a => f a
    | Crashed => Crashed
    | OutOfFuel => OutOfFuel
    end.

Module inspect.

Inductive Kind :=
| KIND_BOOL | KIND_INT | KIND_INT8 | KIND_INT16 | KIND_INT32 | KIND_INT64
| KIND_UINT | KIND_UINT8 | KIND_UINT16 | KIND_UINT32 | KIND_UINT64 | KIND_UINTPTR
| KIND_FLOAT32 | KIND_FLOAT64 | KIND_COMPLEX64 | KIND_COMPLEX128
| KIND_ARRAY | KIND_CHAN | KIND_FUNC | KIND_INTERFACE | KIND_MAP | KIND_POINTER
| KIND_SLICE | KIND_STRING | KIND_STRUCT | KIND_UNSAFE_POINTER
| KIND_OTHER.

Inductive ChanDir :=
| CHAN_DIR_RECV | CHAN_DIR_SEND | CHAN_DIR_BOTH | CHAN_DIR_OTHER.

#[global] Instance Kind_eq_dec : EqDecision Kind.
Proof. solve_decision. Defined.

(** [coroutinev1.Field] and [coroutinev1.Type], as far as [Format]
    reads them. *)
Record FieldMsg := MkField {
  fm_Name : N;
  fm_Type : N;
  fm_Anonymous : bool
}.

Record TypeMsg := MkType {
  tm_Name : N;
  tm_Package : N;
  tm_Kind : Kind;
  tm_Elem : N;
  tm_Key : N;
  tm_Fields : list FieldMsg;
  tm_Params : list N;
  tm_Results : list N;
  tm_Length : Z;
  tm_ChanDir : ChanDir;
  tm_Variadic : bool;
  tm_CustomSerializer : N
}.

(** [coroutinev1.State]: the strings and the types. *)
Record State := MkState {
  st_Strings : list string;
  st_Types : list TypeMsg
}.

(** The method [String] of the state: the string at index [i]. *)
Definition String_ (s : State) (i : Z) : result string :=
  if (i <? 0) || (Z.of_nat (length (st_Strings s)) <=? i) then Crashed
  else match st_Strings s !! Z.to_nat i with
       | Some str => Ended str
       | None => Crashed
       end.

(** The method [Type] of the state: the type at index [i]. *)
Definition Type_ (s : State) (i : Z) : result TypeMsg :=
  if (i <? 0) || (Z.of_nat (length (st_Types s)) <=? i) then Crashed
  else match st_Types s !! Z.to_nat i with
       | Some t => Ended t
       | None => Crashed
       end.

(** A string by reference: the empty string for the reference zero. *)
Definition stringRef (s : State) (ref : N) : result string :=
  if (ref =? 0)%N then Ended "" else String_ s (Z.of_N ref - 1).

(** The methods [Name] and [Package] of a type, and [Name] of a field. *)
Definition Name (s : State) (t : TypeMsg) : result string := stringRef s (tm_Name t).
Definition Package (s : State) (t : TypeMsg) : result string := stringRef s (tm_Package t).
Definition FieldName (s : State) (f : FieldMsg) : result string := stringRef s (fm_Name f).

(** The methods [Elem] and [Key]: [nil] for the reference zero. *)
Definition Elem (s : State) (t : TypeMsg) : result (option TypeMsg) :=
  if (tm_Elem t =? 0)%N then Ended None
  else t' ← Type_ s (Z.of_N (tm_Elem t) - 1); Ended (Some t').

Definition Key (s : State) (t : TypeMsg) : result (option TypeMsg) :=
  if (tm_Key t =? 0)%N then Ended None
  else t' ← Type_ s (Z.of_N (tm_Key t) - 1); Ended (Some t').

(** The method [Opaque]. *)
Definition Opaque (t : TypeMsg) : bool := (0 <? tm_CustomSerializer t)%N.

(** The name of the kind in the first switch of [Format]. *)
Definition primitiveKind (k : Kind) : string :=
  match k with
  | KIND_BOOL => "bool"
  | KIND_INT => "int"
  | KIND_INT8 => "int8"
  | KIND_INT16 => "int16"
  | KIND_INT32 => "int32"
  | KIND_INT64 => "int64"
  | KIND_UINT => "uint"
  | KIND_UINT8 => "uint8"
  | KIND_UINT16 => "uint16"
  | KIND_UINT32 => "uint32"
  | KIND_UINT64 => "uint64"
  | KIND_UINTPTR => "uintptr"
  | KIND_FLOAT32 => "float32"
  | KIND_FLOAT64 => "float64"
  | KIND_COMPLEX64 => "complex64"
  | KIND_COMPLEX128 => "complex128"
  | KIND_STRING => "string"
  | KIND_INTERFACE => "interface"
  | KIND_UNSAFE_POINTER => "unsafe.Pointer"
  | _ => ""
  end.

(** The prefix of the second switch of [Format]. *)
Definition elemPrefix (t : TypeMsg) : string :=
  match tm_Kind t with
  | KIND_ARRAY => "[" ++ Itoa (tm_Length t) ++ "]"
  | KIND_CHAN =>
      match tm_ChanDir t with
      | CHAN_DIR_RECV => "<-chan "
      | CHAN_DIR_SEND => "chan<- "
      | _ => "chan "
      end
  | KIND_POINTER => "*"
  | KIND_SLICE => "[]"
  | _ => ""
  end.

Section Format.

(** [reflect.Kind.String], on the kind that the method [Kind] returns. *)
Variable reflect_Kind_String : Kind -> string.

(** The value of [int(x - 1)] for a reference [x] that is zero; it
    depends on the integer type of the field in the generated message
    type. *)
Variable wrapped : Z.

(** [int(x - 1)], where the reference is not tested before. *)
Definition index (ref : N) : Z :=
  if (ref =? 0)%N then wrapped else Z.of_N ref - 1.

(** [fmt.Sprintf("<anon %s>", t.Kind())]: the method [Kind] panics on a
    kind that is none of those named. *)
Definition anon (t : TypeMsg) : result string :=
  match tm_Kind t with
  | KIND_OTHER => Crashed
  | k => Ended ("<anon " ++ reflect_Kind_String k ++ ">")
  end.

(** The first statements of [Format]: the name of the type, after the
    package that defines it when there is one. *)
Definition qualifiedName (s : State) (t : TypeMsg) : result string :=
  name ← Name s t;
  pkg ← Package s t;
  if bool_decide (pkg <> "")
  then name ← (if bool_decide (name = "") then anon t else Ended name);
       Ended (pkg ++ "." ++ name)
  else Ended name.

(** The items of a loop that writes a separator before every item but
    the first. *)
Fixpoint joined (sep : string) (items : list string) : string :=
  match items with
  | [] => ""
  | [x] => x
  | x :: rest => x ++ sep ++ joined sep rest
  end.

(** The method [Format] of a type, with the state of the type, the
    answer of [s.Flag] for the flags plus and sharp, and the text
    written; the inner calls are made without flags. *)
Fixpoint Format (fuel : nat) (s : State) (t : TypeMsg) (verbose : bool) : result string :=
  match fuel with
  | O => OutOfFuel
  | S fuel' =>
      let nested (target : result TypeMsg) : result string :=
        t' ← target; Format fuel' s t' false in
      let pointee (target : result (option TypeMsg)) : result string :=
        o ← target;
        match o with
        | Some t' => Format fuel' s t' false
        | None => Crashed
        end in
      name ← qualifiedName s t;
      if Opaque t
      then
        name ← (if bool_decide (name = "") then anon t else Ended name);
        Ended (if bool_decide (tm_Kind t = KIND_POINTER) then "*" ++ name else name)
      else if bool_decide (name <> "") && negb verbose then Ended name
      else if bool_decide (primitiveKind (tm_Kind t) <> "")
      then
        let primitive := primitiveKind (tm_Kind t) in
        let name := if bool_decide (name = primitive) then "" else name in
        Ended (if bool_decide ((name = "error" /\ primitive = "interface")
                               \/ (name = "any" /\ primitive = "interface")
                               \/ (name = "byte" /\ primitive = "uint8")
                               \/ (name = "rune" /\ primitive = "int32"))
               then name
               else if bool_decide (name <> "")
                    then "(" ++ name ++ "=" ++ primitive ++ ")"
                    else primitive)
      else if bool_decide (elemPrefix t <> "")
      then
        let prefix :=
          if bool_decide (name <> "") then "(" ++ name ++ "=" ++ elemPrefix t
          else elemPrefix t in
        elem ← pointee (Elem s t);
        Ended (prefix ++ elem ++ (if bool_decide (name <> "") then ")" else ""))
      else
        let opening := if bool_decide (name <> "") then "(" ++ name ++ "=" else "" in
        let closing := if bool_decide (name <> "") then ")" else "" in
        body ←
          match tm_Kind t with
          | KIND_FUNC =>
              let paramCount := length (tm_Params t) in
              params ← mapM (fun ip =>
                               p ← nested (Type_ s (index (snd ip)));
                               Ended ((if (fst ip =? paramCount - 1)%nat && tm_Variadic t
                                       then "..." else "") ++ p))
                         (imap (fun i p => (i, p)) (tm_Params t));
              let n := length (tm_Results t) in
              results ← mapM (fun r => nested (Type_ s (index r))) (tm_Results t);
              Ended ("func(" ++ joined ", " params ++ ")"
                     ++ (if (0 <? n)%nat then " " else "")
                     ++ (if (1 <? n)%nat then "(" else "")
                     ++ joined ", " results
                     ++ (if (1 <? n)%nat then ")" else "")
                     ++ closing)
          | KIND_MAP =>
              key ← pointee (Key s t);
              elem ← pointee (Elem s t);
              Ended ("map[" ++ key ++ "]" ++ elem)
          | KIND_STRUCT =>
              match tm_Fields t with
              | [] => Ended "struct{}"
              | fields =>
                  items ← mapM (fun f =>
                                  fname ← (if fm_Anonymous f then Ended ""
                                           else n ← FieldName s f; Ended (n ++ " "));
                                  ftype ← nested (Type_ s (index (fm_Type f)));
                                  Ended (fname ++ ftype))
                            fields;
                  Ended ("struct{ " ++ joined "; " items ++ " }")
              end
          | _ => Ended "invalid"
          end;
        Ended (opening ++ body ++ closing)
  end.

(** The receivers of the inner calls of [Format] on a type that is not
    opaque and is printed with its structure, in the order of the
    calls; the receiver [nil] is [None]. *)
Definition parts (s : State) (t : TypeMsg) : list (result (option TypeMsg)) :=
  match tm_Kind t with
  | KIND_ARRAY | KIND_CHAN | KIND_POINTER | KIND_SLICE => [Elem s t]
  | KIND_MAP => [Key s t; Elem s t]
  | KIND_FUNC =>
      map (fun r => t' ← Type_ s (index r); Ended (Some t')) (tm_Params t ++ tm_Results t)
  | KIND_STRUCT =>
      map (fun f => t' ← Type_ s (index (fm_Type f)); Ended (Some t')) (tm_Fields t)
  | _ => []
  end.

End Format.

(** The type without its name and its package. *)
Definition unnamed (t : TypeMsg) : TypeMsg :=
  MkType 0 0 (tm_Kind t) (tm_Elem t) (tm_Key t) (tm_Fields t) (tm_Params t)
    (tm_Results t) (tm_Length t) (tm_ChanDir t) (tm_Variadic t) (tm_CustomSerializer t).

End inspect.

(** * More sample data *)

Module MoreSamples.

Local Open Scope N_scope.

(** The colors of a package in which a function literal yields. *)
Definition literalColors : list (ssaFunction * Signature) :=
  [(MkSsaFunction "testdata.G" (SynFuncDecl 1), Samples.color);
   (MkSsaFunction "testdata.G$1" SynFuncLit, Samples.color)].

(** Three packages: 1 imports 2 and 3, 2 imports 3, and 3 imports 1. *)
Definition importGraph : gmap pkgptr (list pkgptr) :=
  {[1 := [2; 3]; 2 := [3]; 3 := [1]; 4 := []]}.

(** The package of the test data, which imports the coroutine package. *)
Definition testdataNode : pkgNode :=
  MkPkgNode [2] [] "github.com/stealthrocket/coroutine/coroc/testdata" 7
    (Samples.packageOf Samples.SquareGenerator).
Definition coroutineNode : pkgNode :=
  MkPkgNode [] [] coroutinePackage 8
    (MkPackage "coroutine" ["/src/coroutine/coroutine.go"] [] Samples.info).
Definition packages : gmap pkgptr pkgNode :=
  {[1 := testdataNode; 2 := coroutineNode]}.

Definition os_Stat (path : string) : string + bool := inr true.
Definition filepath_Clean (path : string) : string :=
  if String.eqb path "" then "." else path.
Definition Separator : Ascii.ascii := Ascii.ascii_of_nat 47.
Definition strconv_Quote (s : string) : string := Quote s.
Definition packages_Load (pattern : string) : string + list pkgptr := inr [1].
Definition coloring (pkgs : list pkgptr) (coroutinePkg : pkgptr) : coloringResult :=
  Colored Samples.colors.
Definition fn_Pkg (fn : ssaFunction) : option N := Some 7.

(** [compile] run on the empty path. *)
Definition compiled : result (list cevent * option string) :=
  compile Samples.typeExpr Samples.desugar Samples.trackSpans Samples.unnestBlocks
    Samples.filepath_Dir Samples.filepath_Join Samples.os
    os_Stat filepath_Clean Separator strconv_Quote packages_Load packages coloring fn_Pkg
    elements map_to_list (fun colors => colors) 3 Samples.theCompiler "".

(** A module whose only package does not import the coroutine package,
    and [compile] run on it. *)
Definition plainNode : pkgNode :=
  MkPkgNode [] [] "example.com/plain" 7 (Samples.packageOf Samples.SquareGenerator).
Definition plain : gmap pkgptr pkgNode := {[1 := plainNode]}.
Definition compiledPlain : result (list cevent * option string) :=
  compile Samples.typeExpr Samples.desugar Samples.trackSpans Samples.unnestBlocks
    Samples.filepath_Dir Samples.filepath_Join Samples.os
    os_Stat filepath_Clean Separator strconv_Quote packages_Load plain coloring fn_Pkg
    elements map_to_list (fun colors => colors) 3 Samples.theCompiler "".

(** [reflect.Kind.String]. *)
Definition kindName (k : inspect.Kind) : string :=
  match k with
  | inspect.KIND_ARRAY => "array"
  | inspect.KIND_CHAN => "chan"
  | inspect.KIND_FUNC => "func"
  | inspect.KIND_MAP => "map"
  | inspect.KIND_POINTER => "ptr"
  | inspect.KIND_SLICE => "slice"
  | inspect.KIND_STRUCT => "struct"
  | inspect.KIND_OTHER => "invalid"
  | k => inspect.primitiveKind k
  end.

(** A state with the types [main.T], the struct with the one field
    [next *T], then [*T], and [main.F], the type of the functions with
    one parameter of type [T] and no result. *)
Definition structT : inspect.TypeMsg :=
  inspect.MkType 1 2 inspect.KIND_STRUCT 0 0 [inspect.MkField 3 2 false] [] [] 0%Z
    inspect.CHAN_DIR_OTHER false 0.
Definition pointerT : inspect.TypeMsg :=
  inspect.MkType 0 0 inspect.KIND_POINTER 1 0 [] [] [] 0%Z inspect.CHAN_DIR_OTHER false 0.
Definition funcT : inspect.TypeMsg :=
  inspect.MkType 4 2 inspect.KIND_FUNC 0 0 [] [1] [] 0%Z inspect.CHAN_DIR_OTHER false 0.
Definition state : inspect.State :=
  inspect.MkState ["T"; "main"; "next"; "F"] [structT; pointerT; funcT].
Definition rank (t : inspect.TypeMsg) : nat :=
  if bool_decide (inspect.tm_Kind t = inspect.KIND_POINTER) then 0%nat else 1%nat.

(** A state whose only type is a slice type without name that is its own
    element. *)
Definition selfSlice : inspect.TypeMsg :=
  inspect.MkType 0 0 inspect.KIND_SLICE 1 0 [] [] [] 0%Z inspect.CHAN_DIR_OTHER false 0.
Definition cyclic : inspect.State := inspect.MkState [] [selfSlice].

End MoreSamples.

(** * Properties *)

Open Scope list_scope.

(** The definitions under names that the abbreviations of the sections
    below do not hide. *)
Local Abbreviation def_compileDecls := compileDecls.
Local Abbreviation def_compileFunction := compileFunction.
Local Abbreviation def_compilePackage := compilePackage.
Local Abbreviation def_ends_increasing := ends_increasing.
Local Abbreviation def_restoreStmt := restoreStmt.
Local Abbreviation def_updateNode := updateNode.

(** ** Decimal literals *)

Lemma Atoi_Itoa (z : Z) : Atoi (Itoa z) = Some z.
Proof.
  unfold Atoi, Itoa.
  rewrite NilZero.isi.
  - simpl. f_equal. apply DecimalZ.of_to.
  - destruct z; simpl; try discriminate.
    intros [= H]. revert H. apply (DecimalPos.Unsigned.to_uint_nonnil p).
  - destruct z; simpl; try discriminate.
    intros [= H]. revert H. apply (DecimalPos.Unsigned.to_uint_nonnil p).
Qed.

(** ** The dispatch skip property *)

Section DispatchProperties.

Variable unnestBlocks : stmt -> stmt.
Variable spans : gmap addr span.
Variable effect : stmt -> Z -> Z.

Local Abbreviation cases :=
  (dispatchCases unnestBlocks spans (compileStatement unnestBlocks spans)).
Local Abbreviation compiled := (compiled unnestBlocks spans).
Local Abbreviation ends_increasing := (ends_increasing spans).

Lemma ends_increasing_tail s l :
  ends_increasing (s :: l) = true -> ends_increasing l = true.
Proof.
  cbn [def_ends_increasing]. destruct l; [done|].
  intros H. apply andb_prop in H. tauto.
Qed.

Lemma ends_increasing_head s l :
  ends_increasing (s :: l) = true ->
  Forall (fun s' => end_ (span_at spans s) < end_ (span_at spans s')) l.
Proof.
  revert s. induction l as [|s' l IH]; intros s H; [constructor|].
  cbn [def_ends_increasing] in H. apply andb_prop in H as [H1 H2].
  constructor; [lia|].
  eapply Forall_impl; [apply (IH s' H2)|]. cbn. intros; lia.
Qed.

(** Strictly increasing ends, pair by pair. *)
Lemma ends_increasing_lookup (l : list stmt) :
  ends_increasing l = true ->
  forall (i j : nat) (si sj : stmt),
    (i < j)%nat -> l !! i = Some si -> l !! j = Some sj ->
    end_ (span_at spans si) < end_ (span_at spans sj).
Proof.
  induction l as [|s l IH]; intros H i j si sj Hij Hi Hj; [done|].
  destruct j as [|j]; [lia|]. cbn in Hj.
  destruct i as [|i].
  - cbn in Hi. injection Hi as <-.
    pose proof (ends_increasing_head _ _ H) as Hall.
    rewrite Forall_forall in Hall. apply Hall.
    eapply list_elem_of_lookup_2; eauto.
  - cbn in Hi. apply (IH (ends_increasing_tail _ _ H) i j); [lia|done|done].
Qed.

Lemma is_frameIP_frameIP : is_frameIP frameIP = true.
Proof. reflexivity. Qed.

Lemma eval_guard_guardIP n m : eval_guard (guardIP n) m = Some (IP m <? n).
Proof. unfold eval_guard, guardIP. rewrite is_frameIP_frameIP, Atoi_Itoa. done. Qed.

Lemma run_tail_bookkeeping n m :
  run_tail [setIP n; BranchStmt fresh FALLTHROUGH None] m
  = Some (MkMachine n (ran m), true).
Proof. simpl. rewrite Atoi_Itoa. done. Qed.


(** Once control is in a clause body, fallthrough carries it through all
    the remaining clauses. *)
Lemma run_from_cases (l : list stmt) : forall (n i : Z) (m : machine),
  l <> [] -> i + Z.of_nat (length l) = n ->
  exists m', run_from effect (cases n i l) m = Some m'
             /\ ran m' = ran m ++ map compiled l.
Proof.
  induction l as [|c rest IH]; intros n i m Hne Hlen; [done|].
  simpl in Hlen. cbn [dispatchCases run_from].
  destruct rest as [|c' rest'].
  - assert ((i <? n - 1) = false) as -> by (simpl in Hlen; lia).
    cbn. eexists; split; done.
  - assert ((i <? n - 1) = true) as -> by (cbn [length] in Hlen; lia).
    cbn [run_body]. rewrite run_tail_bookkeeping. cbv beta iota.
    destruct (IH n (i + 1) (MkMachine (end_ (span_at spans c)) (ran (run_child effect (compiled c) m))))
      as (m' & Hrun & Hran); [done | cbn [length] in *; lia |].
    exists m'. split; [exact Hrun|].
    rewrite Hran. cbn [ran run_child map]. by rewrite <- app_assoc.
Qed.

(** Clauses whose span end the instruction pointer has reached are
    skipped. *)
Lemma select_skip (l1 l2 : list stmt) : forall (n i : Z) (m : machine),
  Forall (fun s => end_ (span_at spans s) <= IP m) l1 ->
  select effect (cases n i (l1 ++ l2)) m
  = select effect (cases n (i + Z.of_nat (length l1)) l2) m.
Proof.
  induction l1 as [|c l1 IH]; intros n i m Hall.
  - simpl. by rewrite Z.add_0_r.
  - inversion Hall as [|? ? Hc Hrest]; subst.
    cbn [app dispatchCases select]. rewrite eval_guard_guardIP.
    assert ((IP m <? end_ (span_at spans c)) = false) as -> by lia.
    rewrite IH by done. f_equal. f_equal. cbn [length]. lia.
Qed.

Lemma select_enter (c : stmt) (l : list stmt) (n i : Z) (m : machine) :
  IP m < end_ (span_at spans c) ->
  select effect (cases n i (c :: l)) m = run_from effect (cases n i (c :: l)) m.
Proof.
  intros H. cbn [dispatchCases select]. rewrite eval_guard_guardIP.
  assert ((IP m <? end_ (span_at spans c)) = true) as -> by lia. done.
Qed.

(** The clauses of a dispatch block, one by one. *)
Lemma dispatchCases_lookup (l : list stmt) : forall (n i0 : Z) (j : nat) (c : stmt),
  l !! j = Some c ->
  cases n i0 l !! j
  = Some (CaseClause fresh [guardIP (end_ (span_at spans c))]
            (if i0 + Z.of_nat j <? n - 1
             then [compiled c; setIP (end_ (span_at spans c));
                   BranchStmt fresh FALLTHROUGH None]
             else [compiled c])).
Proof.
  induction l as [|s l IH]; intros n i0 j c Hj; [done|].
  destruct j as [|j]; cbn [dispatchCases].
  - cbn in Hj. injection Hj as ->. cbn. by rewrite Z.add_0_r.
  - cbn in Hj. change ((?x :: ?r) !! S j) with (r !! j).
    rewrite (IH n (i0 + 1) j c Hj).
    replace (i0 + 1 + Z.of_nat j) with (i0 + Z.of_nat (S j)) by lia. done.
Qed.

Lemma dispatchCases_length (l : list stmt) : forall (n i0 : Z),
  length (cases n i0 l) = length l.
Proof. induction l as [|s l IH]; intros n i0; cbn; [done|]. by rewrite IH. Qed.

Lemma dispatchCases_clauses (l : list stmt) :
  cases (Z.of_nat (length l)) 0 l = imap (dispatchClause unnestBlocks spans (length l)) l.
Proof.
  apply list_eq. intros j. rewrite list_lookup_imap.
  destruct (l !! j) as [c|] eqn:Hj.
  - rewrite (dispatchCases_lookup l _ 0 j c Hj). cbn. unfold dispatchClause.
    destruct (Z.ltb_spec (0 + Z.of_nat j) (Z.of_nat (length l) - 1));
      destruct (Nat.ltb_spec (j + 1) (length l)); try lia; done.
  - cbn. apply lookup_ge_None. rewrite dispatchCases_length.
    by apply lookup_ge_None.
Qed.


Local Abbreviation compileStatement := (compileStatement unnestBlocks spans).
Local Abbreviation dispatchClause := (dispatchClause unnestBlocks spans).

(** The dispatch block for a statement list: one switch, without tag,
    holding one clause per statement. *)
Lemma compileDispatch_clauses (l : list stmt) :
  compileDispatch unnestBlocks spans l
  = SwitchStmt fresh None None (BlockStmt fresh (imap (dispatchClause (length l)) l)).
Proof.
  unfold compileDispatch, compileDispatchWith. by rewrite dispatchCases_clauses.
Qed.

(** C2 (statement-list rewriting).  A block or a case clause whose body
    has no statement is left as it is; with one statement the node is
    kept and the statement is replaced by its compiled form; with two or
    more statements the body becomes a single switch that has, for the
    statement at each index, a clause guarded by [_f.IP < end] for that
    statement's span end, whose body is the compiled statement followed,
    except in the last clause, by [_f.IP = end] and [fallthrough]
    ([dispatchClause]).  The clauses of a switch statement are compiled
    by the same rule. *)
Theorem statement_list_rewriting :
  (forall a, compileStatement (BlockStmt a []) = BlockStmt a [])
  /\ (forall a es, compileStatement (CaseClause a es []) = CaseClause a es [])
  /\ (forall a c, compileStatement (BlockStmt a [c]) = BlockStmt a [compiled c])
  /\ (forall a es c,
        compileStatement (CaseClause a es [c]) = CaseClause a es [compiled c])
  /\ (forall a c1 c2 rest,
        let l := c1 :: c2 :: rest in
        compileStatement (BlockStmt a l)
        = BlockStmt fresh
            [SwitchStmt fresh None None
               (BlockStmt fresh (imap (dispatchClause (length l)) l))])
  /\ (forall a es c1 c2 rest,
        let l := c1 :: c2 :: rest in
        compileStatement (CaseClause a es l)
        = CaseClause a es
            [SwitchStmt fresh None None
               (BlockStmt fresh (imap (dispatchClause (length l)) l))])
  /\ (forall a init tag b l,
        compileStatement (SwitchStmt a init tag (BlockStmt b l))
        = SwitchStmt a init tag (BlockStmt b (map compileStatement l)))
  /\ (forall n i child,
        dispatchClause n i child
        = CaseClause fresh
            [BinaryExpr (SelectorExpr (Ident (NewIdent "_f")) (NewIdent "IP")) LSS
               (BasicLit INT (Itoa (end_ (span_at spans child))))]
            (compiled child ::
             if (i + 1 <? n)%nat
             then [AssignStmt fresh
                     [SelectorExpr (Ident (NewIdent "_f")) (NewIdent "IP")] ASSIGN
                     [BasicLit INT (Itoa (end_ (span_at spans child)))];
                   BranchStmt fresh FALLTHROUGH None]
             else [])).
Proof.
  repeat split; try done.
  - intros a c1 c2 rest l.
    change (compileStatement (BlockStmt a l))
      with (BlockStmt fresh [compileDispatch unnestBlocks spans l]).
    by rewrite compileDispatch_clauses.
  - intros a es c1 c2 rest l.
    change (compileStatement (CaseClause a es l))
      with (CaseClause a es [compileDispatch unnestBlocks spans l]).
    by rewrite compileDispatch_clauses.
  - intros n i child. unfold dispatchClause. by destruct (i + 1 <? n)%nat.
Qed.

(** A compiled block is a block. *)
Lemma compileStatement_block (b : addr) (l : list stmt) :
  exists b' l', compileStatement (BlockStmt b l) = BlockStmt b' l'.
Proof. destruct l as [|c1 [|c2 rest]]; cbn; eauto. Qed.

Lemma run_tail_reset n m :
  run_tail [setIP n] m = Some (MkMachine n (ran m), false).
Proof. cbn. by rewrite Atoi_Itoa. Qed.

(** Entered with the instruction pointer below the first span end, a
    dispatch block runs the whole list. *)
Lemma dispatch_from_start (c : stmt) (l : list stmt) (m : machine) :
  IP m < end_ (span_at spans c) ->
  exists m',
    exec_dispatch effect (compileDispatch unnestBlocks spans (c :: l)) m = Some m'
    /\ ran m' = ran m ++ map compiled (c :: l).
Proof.
  intros Hlt. unfold compileDispatch, compileDispatchWith, exec_dispatch.
  rewrite select_enter by done.
  apply run_from_cases; [done|lia].
Qed.


End DispatchProperties.


(** ** Inspections that collect an error *)

Lemma tree_ind' (P : tree -> Prop) :
  (forall n children, Forall P children -> P (Tree n children)) ->
  forall t, P t.
Proof.
  intros H. fix IH 1. intros [n children]. apply H.
  induction children as [|c rest IHrest]; constructor; [apply IH | exact IHrest].
Qed.

Lemma nodes_Tree n children : nodes (Tree n children) = n :: concat (map nodes children).
Proof. reflexivity. Qed.

Section ErrorInspection.

(** A closure that assigns [check n] to the captured error at a node [n]
    and descends at least as long as there is no error; [inj] embeds the
    captured error in the state of the inspection. *)
Context {S : Type}.
Variable v : option node -> S -> S * bool.
Variable inj : option string -> S.
Variable check : node -> option string.
Variable admissible : node -> Prop.

Hypothesis inj_inj : forall e1 e2, inj e1 = inj e2 -> e1 = e2.
Hypothesis v_node : forall n err, admissible n ->
  exists d, v (Some n) (inj err) = (inj (assignErr (check n) err), d)
            /\ (assignErr (check n) err = None -> d = true).
Hypothesis v_nil : forall err, fst (v None (inj err)) = inj err.

Definition inspected (t : tree) : Prop :=
  forall err, Forall admissible (nodes t) ->
    exists err',
      Inspect v t (inj err) = inj err'
      /\ (err' = None <-> err = None /\ Forall (fun n => check n = None) (nodes t))
      /\ (forall e, err' = Some e ->
            err = Some e \/ exists n, n ∈ nodes t /\ check n = Some e).

Lemma inspected_children (children : list tree) :
  Forall inspected children ->
  forall err, Forall admissible (concat (map nodes children)) ->
    exists err',
      fold_left (fun acc child => Inspect v child acc) children (inj err) = inj err'
      /\ (err' = None <->
          err = None /\ Forall (fun n => check n = None) (concat (map nodes children)))
      /\ (forall e, err' = Some e ->
            err = Some e \/ exists n, n ∈ concat (map nodes children) /\ check n = Some e).
Proof.
  induction 1 as [|c rest Hc Hrest IH]; intros err Hadm.
  - exists err. cbn. split; [done|]. split; [|by left].
    split; [intros ->; split; [done|constructor] | tauto].
  - cbn [map concat] in Hadm. apply Forall_app in Hadm as [Hadm1 Hadm2].
    destruct (Hc err Hadm1) as (e1 & Hrun1 & Hnone1 & Hsome1).
    destruct (IH e1 Hadm2) as (e2 & Hrun2 & Hnone2 & Hsome2).
    exists e2. cbn [fold_left map concat]. rewrite Hrun1. split; [exact Hrun2|].
    split.
    + rewrite Hnone2, Hnone1, Forall_app. tauto.
    + intros e He. destruct (Hsome2 e He) as [->|(n & Hn & Hcheck)].
      * destruct (Hsome1 e eq_refl) as [->|(n & Hn & Hcheck)]; [by left|].
        right. exists n. split; [|done]. apply elem_of_app. by left.
      * right. exists n. split; [|done]. apply elem_of_app. by right.
Qed.

Lemma inspected_all (t : tree) : inspected t.
Proof.
  induction t as [n children IH] using tree_ind'. intros err Hadm.
  rewrite nodes_Tree in Hadm. apply Forall_cons in Hadm as [Hn Hadm].
  destruct (v_node n err Hn) as (d & Hv & Hd).
  cbn [Inspect]. rewrite Hv.
  destruct (assignErr (check n) err) as [e|] eqn:Herr.
  - (* an error is set at this node *)
    assert (check n = Some e \/ (check n = None /\ err = Some e)) as Hsrc.
    { unfold assignErr in Herr. destruct (check n); [left|right]; naive_solver. }
    destruct d.
    + destruct (inspected_children children IH (Some e) Hadm)
        as (e2 & Hrun & Hnone & Hsome).
      exists e2. rewrite Hrun, v_nil. split; [done|]. split.
      * split; [intros ->; naive_solver|].
        intros [-> Hall]. rewrite nodes_Tree in Hall.
        apply Forall_cons in Hall as [Hc _]. naive_solver.
      * intros e' He'. rewrite nodes_Tree.
        destruct (Hsome e' He') as [[= <-]|(n' & Hn' & Hc')].
        -- destruct Hsrc as [Hc|[_ ->]]; [|by left].
           right. exists n. split; [apply elem_of_cons; by left|done].
        -- right. exists n'. split; [apply elem_of_cons; by right|done].
    + exists (Some e). split; [done|]. split.
      * split; [done|]. intros [-> Hall]. rewrite nodes_Tree in Hall.
        apply Forall_cons in Hall as [Hc _]. naive_solver.
      * intros e' [= <-]. rewrite nodes_Tree.
        destruct Hsrc as [Hc|[_ ->]]; [|by left].
        right. exists n. split; [apply elem_of_cons; by left|done].
  - (* no error so far: the children are inspected *)
    assert (check n = None /\ err = None) as [Hc ->].
    { unfold assignErr in Herr. destruct (check n); naive_solver. }
    rewrite (Hd eq_refl).
    destruct (inspected_children children IH None Hadm) as (e2 & Hrun & Hnone & Hsome).
    exists e2. rewrite Hrun, v_nil. split; [done|]. split.
    + rewrite Hnone, nodes_Tree, Forall_cons. tauto.
    + intros e' He'. rewrite nodes_Tree.
      destruct (Hsome e' He') as [[=]|(n' & Hn' & Hc')].
      right. exists n'. split; [apply elem_of_cons; by right|done].
Qed.

End ErrorInspection.

(** ** The two validation passes *)

Lemma assignErr_None new old : assignErr new old = None <-> new = None /\ old = None.
Proof. destruct new, old; cbn; naive_solver. Qed.

(** [unsupported] accepts a function exactly when no node of it is
    assigned an error, and an error it returns is the error of one of the
    nodes. *)
Lemma unsupported_spec (decl : FuncDecl) (info : Info) :
  (unsupported decl info = None <->
   Forall (fun n => unsupportedNode info n = None) (nodes (walkFuncDecl decl)))
  /\ (forall e, unsupported decl info = Some e ->
        exists n, n ∈ nodes (walkFuncDecl decl) /\ unsupportedNode info n = Some e).
Proof.
  destruct (inspected_all (unsupportedVisit info) id (unsupportedNode info)
              (fun _ => True)) with (t := walkFuncDecl decl) (err := @None string)
    as (err' & Hrun & Hnone & Hsome).
  - intros n err _. eexists. split; [reflexivity|].
    intros H. apply bool_decide_eq_true. exact H.
  - done.
  - apply Forall_forall. done.
  - unfold unsupported. unfold id in Hrun. rewrite Hrun. split.
    + rewrite Hnone. tauto.
    + intros e He. destruct (Hsome e He) as [[=]|Hn]. exact Hn.
Qed.

Lemma assignsHaveLhs_admissible (decl : FuncDecl) (info : Info) :
  assignsHaveLhs decl = true ->
  Forall (fun n => gatingPanics info n = false) (nodes (walkFuncDecl decl)).
Proof.
  unfold assignsHaveLhs. rewrite forallb_forall, Forall_forall.
  intros H n Hn. apply list_elem_of_In in Hn. specialize (H n Hn).
  destruct n as [| s | | | | |]; try done.
  unfold gatingPanics. destruct s; try done; cbn in *; repeat case_match; congruence.
Qed.

(** The gating pass, on a function all of whose assignments have a left-hand
    side: it does not panic, it lets the function pass exactly when no
    node of it is assigned an error, and the error it ends with is the
    error of one of the nodes. *)
Lemma gating_spec (decl : FuncDecl) (info : Info) :
  assignsHaveLhs decl = true ->
  exists err,
    gating decl info = Running err
    /\ (err = None <->
        Forall (fun n => gatingError info n = None) (nodes (walkFuncDecl decl)))
    /\ (forall e, err = Some e ->
          exists n, n ∈ nodes (walkFuncDecl decl) /\ gatingError info n = Some e).
Proof.
  intros Hwf.
  destruct (inspected_all (gatingVisit info) Running (gatingError info)
              (fun n => gatingPanics info n = false)) with (t := walkFuncDecl decl)
              (err := @None string)
    as (err' & Hrun & Hnone & Hsome).
  - intros n err Hadm. unfold gatingVisit, gatingError, gatingPanics in *.
    destruct n as [| s | | | | |]; try (eexists; split; [reflexivity|done]).
    destruct (gatingStmt info s) as [new|]; [|done].
    eexists. split; [reflexivity|]. intros H. apply bool_decide_eq_true. exact H.
  - done.
  - by apply assignsHaveLhs_admissible.
  - exists err'. split; [exact Hrun|]. split.
    + rewrite Hnone. tauto.
    + intros e He. destruct (Hsome e He) as [[=]|Hn]. exact Hn.
Qed.

Lemma spec_unconditionallyRejected_gating (info : Info) (s : stmt) (name : string) :
  spec_unconditionallyRejected s = Some name ->
  gatingError info (NStmt s) = Some ("not implemented: " ++ name)%string.
Proof.
  unfold gatingError.
  destruct s; cbn; intros H; try done; repeat case_match; simplify_eq; try done.
  all: match goal with
       | Hlen : (length ?r =? 1)%nat = false |- _ =>
           destruct r as [|? [|? ?]]; cbn in *; by simplify_eq
       end.
Qed.

Lemma bareBreakOrContinue_gating (info : Info) (s : stmt) :
  bareBreakOrContinue s = true ->
  gatingError info (NStmt s) = Some "not implemented: break"
  \/ gatingError info (NStmt s) = Some "not implemented: continue".
Proof. destruct s; try done. cbn. repeat case_match; try done; auto. Qed.

(** A node to which the gating pass assigns an error makes the gating pass end with an
    error. *)
Lemma gating_rejects (decl : FuncDecl) (info : Info) (n : node) (e : string) :
  assignsHaveLhs decl = true ->
  n ∈ nodes (walkFuncDecl decl) -> gatingError info n = Some e ->
  exists e', gating decl info = Running (Some e')
             /\ exists n', n' ∈ nodes (walkFuncDecl decl) /\ gatingError info n' = Some e'.
Proof.
  intros Hwf Hn He.
  destruct (gating_spec decl info Hwf) as (err & Hgating & Hnone & Hsome).
  destruct err as [e'|].
  - exists e'. split; [done|]. by apply Hsome.
  - destruct Hnone as [Hall _]. specialize (Hall eq_refl).
    rewrite Forall_forall in Hall. rewrite (Hall n Hn) in He. done.
Qed.

Lemma unsupported_rejects (decl : FuncDecl) (info : Info) (n : node) (e : string) :
  n ∈ nodes (walkFuncDecl decl) -> unsupportedNode info n = Some e ->
  exists e', unsupported decl info = Some e'.
Proof.
  intros Hn He. destruct (unsupported_spec decl info) as [Hnone _].
  destruct (unsupported decl info) as [e'|]; [eauto|].
  destruct Hnone as [Hall _]. specialize (Hall eq_refl).
  rewrite Forall_forall in Hall. rewrite (Hall n Hn) in He. done.
Qed.

(** C7, as amended (break and continue in the two passes).  For a function
    that contains a bare [break] or [continue], the gating pass of
    [compilePackage] ends with a "not implemented" error and assigns the
    error of [break] or [continue] at that statement; [unsupported]
    assigns no error at that statement, and it accepts the function
    exactly when it assigns no error at any node of it.  So exactly one of
    the two passes rejects the function when nothing else in it is
    rejected by [unsupported], and both reject it otherwise. *)
Theorem break_continue_in_the_two_passes (decl : FuncDecl) (info : Info) (s : stmt) :
  assignsHaveLhs decl = true ->
  hasStmt decl s -> bareBreakOrContinue s = true ->
  (exists e, gating decl info = Running (Some e))
  /\ (gatingError info (NStmt s) = Some "not implemented: break"
      \/ gatingError info (NStmt s) = Some "not implemented: continue")
  /\ unsupportedNode info (NStmt s) = None
  /\ (unsupported decl info = None <->
      Forall (fun n => unsupportedNode info n = None) (nodes (walkFuncDecl decl))).
Proof.
  intros Hwf Hs Hbare.
  pose proof (bareBreakOrContinue_gating info s Hbare) as Hgating.
  split; [|split; [exact Hgating|split]].
  - destruct Hgating as [Hg|Hg];
      destruct (gating_rejects decl info (NStmt s) _ Hwf Hs Hg) as (e' & He' & _); eauto.
  - destruct s; try done. cbn in *. by repeat case_match.
  - apply unsupported_spec.
Qed.

(** The two passes both reject a function with a [go] statement and a
    [break]: not exactly one of them does. *)
Lemma break_rejected_by_both_passes :
  hasStmt Samples.goAndBreak Samples.breakStmt
  /\ bareBreakOrContinue Samples.breakStmt = true
  /\ gating Samples.goAndBreak Samples.info = Running (Some "not implemented: go")
  /\ unsupported Samples.goAndBreak Samples.info = Some "not implemented: go".
Proof.
  split; [|split; [reflexivity|split; vm_compute; reflexivity]].
  apply list_elem_of_In. cbn. tauto.
Qed.

(** ** countFunctionCalls *)

(** The inspection of [countFunctionCalls] visits every node and adds one
    for every counted call. *)
Lemma countVisit_spec (info : Info) (n : node) (count : Z) :
  countVisit info (Some n) count
  = (count + (if countedCall info n then 1 else 0), true).
Proof.
  unfold countVisit, countedCall.
  destruct n as [e| | | | | |]; try (by rewrite Z.add_0_r).
  destruct e; try (by rewrite Z.add_0_r).
  destruct (skipCall info e); cbn; [by rewrite Z.add_0_r|done].
Qed.

Lemma count_inspect (info : Info) (t : tree) : forall count,
  Inspect (countVisit info) t count
  = count + Z.of_nat (length (filter (fun n => countedCall info n = true) (nodes t))).
Proof.
  induction t as [n children IH] using tree_ind'. intros count.
  cbn [Inspect]. rewrite countVisit_spec. cbn [countVisit fst].
  rewrite nodes_Tree, filter_cons.
  assert (forall c0,
    fold_left (fun acc child => Inspect (countVisit info) child acc) children c0
    = c0 + Z.of_nat (length (filter (fun n => countedCall info n = true)
                               (concat (map nodes children))))) as Hfold.
  { induction IH as [|c rest Hc Hrest IHrest]; intros c0; cbn [fold_left map concat].
    - cbn. lia.
    - rewrite Hc, IHrest, filter_app, length_app. lia. }
  rewrite Hfold.
  destruct (countedCall info n); case_decide; try done; cbn [length]; lia.
Qed.

Lemma countFunctionCalls_spec (e : expr) (info : Info) :
  countFunctionCalls e info
  = Z.of_nat (length (filter (fun n => countedCall info n = true) (nodes (walkExpr e)))).
Proof. unfold countFunctionCalls. by rewrite count_inspect. Qed.

(** The calls left out of the count, spelled out. *)
Lemma countedCall_spec (info : Info) (f : expr) (args : list expr) :
  countedCall info (NExpr (CallExpr f args)) = false <->
  (exists id, f = Ident id
     /\ (ObjectOf info id = Universe_Lookup (Name id)
         \/ exists name i, ObjectOf info id = Some (MkObject KTypeName name i)))
  \/ (exists x sel name i, f = SelectorExpr (Ident x) sel
        /\ ObjectOf info x = Some (MkObject (KPkgName "unsafe") name i)).
Proof.
  cbn. rewrite negb_false_iff. split.
  - destruct f as [  | id |  |  |  |  |  | x sel |  |  |  |  |  |  |  |  ]; cbn; try done.
    + intros H. left. exists id. split; [done|].
      case_bool_decide; [by left|]. right.
      destruct (ObjectOf info id) as [[[] name i]|] eqn:Hobj; try done. eauto.
    + destruct x as [  | x |  |  |  |  |  |  |  |  |  |  |  |  |  |  ]; try done.
      destruct (ObjectOf info x) as [[[] name i]|] eqn:Hobj; try done.
      intros H. apply bool_decide_eq_true in H as ->. right.
      exists x, sel, name, i. done.
  - intros [(id & -> & [H|(name & i & H)])|(x & sel & name & i & -> & H)]; cbn.
    + rewrite H. case_bool_decide; done.
    + rewrite H. by case_bool_decide.
    + rewrite H. by apply bool_decide_eq_true.
Qed.

(** C8, as amended (expressions with several calls, function literals).
    [unsupported] rejects a function that contains an expression with more
    than one counted call, or a function literal; at such an expression it
    assigns the error "multiple function calls in an expression", at a
    function literal with at most one counted call the error "func
    literals".  The count is the number of the call expressions in the
    expression whose callee is neither an identifier that denotes the
    object of its name in the universe scope or a type name, nor a
    selector on the package [unsafe]. *)
Theorem unsupported_calls_and_literals (decl : FuncDecl) (info : Info) (e : expr) :
  hasExpr decl e ->
  1 < countFunctionCalls e info \/ (exists t body, e = FuncLit t body) ->
  (exists err, unsupported decl info = Some err)
  /\ (1 < countFunctionCalls e info ->
      unsupportedNode info (NExpr e)
      = Some "not implemented: multiple function calls in an expression")
  /\ (forall t body, e = FuncLit t body -> countFunctionCalls e info <= 1 ->
      unsupportedNode info (NExpr e) = Some "not implemented: func literals")
  /\ countFunctionCalls e info
     = Z.of_nat (length (filter (fun n => countedCall info n = true) (nodes (walkExpr e))))
  /\ (forall f args,
        countedCall info (NExpr (CallExpr f args)) = false <->
        (exists id, f = Ident id
           /\ (ObjectOf info id = Universe_Lookup (Name id)
               \/ exists name i, ObjectOf info id = Some (MkObject KTypeName name i)))
        \/ (exists x sel name i, f = SelectorExpr (Ident x) sel
              /\ ObjectOf info x = Some (MkObject (KPkgName "unsafe") name i))).
Proof.
  intros He Hwhy.
  assert (1 < countFunctionCalls e info ->
          unsupportedNode info (NExpr e)
          = Some "not implemented: multiple function calls in an expression") as Hmany.
  { intros H. cbn. unfold unsupportedExpr.
    destruct (Z.ltb_spec 1 (countFunctionCalls e info)); [done|lia]. }
  assert (forall t body, e = FuncLit t body -> countFunctionCalls e info <= 1 ->
          unsupportedNode info (NExpr e) = Some "not implemented: func literals") as Hlit.
  { intros t body -> H. cbn. unfold unsupportedExpr.
    destruct (Z.ltb_spec 1 (countFunctionCalls (FuncLit t body) info)); [lia|done]. }
  split; [|split; [exact Hmany|split; [exact Hlit|split]]].
  - destruct (Z.ltb_spec 1 (countFunctionCalls e info)) as [Hlt|Hle].
    + eapply unsupported_rejects; [exact He|by apply Hmany].
    + destruct Hwhy as [?|(t & body & ->)]; [lia|].
      eapply unsupported_rejects; [exact He|by eapply Hlit].
  - apply countFunctionCalls_spec.
  - apply countedCall_spec.
Qed.

(** An expression with two calls, neither a built-in function of the
    universe scope nor a type conversion, in a function that
    [unsupported] accepts: the call of [unsafe.Sizeof] is not counted. *)
Lemma unsafe_call_not_counted :
  hasExpr Samples.sizeofFn Samples.sizeofPlusCall
  /\ spec_countFunctionCalls Samples.sizeofPlusCall Samples.info = 2
  /\ countFunctionCalls Samples.sizeofPlusCall Samples.info = 1
  /\ unsupported Samples.sizeofFn Samples.info = None.
Proof.
  split; [|split; [|split]]; try (vm_compute; reflexivity).
  apply list_elem_of_In. cbn. tauto.
Qed.

(** ** compilePackage and the rejected constructs *)

Section PackageGating.

Variable typeExpr : option gotype -> expr.
Variable desugar : stmt -> Info -> stmt.
Variable trackSpans : stmt -> gmap addr span.
Variable unnestBlocks : stmt -> stmt.
Variable filepath_Dir : string -> string.
Variable filepath_Join : string -> string -> string.
Variable strconv_Quote : string -> string.
Variable os : OS.

Local Abbreviation compileDecls :=
  (compileDecls typeExpr desugar trackSpans unnestBlocks).
Local Abbreviation compilePackage :=
  (compilePackage typeExpr desugar trackSpans unnestBlocks filepath_Dir filepath_Join strconv_Quote os).

(** The loop over the declarations ends early only with an error or a
    panic. *)
Lemma compileDecls_early (p : Package) (m : gmap addr Signature) (decls : list Decl) :
  forall gen out, compileDecls p m decls gen = inl out -> out <> Returns None.
Proof.
  induction decls as [|d rest IH]; intros gen out; cbn [def_compileDecls]; [done|].
  destruct d as [decl|]; [|apply IH].
  destruct (m !! fd_addr decl); [|apply IH].
  destruct (gating decl (p_TypesInfo p)) as [[e|]|]; try (intros [= <-]; done).
  destruct (def_compileFunction _ _ _ _ _ _ _); [apply IH|].
  intros [= <-]; done.
Qed.

(** A colored function that the gating pass rejects stops the loop. *)
Lemma compileDecls_rejected (p : Package) (m : gmap addr Signature)
    (decl : FuncDecl) (color : Signature) (e : string) (decls : list Decl) :
  m !! fd_addr decl = Some color ->
  gating decl (p_TypesInfo p) = Running (Some e) ->
  FuncDeclD decl ∈ decls ->
  forall gen, exists out, compileDecls p m decls gen = inl out /\ out <> Returns None.
Proof.
  intros Hcolor Hgating. induction decls as [|d rest IH]; intros Hin gen.
  - by apply elem_of_nil in Hin.
  - apply elem_of_cons in Hin as [<-|Hin].
    + cbn [def_compileDecls]. rewrite Hcolor, Hgating. eexists. split; done.
    + cbn [def_compileDecls].
      destruct d as [decl'|]; [|by apply IH].
      destruct (m !! fd_addr decl'); [|by apply IH].
      destruct (gating decl' (p_TypesInfo p)) as [[?|]|];
        try (eexists; split; done).
      destruct (def_compileFunction _ _ _ _ _ _ _) as [fn'|];
        [by apply IH|eexists; split; done].
Qed.

(** When no colored function comes before it, its error is returned. *)
Lemma compileDecls_first (p : Package) (m : gmap addr Signature)
    (decl : FuncDecl) (color : Signature) (e : string) (pre post : list Decl) :
  m !! fd_addr decl = Some color ->
  gating decl (p_TypesInfo p) = Running (Some e) ->
  Forall (fun d => match d with
                   | FuncDeclD d' => m !! fd_addr d' = None
                   | GenDeclD _ _ => True
                   end) pre ->
  forall gen, compileDecls p m (pre ++ FuncDeclD decl :: post) gen = inl (Returns (Some e)).
Proof.
  intros Hcolor Hgating Hpre. induction Hpre as [|d pre Hd Hpre IH]; intros gen; cbn [def_compileDecls app].
  - by rewrite Hcolor, Hgating.
  - destruct d as [d'|]; [rewrite Hd|]; apply IH.
Qed.

(** C9, as amended (rejected constructs).  Take a package whose colored
    functions are all function declarations, and in it a colored
    function, all of whose assignments have a left-hand side, that
    contains a construct of the list of constructs rejected without
    condition.  The gating pass assigns the error "not implemented: <name>" of
    that construct at the statement and ends with the "not implemented"
    error of a statement of the function; that error names the construct
    when no statement of the function is assigned another error.
    [compilePackage] does not reach the creation of the output file: it
    has no effect on the file system and does not return [nil]; and when
    no colored function comes before this one in the files, it returns
    the error the gating pass ended with. *)
Theorem rejected_construct_no_output (c : compiler) (p : Package)
    (colors : list (ssaFunction * Signature)) (colorsByDecl : gmap addr Signature)
    (decl : FuncDecl) (color : Signature) (s : stmt) (name : string) :
  colorsByDeclOf colors ∅ = inr colorsByDecl ->
  FuncDeclD decl ∈ concat (map f_Decls (p_Syntax p)) ->
  colorsByDecl !! fd_addr decl = Some color ->
  assignsHaveLhs decl = true ->
  hasStmt decl s -> spec_unconditionallyRejected s = Some name ->
  gatingError (p_TypesInfo p) (NStmt s) = Some ("not implemented: " ++ name)%string
  /\ (exists e,
        gating decl (p_TypesInfo p) = Running (Some e)
        /\ (exists n, n ∈ nodes (walkFuncDecl decl) /\ gatingError (p_TypesInfo p) n = Some e)
        /\ ((forall n e', n ∈ nodes (walkFuncDecl decl) ->
               gatingError (p_TypesInfo p) n = Some e' ->
               e' = ("not implemented: " ++ name)%string) ->
            e = ("not implemented: " ++ name)%string)
        /\ (forall pre post,
              concat (map f_Decls (p_Syntax p)) = pre ++ FuncDeclD decl :: post ->
              Forall (fun d => match d with
                               | FuncDeclD d' => colorsByDecl !! fd_addr d' = None
                               | GenDeclD _ _ => True
                               end) pre ->
              compilePackage c p colors = ([], Returns (Some e))))
  /\ fst (compilePackage c p colors) = []
  /\ snd (compilePackage c p colors) <> Returns None.
Proof.
  intros Hcolors Hin Hcolor Hwf Hs Hrej.
  pose proof (spec_unconditionallyRejected_gating (p_TypesInfo p) s name Hrej) as Hat.
  destruct (gating_rejects decl (p_TypesInfo p) (NStmt s) _ Hwf Hs Hat)
    as (e & Hgating & n & Hn & Hne).
  split; [exact Hat|]. split; [|].
  - exists e. split; [exact Hgating|]. split; [eauto|]. split.
    + intros Honly. by apply (Honly n e).
    + intros pre post Hsplit Hpre. unfold def_compilePackage.
      rewrite Hcolors, Hsplit.
      by rewrite (compileDecls_first p colorsByDecl decl color e pre post Hcolor Hgating Hpre).
  - unfold def_compilePackage. rewrite Hcolors.
    destruct (compileDecls_rejected p colorsByDecl decl color e _ Hcolor Hgating Hin
                [GenDeclD IMPORT [ImportSpec (BasicLit STRING (Quote coroutinePackage))]])
      as (out & Hrun & Hout).
    rewrite Hrun. done.
Qed.

End PackageGating.

(** A function with a [defer] and a [go] statement: the error that
    [compilePackage] returns names [go], not [defer]. *)
Lemma defer_not_named :
  hasStmt Samples.deferAndGo Samples.deferF
  /\ spec_unconditionallyRejected Samples.deferF = Some "defer"
  /\ compilePackage Samples.typeExpr Samples.desugar Samples.trackSpans
       Samples.unnestBlocks Samples.filepath_Dir Samples.filepath_Join Samples.strconv_Quote Samples.os
       Samples.theCompiler (Samples.packageOf Samples.deferAndGo) Samples.colors
     = ([], Returns (Some "not implemented: go")).
Proof.
  split; [|split; [reflexivity|vm_compute; reflexivity]].
  apply list_elem_of_In. cbn. tauto.
Qed.

(** ** The tree after an update *)

(** The walk and the update, unfolded once. *)
Lemma walkExpr_eq (e : expr) :
  walkExpr e =
  Tree (NExpr e)
    match e with
    | BadExpr | Ident _ | BasicLit _ _ => []
    | FuncTypeExpr ps rs =>
        match ps with
        | Some l => [Tree (NFieldList l) (map walkField l)]
        | None => []
        end ++
        match rs with
        | Some l => [Tree (NFieldList l) (map walkField l)]
        | None => []
        end
    | FuncLit t body => [walkExpr t; walkStmt body]
    | CompositeLit t elts => walkOpt walkExpr t ++ map walkExpr elts
    | ParenExpr x => [walkExpr x]
    | SelectorExpr x sel => [walkExpr x; walkIdent sel]
    | IndexExpr x i => [walkExpr x; walkExpr i]
    | IndexListExpr x is_ => walkExpr x :: map walkExpr is_
    | TypeAssertExpr x t => walkExpr x :: walkOpt walkExpr t
    | CallExpr f args => walkExpr f :: map walkExpr args
    | StarExpr x => [walkExpr x]
    | UnaryExpr _ x => [walkExpr x]
    | BinaryExpr x _ y => [walkExpr x; walkExpr y]
    | ArrayType len elt => walkOpt walkExpr len ++ [walkExpr elt]
    end.
Proof. destruct e; reflexivity. Qed.

Lemma walkStmt_eq (s : stmt) :
  walkStmt s =
  Tree (NStmt s)
    match s with
    | BadStmt _ | EmptyStmt _ => []
    | DeclStmt _ tok specs => [Tree (NGenDecl tok specs) (map walkSpec specs)]
    | LabeledStmt _ label st => [walkIdent label; walkStmt st]
    | ExprStmt _ x => [walkExpr x]
    | SendStmt _ ch v => [walkExpr ch; walkExpr v]
    | IncDecStmt _ x _ => [walkExpr x]
    | AssignStmt _ lhs _ rhs => map walkExpr lhs ++ map walkExpr rhs
    | GoStmt _ call => [walkExpr call]
    | DeferStmt _ call => [walkExpr call]
    | ReturnStmt _ results => map walkExpr results
    | BranchStmt _ _ label => walkOpt walkIdent label
    | BlockStmt _ l => map walkStmt l
    | IfStmt _ init cond body els =>
        walkOpt walkStmt init ++ [walkExpr cond; walkStmt body] ++ walkOpt walkStmt els
    | CaseClause _ es body => map walkExpr es ++ map walkStmt body
    | SwitchStmt _ init tag body =>
        walkOpt walkStmt init ++ walkOpt walkExpr tag ++ [walkStmt body]
    | TypeSwitchStmt _ init assign body =>
        walkOpt walkStmt init ++ [walkStmt assign; walkStmt body]
    | CommClause _ comm body => walkOpt walkStmt comm ++ map walkStmt body
    | SelectStmt _ body => [walkStmt body]
    | ForStmt _ init cond post body =>
        walkOpt walkStmt init ++ walkOpt walkExpr cond ++ walkOpt walkStmt post
        ++ [walkStmt body]
    | RangeStmt _ key value _ x body =>
        walkOpt walkExpr key ++ walkOpt walkExpr value ++ [walkExpr x; walkStmt body]
    end.
Proof. destruct s; reflexivity. Qed.

Lemma walkSpec_eq (sp : spec) :
  walkSpec sp =
  Tree (NSpec sp)
    match sp with
    | ValueSpec names t values =>
        map walkIdent names ++ walkOpt walkExpr t ++ map walkExpr values
    end.
Proof. destruct sp; reflexivity. Qed.

Lemma walkField_eq (f : field) :
  walkField f =
  Tree (NField f)
    match f with
    | Field names t => map walkIdent names ++ [walkExpr t]
    end.
Proof. destruct f; reflexivity. Qed.


Lemma nodes_mapTree (f : node -> node) (t : tree) :
  nodes (mapTree f t) = map f (nodes t).
Proof.
  induction t as [n children IH] using tree_ind'. cbn [mapTree nodes map]. f_equal.
  induction IH as [|c rest Hc Hrest IHrest]; cbn [map concat]; [done|].
  by rewrite map_app, Hc, IHrest.
Qed.

Section UpdateProperties.

Variable onTok : token -> token.
Variable onIdent : ident -> ident.

Local Abbreviation updateExpr := (updateExpr onTok onIdent).
Local Abbreviation updateStmt := (updateStmt onTok onIdent).
Local Abbreviation updateSpec := (updateSpec onTok onIdent).
Local Abbreviation updateField := (updateField onTok onIdent).
Local Abbreviation updateNode := (updateNode onTok onIdent).

Lemma walk_update_list {A} (walk : A -> tree) (update : A -> A) (l : list A) :
  Forall (fun x => walk (update x) = mapTree updateNode (walk x)) l ->
  map walk (map update l) = map (mapTree updateNode) (map walk l).
Proof.
  intros H. rewrite !map_map. induction H as [|x l Hx Hl IH]; cbn; [done|].
  by rewrite Hx, IH.
Qed.

Lemma walk_update_opt {A} (walk : A -> tree) (update : A -> A) (o : option A) :
  from_option (fun x => walk (update x) = mapTree updateNode (walk x)) True o ->
  walkOpt walk (option_map update o) = map (mapTree updateNode) (walkOpt walk o).
Proof. destruct o as [x|]; cbn; [intros ->|]; done. Qed.

Lemma walk_update_idents (names : list ident) :
  map walkIdent (map onIdent names) = map (mapTree updateNode) (map walkIdent names).
Proof. rewrite !map_map. by apply map_ext. Qed.

Lemma walk_update_fields (o : option (list field)) :
  from_option (Forall (fun f => walkField (updateField f)
                                = mapTree updateNode (walkField f))) True o ->
  match updateFields updateField o with
  | Some l => [Tree (NFieldList l) (map walkField l)]
  | None => []
  end
  = map (mapTree updateNode)
      match o with
      | Some l => [Tree (NFieldList l) (map walkField l)]
      | None => []
      end.
Proof.
  destruct o as [l|]; cbn; [|done]. intros H.
  by rewrite (walk_update_list walkField updateField l H).
Qed.

Lemma updateExpr_eq (e : expr) :
  updateExpr e =
  match e with
  | BadExpr | BasicLit _ _ => e
  | Ident id => Ident (onIdent id)
  | FuncTypeExpr ps rs =>
      FuncTypeExpr (updateFields updateField ps) (updateFields updateField rs)
  | FuncLit t body => FuncLit (updateExpr t) (updateStmt body)
  | CompositeLit t elts => CompositeLit (option_map updateExpr t) (map updateExpr elts)
  | ParenExpr x => ParenExpr (updateExpr x)
  | SelectorExpr x sel => SelectorExpr (updateExpr x) (onIdent sel)
  | IndexExpr x i => IndexExpr (updateExpr x) (updateExpr i)
  | IndexListExpr x is_ => IndexListExpr (updateExpr x) (map updateExpr is_)
  | TypeAssertExpr x t => TypeAssertExpr (updateExpr x) (option_map updateExpr t)
  | CallExpr f args => CallExpr (updateExpr f) (map updateExpr args)
  | StarExpr x => StarExpr (updateExpr x)
  | UnaryExpr op x => UnaryExpr op (updateExpr x)
  | BinaryExpr x op y => BinaryExpr (updateExpr x) op (updateExpr y)
  | ArrayType len elt => ArrayType (option_map updateExpr len) (updateExpr elt)
  end.
Proof. destruct e; reflexivity. Qed.

Lemma updateStmt_eq (s : stmt) :
  updateStmt s =
  match s with
  | BadStmt _ | EmptyStmt _ => s
  | DeclStmt a tok specs => DeclStmt a tok (map updateSpec specs)
  | LabeledStmt a label st => LabeledStmt a (onIdent label) (updateStmt st)
  | ExprStmt a x => ExprStmt a (updateExpr x)
  | SendStmt a ch v => SendStmt a (updateExpr ch) (updateExpr v)
  | IncDecStmt a x tok => IncDecStmt a (updateExpr x) tok
  | AssignStmt a lhs tok rhs =>
      AssignStmt a (map updateExpr lhs) (onTok tok) (map updateExpr rhs)
  | GoStmt a call => GoStmt a (updateExpr call)
  | DeferStmt a call => DeferStmt a (updateExpr call)
  | ReturnStmt a results => ReturnStmt a (map updateExpr results)
  | BranchStmt a tok label => BranchStmt a tok (option_map onIdent label)
  | BlockStmt a l => BlockStmt a (map updateStmt l)
  | IfStmt a init cond body els =>
      IfStmt a (option_map updateStmt init) (updateExpr cond) (updateStmt body)
        (option_map updateStmt els)
  | CaseClause a es body => CaseClause a (map updateExpr es) (map updateStmt body)
  | SwitchStmt a init tag body =>
      SwitchStmt a (option_map updateStmt init) (option_map updateExpr tag)
        (updateStmt body)
  | TypeSwitchStmt a init assign body =>
      TypeSwitchStmt a (option_map updateStmt init) (updateStmt assign) (updateStmt body)
  | CommClause a comm body =>
      CommClause a (option_map updateStmt comm) (map updateStmt body)
  | SelectStmt a body => SelectStmt a (updateStmt body)
  | ForStmt a init cond post body =>
      ForStmt a (option_map updateStmt init) (option_map updateExpr cond)
        (option_map updateStmt post) (updateStmt body)
  | RangeStmt a key value tok x body =>
      RangeStmt a (option_map updateExpr key) (option_map updateExpr value) tok
        (updateExpr x) (updateStmt body)
  end.
Proof. destruct s; reflexivity. Qed.

Lemma updateSpec_eq (sp : spec) :
  updateSpec sp =
  match sp with
  | ValueSpec names t values =>
      ValueSpec (map onIdent names) (option_map updateExpr t) (map updateExpr values)
  end.
Proof. destruct sp; reflexivity. Qed.

Lemma updateField_eq (f : field) :
  updateField f =
  match f with
  | Field names t => Field (map onIdent names) (updateExpr t)
  end.
Proof. destruct f; reflexivity. Qed.

Lemma walk_update :
  (forall e, walkExpr (updateExpr e) = mapTree updateNode (walkExpr e))
  /\ (forall s, walkStmt (updateStmt s) = mapTree updateNode (walkStmt s)).
Proof.
  apply ast_induction with
    (Pp := fun sp => walkSpec (updateSpec sp) = mapTree updateNode (walkSpec sp))
    (Pf := fun f => walkField (updateField f) = mapTree updateNode (walkField f));
    intros;
    match goal with
    | |- _ (_ ?x) = mapTree _ (_ ?x) =>
        first [rewrite (walkExpr_eq x) | rewrite (walkStmt_eq x)
              | rewrite (walkSpec_eq x) | rewrite (walkField_eq x)];
        cbv beta match; cbn [mapTree def_updateNode];
        first [rewrite (updateExpr_eq x) | rewrite (updateStmt_eq x)
              | rewrite (updateSpec_eq x) | rewrite (updateField_eq x)];
        cbv beta match
    end;
    match goal with
    | |- _ ?y = _ =>
        first [rewrite (walkExpr_eq y) | rewrite (walkStmt_eq y)
              | rewrite (walkSpec_eq y) | rewrite (walkField_eq y)];
        cbv beta match
    end;
    f_equal;
    rewrite ?map_app; cbn [map];
    repeat match goal with
      | H : Forall _ ?l |- context [map _ (map _ ?l)] =>
          rewrite (walk_update_list _ _ l H); clear H
      | H : from_option (Forall _) True ?o |- _ =>
          rewrite (walk_update_fields o H); clear H
      | H : from_option _ True ?o |- context [walkOpt _ (option_map _ ?o)] =>
          rewrite (walk_update_opt _ _ o H); clear H
      | H : _ = mapTree _ _ |- _ => rewrite H; clear H
      end;
    rewrite ?walk_update_idents; try done.
  match goal with
  | |- walkOpt walkIdent (option_map _ ?o) = _ => by destruct o
  end.
Qed.

End UpdateProperties.

(** ** The scan of the variables *)

(** An inspection whose closure always answers [true] runs the closure
    over the nodes in the order of the walk. *)
Lemma Inspect_all {S : Type} (v : option node -> S -> S * bool) (t : tree) :
  (forall n s, snd (v (Some n) s) = true) ->
  (forall s, fst (v None s) = s) ->
  forall s, Inspect v t s = fold_left (fun s n => fst (v (Some n) s)) (nodes t) s.
Proof.
  intros Htrue Hnil. induction t as [n children IH] using tree_ind'. intros s.
  cbn [Inspect nodes fold_left].
  destruct (v (Some n) s) as [s1 d] eqn:Hv.
  pose proof (Htrue n s) as Hd. rewrite Hv in Hd. cbn in Hd. subst d.
  rewrite Hnil. cbn [fst]. generalize s1. clear Hv.
  induction IH as [|c rest Hc Hrest IHrest]; intros s0; cbn [fold_left map concat]; [done|].
  by rewrite fold_left_app, Hc, IHrest.
Qed.

Lemma scan_inspect (info : Info) (t : tree) (st : option scanState) :
  Inspect (scanVisit info) t st = fold_left (scanNode info) (nodes t) st.
Proof.
  apply Inspect_all.
  - intros n s. unfold scanVisit. by repeat case_match.
  - intros s. unfold scanVisit. by repeat case_match.
Qed.

Lemma scanAssign_ident (info : Info) (name : ident) (rest : list expr) (st : scanState) :
  scanAssign info (Ident name :: rest) st = Some (scanIdent info st name).
Proof. unfold scanAssign, scanIdent. by repeat case_match. Qed.

(** When the first target of every assignment is an identifier the scan
    does not panic, and it is the closure run over those identifiers. *)
Lemma scan_nodes (info : Info) (l : list node) : forall st,
  forallb (fun n => match n with
                    | NStmt (AssignStmt _ (Ident _ :: _) _ _) => true
                    | NStmt (AssignStmt _ _ _ _) => false
                    | _ => true
                    end) l = true ->
  fold_left (scanNode info) l (Some st)
  = Some (fold_left (scanIdent info)
            (omap (fun n => match n with
                            | NStmt (AssignStmt _ (Ident name :: _) _ _) => Some name
                            | _ => None
                            end) l) st).
Proof.
  induction l as [|n l IH]; intros st Hok; [done|].
  cbn [forallb] in Hok. apply andb_prop in Hok as [Hn Hl].
  cbn [fold_left omap list_omap].
  destruct n as [e|s| | | | |]; try (by apply IH).
  destruct s; try (by apply IH).
  destruct Lhs as [|[] rest]; try done.
  unfold scanNode at 2. cbn [scanVisit fst]. rewrite scanAssign_ident.
  cbn [fold_left]. by apply IH.
Qed.

Lemma scanVariables_spec (info : Info) (body : stmt) :
  assignTargetsAreIdents body = true ->
  scanVariables info body
  = Some (updateStmt defineToAssign (fun id => id) body,
          fold_left (scanIdent info) (assignedIdents body) (MkScan ∅ [] [])).
Proof.
  intros Hok. unfold scanVariables. rewrite scan_inspect.
  unfold assignTargetsAreIdents in Hok. by rewrite (scan_nodes info _ _ Hok).
Qed.

Lemma Itoa_inj (a b : Z) : Itoa a = Itoa b -> a = b.
Proof.
  intros H. pose proof (Atoi_Itoa a) as Ha. rewrite H, Atoi_Itoa in Ha. congruence.
Qed.

Lemma slotVar_inj (i j : nat) : Name (slotVar i) = Name (slotVar j) -> i = j.
Proof.
  unfold slotVar. cbn. intros [= H]. apply Itoa_inj in H. lia.
Qed.

(** The first identifier of each object: its members come from the list
    and name objects not seen before, no object twice, and every object of
    the list is seen before or has a member. *)
Lemma firstOfEachObject_elem (ids : list ident) : forall seen id,
  id ∈ firstOfEachObject seen ids ->
  id ∈ ids /\ exists o, Obj id = Some o /\ o ∉ seen.
Proof.
  induction ids as [|x rest IH]; intros seen id Hin; cbn in Hin.
  - by apply elem_of_nil in Hin.
  - destruct (Obj x) as [o|] eqn:Hobj.
    + destruct (decide (o ∈ seen)).
      * destruct (IH _ _ Hin) as [? ?]. split; [by right|done].
      * apply elem_of_cons in Hin as [->|Hin].
        -- split; [by left|eauto].
        -- destruct (IH _ _ Hin) as [? (o' & ? & ?)]. split; [by right|].
           exists o'. split; [done|set_solver].
    + destruct (IH _ _ Hin) as [? ?]. split; [by right|done].
Qed.

Lemma firstOfEachObject_distinct (ids : list ident) : forall seen i j idi idj o,
  firstOfEachObject seen ids !! i = Some idi ->
  firstOfEachObject seen ids !! j = Some idj ->
  Obj idi = Some o -> Obj idj = Some o -> i = j.
Proof.
  induction ids as [|x rest IH]; intros seen i j idi idj o Hi Hj Hoi Hoj; cbn in *.
  - done.
  - destruct (Obj x) as [ox|] eqn:Hobj; [|by eapply IH].
    destruct (decide (ox ∈ seen)); [by eapply IH|].
    destruct i as [|i], j as [|j]; cbn in *; simplify_eq.
    + done.
    + apply list_elem_of_lookup_2, firstOfEachObject_elem in Hj as [_ (o' & ? & ?)].
      simplify_eq. set_solver.
    + apply list_elem_of_lookup_2, firstOfEachObject_elem in Hi as [_ (o' & ? & ?)].
      simplify_eq. set_solver.
    + f_equal. by eapply IH.
Qed.

Lemma firstOfEachObject_covers (ids : list ident) : forall seen id o,
  id ∈ ids -> Obj id = Some o ->
  o ∈ seen \/ exists id', id' ∈ firstOfEachObject seen ids /\ Obj id' = Some o.
Proof.
  induction ids as [|x rest IH]; intros seen id o Hin Hobj.
  - by apply elem_of_nil in Hin.
  - cbn. apply elem_of_cons in Hin as [->|Hin].
    + rewrite Hobj. destruct (decide (o ∈ seen)); [by left|].
      right. exists x. split; [by left|done].
    + destruct (Obj x) as [ox|] eqn:Hx; [|by apply IH with id].
      destruct (decide (ox ∈ seen)); [by apply IH with id|].
      destruct (IH ({[ox]} ∪ seen) id o Hin Hobj) as [Hseen|(id' & Hin' & Hobj')].
      * apply elem_of_union in Hseen as [Hseen|Hseen]; [|by left].
        apply elem_of_singleton in Hseen as ->.
        right. exists x. split; [by left|done].
      * right. exists id'. split; [by right|done].
Qed.

(** The captured variables after the closure has run over a list of
    first targets. *)
Lemma scan_fold (info : Info) (ids : list ident) : forall st,
  let D := firstOfEachObject (dom (objectVars st)) ids in
  let st' := fold_left (scanIdent info) ids st in
  let base := length (varNames st) in
  varNames st' = varNames st ++ imap (fun i _ => slotVar (base + i)) D
  /\ varTypes st' = varTypes st ++ map (fun id => TypeOf info (Ident id)) D
  /\ (forall o v, objectVars st !! o = Some v -> objectVars st' !! o = Some v)
  /\ (forall i id o, D !! i = Some id -> Obj id = Some o ->
        objectVars st' !! o = Some (slotVar (base + i)))
  /\ (forall o v, objectVars st' !! o = Some v ->
        objectVars st !! o = Some v
        \/ exists i id, D !! i = Some id /\ Obj id = Some o /\ v = slotVar (base + i)).
Proof.
  induction ids as [|x rest IH]; intros st; cbn zeta.
  - cbn. rewrite !app_nil_r. repeat split; auto. done.
  - cbn [fold_left firstOfEachObject]. unfold scanIdent at 2 4 6 8 10.
    destruct (Obj x) as [o|] eqn:Hobj; [|apply IH].
    destruct (objectVars st !! o) as [v|] eqn:Hlook.
    + destruct (decide (o ∈ dom (objectVars st))) as [_|Hno]; [apply IH|].
      exfalso. apply Hno, elem_of_dom. eauto.
    + destruct (decide (o ∈ dom (objectVars st))) as [Hin|_].
      { apply elem_of_dom in Hin as [? ?]. congruence. }
      set (st1 := MkScan _ _ _).
      destruct (IH st1) as (Hnames & Htypes & Hkeep & Hnew & Hold).
      assert (dom (objectVars st1) = {[o]} ∪ dom (objectVars st)) as Hdom
        by (subst st1; cbn; by rewrite dom_insert_L).
      rewrite Hdom in *.
      assert (length (varNames st1) = S (length (varNames st))) as Hlen
        by (subst st1; cbn; rewrite length_app; cbn; lia).
      rewrite Hlen in *.
      split; [|split; [|split; [|split]]].
      * rewrite Hnames. subst st1. cbn [varNames imap]. rewrite <- app_assoc. cbn [app].
        rewrite Nat.add_0_r. do 2 f_equal. apply imap_ext. intros i ? _. cbn.
        f_equal. lia.
      * rewrite Htypes. subst st1. cbn [varTypes map]. by rewrite <- app_assoc.
      * intros o' v' Ho'. apply Hkeep. subst st1. cbn.
        rewrite lookup_insert_ne; [done|congruence].
      * intros i id o' Hi Ho'. destruct i as [|i]; cbn in Hi.
        -- simplify_eq. rewrite Nat.add_0_r. apply Hkeep. subst st1. cbn.
           by rewrite lookup_insert_eq.
        -- replace (length (varNames st) + S i)%nat
             with (S (length (varNames st)) + i)%nat by lia.
           by apply (Hnew i id o').
      * intros o' v' Ho'. destruct (Hold o' v' Ho') as [Hst1|(i & id & Hi & Hoi & ->)].
        -- subst st1. cbn in Hst1. destruct (decide (o = o')) as [<-|Hne].
           ++ rewrite lookup_insert_eq in Hst1. simplify_eq.
              right. exists 0%nat, x. rewrite Nat.add_0_r. done.
           ++ rewrite lookup_insert_ne in Hst1 by done. by left.
        -- right. exists (S i), id. split; [done|]. split; [done|]. f_equal. lia.
Qed.

(** ** compileFunction *)

Section FunctionProperties.

Variable typeExpr : option gotype -> expr.
Variable desugar : stmt -> Info -> stmt.
Variable trackSpans : stmt -> gmap addr span.
Variable unnestBlocks : stmt -> stmt.

Local Abbreviation compileFunction :=
  (compileFunction typeExpr desugar trackSpans unnestBlocks).
Local Abbreviation compilable := (compilable desugar).

Lemma rewritten_block (info : Info) (b : addr) (l : list stmt) :
  exists l', rewritten info (BlockStmt b l) = BlockStmt b l'.
Proof. unfold rewritten. rewrite (updateStmt_eq _ _ (BlockStmt b l)). cbv beta match.
       rewrite (updateStmt_eq _ _ (BlockStmt b _)). cbv beta match. eauto. Qed.

(** The generated declaration. *)
Lemma compileFunction_shape (info : Info) (fn : FuncDecl) (color : Signature) :
  compilable info fn color = true ->
  let body := rewritten info (desugar (fd_Body fn) info) in
  let scan := scanned info (desugar (fd_Body fn) info) in
  let names := saveAndRestoreNames fn (varNames scan) in
  let types := saveAndRestoreTypes info fn (varTypes scan) in
  exists yieldType resumeType a compiledBody,
    hd_error (sig_Params color) = Some yieldType
    /\ hd_error (sig_Results color) = Some resumeType
    /\ compileStatement unnestBlocks (trackSpans body) body = BlockStmt a compiledBody
    /\ compileFunction info fn color
       = Some (MkFuncDecl fresh None (fd_Name fn) (fd_Type fn)
                 (BlockStmt fresh
                    ([loadContextStmt [typeExpr (Some yieldType);
                                       typeExpr (Some resumeType)];
                      pushStmt]
                     ++ varDeclStmts typeExpr (varNames scan) (varTypes scan)
                     ++ [restoreIf typeExpr (zip names types); deferStmt names]
                     ++ compiledBody))).
Proof.
  intros Hok body scan names types. subst body scan names types.
  unfold compilable in Hok. unfold def_compileFunction.
  destruct (sig_Params color) as [|y ps]; [done|].
  destruct (sig_Results color) as [|r rs]; [done|].
  destruct (desugar (fd_Body fn) info) as [| | | | | | | | | | | |b l| | | | | | | |] eqn:Hbody;
    try done.
  rewrite (scanVariables_spec info _ Hok).
  fold (scanned info (BlockStmt b l)).
  change (replaceVariables (objectVars (scanned info (BlockStmt b l)))
            (updateStmt defineToAssign (fun id => id) (BlockStmt b l)))
    with (rewritten info (BlockStmt b l)).
  destruct (rewritten_block info b l) as (l' & Hl'). rewrite Hl'.
  destruct (compileStatement_block unnestBlocks (trackSpans (BlockStmt b l')) b l')
    as (a & compiledBody & Hc).
  rewrite Hc. exists y, r, a, compiledBody. done.
Qed.

Lemma compileFunction_header (info : Info) (fn gen : FuncDecl) (color : Signature) :
  compileFunction info fn color = Some gen ->
  fd_Name gen = fd_Name fn /\ fd_Type gen = fd_Type fn /\ fd_Recv gen = None.
Proof.
  unfold def_compileFunction. intros H.
  repeat case_match; simplify_eq; done.
Qed.

Variable filepath_Dir : string -> string.
Variable filepath_Join : string -> string -> string.
Variable strconv_Quote : string -> string.
Variable os : OS.

Local Abbreviation compileDecls :=
  (compileDecls typeExpr desugar trackSpans unnestBlocks).
Local Abbreviation compilePackage :=
  (compilePackage typeExpr desugar trackSpans unnestBlocks filepath_Dir filepath_Join strconv_Quote os).

(** When the loop over the declarations runs to its end, the generated
    declarations hold the compiled form of every colored function. *)
Lemma compileDecls_output (p : Package) (m : gmap addr Signature) (decls : list Decl) :
  forall gen out, compileDecls p m decls gen = inr out ->
    (forall d, d ∈ gen -> d ∈ out)
    /\ (forall decl color, FuncDeclD decl ∈ decls -> m !! fd_addr decl = Some color ->
          exists fn', compileFunction (p_TypesInfo p) decl color = Some fn'
                      /\ FuncDeclD fn' ∈ out).
Proof.
  induction decls as [|d rest IH]; intros gen out Hrun; cbn [def_compileDecls] in Hrun.
  - simplify_eq. split; [done|]. intros decl color Hin. by apply elem_of_nil in Hin.
  - destruct d as [d'|tok specs].
    + destruct (m !! fd_addr d') as [color'|] eqn:Hcolor.
      * destruct (gating d' (p_TypesInfo p)) as [[?|]|]; try done.
        destruct (def_compileFunction _ _ _ _ _ _ _) as [fn'|] eqn:Hfn; [|done].
        destruct (IH _ _ Hrun) as [Hgen Hrest]. split.
        -- intros d Hd. apply Hgen, elem_of_app. by left.
        -- intros decl color Hin Hc. apply elem_of_cons in Hin as [[= <-]|Hin].
           ++ simplify_eq. exists fn'. split; [done|].
              apply Hgen. set_solver.
           ++ by apply Hrest.
      * destruct (IH _ _ Hrun) as [Hgen Hrest]. split; [done|].
        intros decl color Hin Hc. apply elem_of_cons in Hin as [[= <-]|Hin].
        -- congruence.
        -- by apply Hrest.
    + destruct (IH _ _ Hrun) as [Hgen Hrest]. split; [done|].
      intros decl color Hin Hc. apply elem_of_cons in Hin as [[=]|Hin]. by apply Hrest.
Qed.

(** C10, as amended (the generated declaration).  The declaration that
    [compileFunction] builds for a colored function has the name and the
    function type (parameters and results) of the source function, and
    no receiver; its body is new.  [compileFunction] builds it whenever
    the function is compilable; and when [compilePackage] succeeds, the
    file handed to the printer is of the package of the source and
    holds that declaration. *)
Theorem generated_declaration (c : compiler) (p : Package)
    (colors : list (ssaFunction * Signature)) (colorsByDecl : gmap addr Signature)
    (decl : FuncDecl) (color : Signature) (events : list event) :
  colorsByDeclOf colors ∅ = inr colorsByDecl ->
  FuncDeclD decl ∈ concat (map f_Decls (p_Syntax p)) ->
  colorsByDecl !! fd_addr decl = Some color ->
  (compilable (p_TypesInfo p) decl color = true ->
   exists gen,
     compileFunction (p_TypesInfo p) decl color = Some gen
     /\ fd_Name gen = fd_Name decl /\ fd_Type gen = fd_Type decl
     /\ fd_Recv gen = None)
  /\ (compilePackage c p colors = (events, Returns None) ->
      exists gen file,
        compileFunction (p_TypesInfo p) decl color = Some gen
        /\ fd_Name gen = fd_Name decl /\ fd_Type gen = fd_Type decl
        /\ fd_Recv gen = None
        /\ EvFormatNode file ∈ events
        /\ f_Name file = NewIdent (p_Name p)
        /\ FuncDeclD gen ∈ f_Decls file).
Proof.
  intros Hcolors Hin Hcolor. split.
  - intros Hok.
    destruct (compileFunction_shape (p_TypesInfo p) decl color Hok)
      as (y & r & a & body & _ & _ & _ & Hgen).
    eexists. split; [exact Hgen|]. done.
  - unfold def_compilePackage. rewrite Hcolors.
    destruct (compileDecls p colorsByDecl _ _) as [out|decls] eqn:Hrun.
    { intros [= _ ->]. by apply compileDecls_early in Hrun. }
    destruct (compileDecls_output _ _ _ _ _ Hrun) as [_ Hout].
    destruct (Hout decl color Hin Hcolor) as (gen & Hgen & Hingen).
    destruct (compileFunction_header _ _ _ _ Hgen) as (Hname & Htype & Hrecv).
    unfold writeOutput. intros Hw.
    exists gen, (MkFile (NewIdent (p_Name p)) decls).
    repeat (split; [done|]). split; [|done].
    repeat case_match; simplify_eq; set_solver.
Qed.

End FunctionProperties.

(** A method: the generated declaration has no receiver, so more than the
    body differs from the source. *)
Lemma receiver_not_carried_over :
  option_map fd_Recv
    (compileFunction Samples.typeExpr Samples.desugar Samples.trackSpans
       Samples.unnestBlocks Samples.info Samples.method Samples.color)
  = Some None
  /\ fd_Recv Samples.method = Some [Field [Samples.id_ "t" 7] (Samples.use "T")].
Proof. split; [vm_compute; reflexivity|reflexivity]. Qed.

(** ** The prologue and the exit handler at run time *)

Lemma natLit_intLit (i : nat) : natLit (intLit i) = Some i.
Proof. unfold natLit, intLit. rewrite Atoi_Itoa. cbn. by rewrite Nat2Z.id. Qed.

Section RuntimeProperties.

Variable typeExpr : option gotype -> expr.
Variable hasType : expr -> value -> bool.

Local Abbreviation restoreStmt := (restoreStmt typeExpr).
Local Abbreviation restoreIf := (restoreIf typeExpr).

Lemma execSimple_restore (i : nat) (name : ident) (t : option gotype) (r : runtime) :
  execSimple hasType (restoreStmt i (name, t)) r
  = match rt_slots r !! i with
    | Some v => if hasType (typeExpr t) v then Done (setVar (Name name) v r) else Panic
    | None => Panic
    end.
Proof.
  unfold def_restoreStmt, execSimple. cbn [fst snd callMethod isCall].
  change (String.eqb (Name frame) "_f" && String.eqb (Name (NewIdent "Get")) "Get")
    with true. cbv beta match.
  by rewrite natLit_intLit.
Qed.

Lemma execSimple_save (i : nat) (name : ident) (r : runtime) :
  execSimple hasType (saveStmt i name) r = Done (setSlot i (rt_vars r (Name name)) r).
Proof.
  unfold saveStmt, execSimple. cbn [callMethod isCall].
  change (String.eqb (Name frame) "_f" && String.eqb (Name (NewIdent "Set")) "Set")
    with true. cbv beta match.
  by rewrite natLit_intLit.
Qed.

(** The restores change the variables only. *)
Lemma restores_frame (slots : list (ident * option gotype)) : forall k r r',
  execList hasType (imap (fun i => restoreStmt (k + i)) slots) r = Done r' ->
  rt_IP r' = rt_IP r /\ rt_slots r' = rt_slots r
  /\ rt_onStack r' = rt_onStack r /\ rt_unwinding r' = rt_unwinding r.
Proof.
  induction slots as [|[name t] slots IH]; intros k r r' Hrun;
    cbn [imap execList] in Hrun.
  - by simplify_eq.
  - rewrite execSimple_restore in Hrun.
    destruct (rt_slots r !! (k + 0)%nat) as [v|]; [|done].
    destruct (hasType (typeExpr t) v); [|done].
    rewrite (imap_ext _ (fun i => restoreStmt (S k + i)) slots) in Hrun
      by (intros; cbn; f_equal; lia).
    by destruct (IH _ _ _ Hrun) as (-> & -> & -> & ->).
Qed.

(** A slot that holds nothing, or a value that is not of the declared
    type, makes the restores panic. *)
Lemma restores_panic (slots : list (ident * option gotype)) : forall k r i name t,
  slots !! i = Some (name, t) ->
  match rt_slots r !! (k + i)%nat with
  | Some v => hasType (typeExpr t) v = false
  | None => True
  end ->
  execList hasType (imap (fun i => restoreStmt (k + i)) slots) r = Panic.
Proof.
  induction slots as [|[name0 t0] slots IH]; intros k r i name t Hi Hbad; [done|].
  cbn [imap execList]. rewrite execSimple_restore.
  destruct i as [|i]; cbn in Hi.
  - simplify_eq. destruct (rt_slots r !! (k + 0)%nat) as [v|]; [|done]. by rewrite Hbad.
  - destruct (rt_slots r !! (k + 0)%nat) as [v|]; [|done].
    destruct (hasType (typeExpr t0) v); [|done].
    rewrite (imap_ext _ (fun i => restoreStmt (S k + i)) slots)
      by (intros; cbn; f_equal; lia).
    apply (IH (S k) _ i name t Hi). cbn [rt_slots setVar].
    by replace (S k + i)%nat with (k + S i)%nat by lia.
Qed.

(** When every slot holds a value of the declared type, the restores
    succeed; a variable restored from one slot only holds that slot's
    value afterwards. *)
Lemma restores_done (slots : list (ident * option gotype)) : forall k r,
  (forall i name t, slots !! i = Some (name, t) ->
     exists v, rt_slots r !! (k + i)%nat = Some v /\ hasType (typeExpr t) v = true) ->
  exists r',
    execList hasType (imap (fun i => restoreStmt (k + i)) slots) r = Done r'
    /\ (forall x, x ∉ map (fun slot => Name (fst slot)) slots -> rt_vars r' x = rt_vars r x)
    /\ (NoDup (map (fun slot => Name (fst slot)) slots) ->
        forall i name t, slots !! i = Some (name, t) ->
          rt_slots r !! (k + i)%nat = Some (rt_vars r' (Name name))).
Proof.
  induction slots as [|[name0 t0] slots IH]; intros k r Hall.
  - exists r. cbn. repeat split; done.
  - destruct (Hall 0%nat name0 t0 eq_refl) as (v0 & Hv0 & Ht0).
    cbn [imap execList]. rewrite execSimple_restore, Hv0, Ht0.
    rewrite (imap_ext _ (fun i => restoreStmt (S k + i)) slots)
      by (intros; cbn; f_equal; lia).
    destruct (IH (S k) (setVar (Name name0) v0 r)) as (r' & Hrun & Hother & Hvars).
    { intros i name t Hi. cbn [rt_slots setVar].
      replace (S k + i)%nat with (k + S i)%nat by lia. exact (Hall (S i) name t Hi). }
    exists r'. split; [exact Hrun|]. split.
    + intros x Hx. cbn [map fst] in Hx. apply not_elem_of_cons in Hx as [Hx0 Hx].
      rewrite (Hother x Hx). cbn. by rewrite bool_decide_eq_false_2.
    + intros Hnodup i name t Hi. cbn [map fst] in Hnodup.
      apply NoDup_cons in Hnodup as [Hnot Hnodup].
      destruct i as [|i]; cbn in Hi.
      * simplify_eq. rewrite (Hother _ Hnot). cbn.
        rewrite bool_decide_eq_true_2 by done. exact Hv0.
      * specialize (Hvars Hnodup i name t Hi). cbn [rt_slots setVar] in Hvars.
        by replace (k + S i)%nat with (S k + i)%nat by lia.
Qed.

(** The saves write the variables into the slots and change nothing
    else. *)
Lemma saves_done (names : list ident) : forall k r,
  exists r',
    execList hasType (imap (fun i => saveStmt (k + i)) names) r = Done r'
    /\ rt_IP r' = rt_IP r /\ rt_onStack r' = rt_onStack r
    /\ rt_unwinding r' = rt_unwinding r /\ rt_vars r' = rt_vars r
    /\ (forall i name, names !! i = Some name ->
          rt_slots r' !! (k + i)%nat = Some (rt_vars r (Name name)))
    /\ (forall j, (j < k \/ k + length names <= j)%nat ->
          rt_slots r' !! j = rt_slots r !! j).
Proof.
  induction names as [|name0 names IH]; intros k r.
  - exists r. cbn. repeat split; done.
  - cbn [imap execList]. rewrite execSimple_save.
    rewrite (imap_ext _ (fun i => saveStmt (S k + i)) names)
      by (intros; cbn; f_equal; lia).
    destruct (IH (S k) (setSlot (k + 0) (rt_vars r (Name name0)) r))
      as (r' & Hrun & Hip & Hstack & Hunw & Hvars & Hset & Hkeep).
    exists r'. split; [exact Hrun|]. repeat (split; [done|]). split.
    + intros i name Hi. destruct i as [|i]; cbn in Hi.
      * simplify_eq. rewrite Hkeep by lia. cbn. by rewrite lookup_insert_eq.
      * replace (k + S i)%nat with (S k + i)%nat by lia. exact (Hset i name Hi).
    + intros j Hj. cbn [length] in Hj. rewrite Hkeep by lia. cbn.
      rewrite lookup_insert_ne; [done|lia].
Qed.

End RuntimeProperties.

Lemma zip_with_imap_map {A B C D} (f : B -> C -> D) (g : nat -> A -> B) (h : A -> C)
    (l : list A) :
  zip_with f (imap g l) (map h l) = imap (fun i x => f (g i x) (h x)) l.
Proof.
  revert g. induction l as [|x l IH]; intros g; cbn; [done|]. f_equal. by rewrite IH.
Qed.

Lemma zip_map_r {A B} (f : A -> B) (l : list A) :
  zip l (map f l) = map (fun x => (x, f x)) l.
Proof. induction l as [|x l IH]; cbn; [done|]. by rewrite IH. Qed.

(** The scan of a body, from the start. *)
Lemma scanned_spec (info : Info) (body : stmt) :
  let locals := localSlots body in
  let scan := scanned info body in
  varNames scan = imap (fun i _ => slotVar i) locals
  /\ varTypes scan = map (fun id => TypeOf info (Ident id)) locals
  /\ (forall i id o, locals !! i = Some id -> Obj id = Some o ->
        objectVars scan !! o = Some (slotVar i))
  /\ (forall o v, objectVars scan !! o = Some v ->
        exists i id, locals !! i = Some id /\ Obj id = Some o /\ v = slotVar i).
Proof.
  cbn zeta. unfold scanned, localSlots.
  destruct (scan_fold info (assignedIdents body) (MkScan ∅ [] []))
    as (Hnames & Htypes & _ & Hnew & Hold).
  cbn [objectVars varNames varTypes length app] in *. rewrite dom_empty_L in *.
  split; [exact Hnames|]. split; [exact Htypes|]. split; [exact Hnew|].
  intros o v Hv. destruct (Hold o v Hv) as [Hempty|H]; [|exact H].
  by rewrite lookup_empty in Hempty.
Qed.

Section PrologueEpilogue.

Variable typeExpr : option gotype -> expr.
Variable desugar : stmt -> Info -> stmt.
Variable trackSpans : stmt -> gmap addr span.
Variable unnestBlocks : stmt -> stmt.
Variable hasType : expr -> value -> bool.

Local Abbreviation compileFunction :=
  (compileFunction typeExpr desugar trackSpans unnestBlocks).
Local Abbreviation compilable := (compilable desugar).
Local Abbreviation restoreStmt := (restoreStmt typeExpr).
Local Abbreviation restoreIf := (restoreIf typeExpr).

Lemma execIf_restoreIf (slots : list (ident * option gotype)) (r : runtime) :
  execIf hasType (restoreIf slots) r
  = if rt_IP r >? 0 then execList hasType (imap restoreStmt slots) r else Done r.
Proof. reflexivity. Qed.

Lemma execIf_exitHandler (names : list ident) (r : runtime) :
  execIf hasType (exitHandler names) r
  = if rt_unwinding r then execList hasType (imap saveStmt names) r else Done (pop r).
Proof. unfold exitHandler, execIf. cbn. by destruct (rt_unwinding r). Qed.

(** C4 (the prologue).  The generated body holds, before the deferred
    handler and the compiled statements, the statement
    [if _f.IP > 0 { ... }] whose body has, for the slot at each index
    [i] of the plan, the assignment [name = _f.Get(i).(T)] with the type
    expression of the slot's declared type.  Every name of the plan has
    its restore, and the declared type is the one that the type
    information gives for the parameter or the result, and for a slot
    variable [_v<i>] the one it gives for the variable at the first
    assignment to it.  Run on a frame whose
    instruction pointer is not above zero it changes nothing; run on a
    frame whose instruction pointer is above zero it runs the restores:
    a slot that holds nothing or a value that is not of the declared
    type makes it panic, and when every slot holds a value of its
    declared type it ends with the frame unchanged and, the names of
    the plan being distinct, every variable of the plan holding the
    value of its slot. *)
Theorem prologue_restores (info : Info) (fn : FuncDecl) (color : Signature) :
  compilable info fn color = true ->
  let scan := scanned info (desugar (fd_Body fn) info) in
  let names := saveAndRestoreNames fn (varNames scan) in
  let types := saveAndRestoreTypes info fn (varTypes scan) in
  let slots := zip names types in
  exists gen pre post,
    compileFunction info fn color = Some gen
    /\ fd_Body gen = BlockStmt fresh (pre ++ restoreIf slots :: deferStmt names :: post)
    /\ map fst slots = names
    /\ slots
       = map (fun name => (name, TypeOf info (Ident name)))
           (fieldNames (ft_Params (fd_Type fn)) ++ fieldNames (ft_Results (fd_Type fn)))
         ++ imap (fun i id => (NewIdent ("_v" ++ Itoa (Z.of_nat i)), TypeOf info (Ident id)))
              (localSlots (desugar (fd_Body fn) info))
    /\ restoreIf slots
       = IfStmt fresh None
           (BinaryExpr (SelectorExpr (Ident (NewIdent "_f")) (NewIdent "IP")) GTR
              (BasicLit INT "0"))
           (BlockStmt fresh
              (imap (fun i slot =>
                       AssignStmt fresh [Ident (fst slot)] ASSIGN
                         [TypeAssertExpr
                            (CallExpr (SelectorExpr (Ident (NewIdent "_f")) (NewIdent "Get"))
                               [BasicLit INT (Itoa (Z.of_nat i))])
                            (Some (typeExpr (snd slot)))]) slots))
           None
    /\ (forall r, rt_IP r <= 0 -> execIf hasType (restoreIf slots) r = Done r)
    /\ (forall r, 0 < rt_IP r ->
          execIf hasType (restoreIf slots) r = execList hasType (imap restoreStmt slots) r)
    /\ (forall r i name t,
          0 < rt_IP r -> slots !! i = Some (name, t) ->
          match rt_slots r !! i with
          | Some v => hasType (typeExpr t) v = false
          | None => True
          end ->
          execIf hasType (restoreIf slots) r = Panic)
    /\ (forall r,
          0 < rt_IP r ->
          (forall i name t, slots !! i = Some (name, t) ->
             exists v, rt_slots r !! i = Some v /\ hasType (typeExpr t) v = true) ->
          exists r',
            execIf hasType (restoreIf slots) r = Done r'
            /\ rt_IP r' = rt_IP r /\ rt_slots r' = rt_slots r
            /\ rt_onStack r' = rt_onStack r
            /\ (NoDup (map (fun slot => Name (fst slot)) slots) ->
                forall i name t, slots !! i = Some (name, t) ->
                  rt_slots r !! i = Some (rt_vars r' (Name name)))).
Proof.
  intros Hok scan names types slots.
  destruct (compileFunction_shape typeExpr desugar trackSpans unnestBlocks info fn color Hok)
    as (y & res & a & body & _ & _ & _ & Hgen).
  eexists _, ([_; _] ++ varDeclStmts typeExpr (varNames scan) (varTypes scan)), body.
  split; [exact Hgen|]. split; [reflexivity|].
  assert (slots
          = map (fun name => (name, TypeOf info (Ident name)))
              (fieldNames (ft_Params (fd_Type fn)) ++ fieldNames (ft_Results (fd_Type fn)))
            ++ imap (fun i id => (NewIdent ("_v" ++ Itoa (Z.of_nat i)), TypeOf info (Ident id)))
                 (localSlots (desugar (fd_Body fn) info))) as Hslots.
  { destruct (scanned_spec info (desugar (fd_Body fn) info)) as (Hnames & Htypes & _).
    subst slots names types scan.
    unfold saveAndRestoreNames, saveAndRestoreTypes. rewrite Hnames, Htypes.
    rewrite !app_assoc, <- map_app.
    rewrite zip_with_app by (by rewrite length_map).
    rewrite zip_map_r. f_equal. apply zip_with_imap_map. }
  split.
  { subst slots names types. apply fst_zip.
    unfold saveAndRestoreNames, saveAndRestoreTypes.
    destruct (scanned_spec info (desugar (fd_Body fn) info)) as (Hnames & Htypes & _).
    fold scan in Hnames, Htypes. rewrite !length_app, !length_map, Hnames, Htypes.
    by rewrite length_imap, length_map. }
  split; [exact Hslots|].
  split; [reflexivity|]. split; [|split; [|split]].
  - intros r Hip. rewrite execIf_restoreIf.
    destruct (Z.gtb_spec (rt_IP r) 0); [lia|done].
  - intros r Hip. rewrite execIf_restoreIf.
    destruct (Z.gtb_spec (rt_IP r) 0); [done|lia].
  - intros r i name t Hip Hi Hbad. rewrite execIf_restoreIf.
    destruct (Z.gtb_spec (rt_IP r) 0); [|lia].
    exact (restores_panic typeExpr hasType slots 0 r i name t Hi Hbad).
  - intros r Hip Hall. rewrite execIf_restoreIf.
    destruct (Z.gtb_spec (rt_IP r) 0); [|lia].
    destruct (restores_done typeExpr hasType slots 0 r Hall) as (r' & Hrun & _ & Hvars).
    destruct (restores_frame typeExpr hasType slots 0 r r' Hrun) as (? & ? & ? & ?).
    exists r'. split; [exact Hrun|].
    split; [done|]. split; [done|]. split; [done|]. exact Hvars.
Qed.

(** C5 (the epilogue).  The generated body holds, after the prologue and
    before every compiled statement of the function body, the statement
    [defer func() { if _c.Unwinding() { ... } else { _c.Pop() } }()]
    whose first branch has, for the name at each index [i] of the plan,
    the call [_f.Set(i, name)].  Being deferred before the body runs,
    the handler runs however the body is left.  When the context is
    unwinding it writes the value of every variable of the plan into the
    slot of its index, changes no other slot and leaves the frame on the
    stack; otherwise it pops the frame and writes no slot. *)
Theorem epilogue_saves_or_pops (info : Info) (fn : FuncDecl) (color : Signature) :
  compilable info fn color = true ->
  let body := rewritten info (desugar (fd_Body fn) info) in
  let scan := scanned info (desugar (fd_Body fn) info) in
  let names := saveAndRestoreNames fn (varNames scan) in
  exists gen pre a compiledBody,
    compileFunction info fn color = Some gen
    /\ compileStatement unnestBlocks (trackSpans body) body = BlockStmt a compiledBody
    /\ fd_Body gen = BlockStmt fresh (pre ++ deferStmt names :: compiledBody)
    /\ deferStmt names
       = DeferStmt fresh
           (CallExpr
              (FuncLit (FuncTypeExpr None None)
                 (BlockStmt fresh
                    [IfStmt fresh None
                       (CallExpr (SelectorExpr (Ident (NewIdent "_c")) (NewIdent "Unwinding")) [])
                       (BlockStmt fresh
                          (imap (fun i name =>
                                   ExprStmt fresh
                                     (CallExpr
                                        (SelectorExpr (Ident (NewIdent "_f")) (NewIdent "Set"))
                                        [BasicLit INT (Itoa (Z.of_nat i)); Ident name]))
                             names))
                       (Some (BlockStmt fresh
                                [ExprStmt fresh
                                   (CallExpr
                                      (SelectorExpr (Ident (NewIdent "_c")) (NewIdent "Pop"))
                                      [])]))])) [])
    /\ (forall r, rt_unwinding r = true ->
          exists r',
            execIf hasType (exitHandler names) r = Done r'
            /\ rt_onStack r' = rt_onStack r /\ rt_IP r' = rt_IP r
            /\ rt_vars r' = rt_vars r
            /\ (forall i name, names !! i = Some name ->
                  rt_slots r' !! i = Some (rt_vars r (Name name)))
            /\ (forall j, (length names <= j)%nat -> rt_slots r' !! j = rt_slots r !! j))
    /\ (forall r, rt_unwinding r = false ->
          execIf hasType (exitHandler names) r = Done (pop r)
          /\ rt_onStack (pop r) = false /\ rt_slots (pop r) = rt_slots r).
Proof.
  intros Hok body scan names.
  destruct (compileFunction_shape typeExpr desugar trackSpans unnestBlocks info fn color Hok)
    as (y & res & a & compiledBody & _ & _ & Hbody & Hgen).
  eexists _, ([_; _] ++ varDeclStmts typeExpr (varNames scan) (varTypes scan) ++ [_]),
    a, compiledBody.
  split; [exact Hgen|]. split; [exact Hbody|]. split.
  { cbn [fd_Body app]. do 3 f_equal. by rewrite <- app_assoc. }
  split; [reflexivity|]. split.
  - intros r Hunw. rewrite execIf_exitHandler, Hunw.
    destruct (saves_done hasType names 0 r)
      as (r' & Hrun & Hip & Hstack & _ & Hvars & Hset & Hkeep).
    exists r'. split; [exact Hrun|].
    split; [done|]. split; [done|]. split; [done|]. split; [exact Hset|].
    intros j Hj. apply Hkeep. lia.
  - intros r Hunw. rewrite execIf_exitHandler, Hunw. done.
Qed.

End PrologueEpilogue.

(** ** The slot plan *)

Section UpdateInversion.

Variable onTok : token -> token.
Variable onIdent : ident -> ident.

Lemma updateExpr_Ident (e : expr) (id' : ident) :
  updateExpr onTok onIdent e = Ident id' ->
  exists id, e = Ident id /\ id' = onIdent id.
Proof.
  rewrite updateExpr_eq. destruct e; intros H; try discriminate.
  injection H as <-. eauto.
Qed.

Lemma updateStmt_AssignStmt (s : stmt) a lhs tok rhs :
  updateStmt onTok onIdent s = AssignStmt a lhs tok rhs ->
  exists lhs0 tok0 rhs0, s = AssignStmt a lhs0 tok0 rhs0 /\ tok = onTok tok0.
Proof.
  rewrite updateStmt_eq. destruct s; intros H; try discriminate.
  injection H as <- <- <- <-. eauto.
Qed.

Lemma nodes_update (s : stmt) :
  nodes (walkStmt (updateStmt onTok onIdent s))
  = map (updateNode onTok onIdent) (nodes (walkStmt s)).
Proof.
  destruct (walk_update onTok onIdent) as [_ H]. by rewrite H, nodes_mapTree.
Qed.

End UpdateInversion.

Lemma replaceIdent_spec (objectVars : gmap objptr ident) (id : ident) :
  Obj (replaceIdent objectVars id) = Obj id
  /\ (forall o v, Obj id = Some o -> objectVars !! o = Some v ->
        Name (replaceIdent objectVars id) = Name v).
Proof.
  unfold replaceIdent. destruct (Obj id) as [o|] eqn:Hobj; [|done].
  destruct (objectVars !! o) as [v|] eqn:Hv; cbn; (split; [done|]).
  - intros o' v' [= <-] Hv'. congruence.
  - intros o' v' [= <-] Hv'. congruence.
Qed.

Lemma defineToAssign_spec (tok : token) : defineToAssign tok <> DEFINE.
Proof. unfold defineToAssign. by case_decide. Qed.

(** In the body as the two inspections leave it, no assignment is a
    define, and every identifier of an object with a slot variable bears
    the name of that variable. *)
Lemma rewritten_nodes (info : Info) (body : stmt) :
  (forall a lhs tok rhs,
     NStmt (AssignStmt a lhs tok rhs) ∈ nodes (walkStmt (rewritten info body)) ->
     tok <> DEFINE)
  /\ (forall id o v,
        NExpr (Ident id) ∈ nodes (walkStmt (rewritten info body)) ->
        Obj id = Some o -> objectVars (scanned info body) !! o = Some v ->
        Name id = Name v).
Proof.
  unfold rewritten. split.
  - intros a lhs tok rhs Hin. rewrite nodes_update in Hin.
    apply list_elem_of_fmap in Hin as (n1 & Hn1 & Hin).
    destruct n1 as [|s1| | | | |]; try discriminate. cbn in Hn1. injection Hn1 as Hs1.
    symmetry in Hs1. apply updateStmt_AssignStmt in Hs1 as (lhs1 & tok1 & rhs1 & -> & ->).
    rewrite nodes_update in Hin. apply list_elem_of_fmap in Hin as (n0 & Hn0 & _).
    destruct n0 as [|s0| | | | |]; try discriminate. cbn in Hn0. injection Hn0 as Hs0.
    symmetry in Hs0. apply updateStmt_AssignStmt in Hs0 as (lhs0 & tok0 & rhs0 & -> & ->).
    apply defineToAssign_spec.
  - intros id o v Hin Hobj Hv. rewrite nodes_update in Hin.
    apply list_elem_of_fmap in Hin as (n1 & Hn1 & _).
    destruct n1 as [e1| | | | | |]; try discriminate. cbn in Hn1. injection Hn1 as He1.
    symmetry in He1. apply updateExpr_Ident in He1 as (id1 & -> & ->).
    destruct (replaceIdent_spec (objectVars (scanned info body)) id1) as [Hsame Hname].
    rewrite Hsame in Hobj. by apply (Hname o v).
Qed.

Lemma fieldNames_named (fl : option (list field)) (name : ident) :
  name ∈ fieldNames fl -> Name name <> "_".
Proof.
  unfold fieldNames. destruct fl as [l|]; [|by intros ?%elem_of_nil].
  intros Hin. by apply list_elem_of_filter in Hin as [? _].
Qed.

Section SlotPlan.

Variable typeExpr : option gotype -> expr.
Variable desugar : stmt -> Info -> stmt.
Variable trackSpans : stmt -> gmap addr span.
Variable unnestBlocks : stmt -> stmt.

Local Abbreviation compileFunction :=
  (compileFunction typeExpr desugar trackSpans unnestBlocks).
Local Abbreviation compilable := (compilable desugar).


End SlotPlan.


(** ** The theorems at the sample functions *)

Local Ltac inList := apply list_elem_of_In; cbn; tauto.



(** The prologue of the generator on a frame whose first slot holds a
    string: the restore panics. *)
Lemma prologue_restores_at_SquareGenerator :
  compilable Samples.desugar Samples.info Samples.SquareGenerator Samples.color = true
  /\ execIf Samples.hasType
       (restoreIf Samples.typeExpr
          (zip (saveAndRestoreNames Samples.SquareGenerator
                  (varNames (scanned Samples.info
                               (Samples.desugar (fd_Body Samples.SquareGenerator) Samples.info))))
               (saveAndRestoreTypes Samples.info Samples.SquareGenerator
                  (varTypes (scanned Samples.info
                               (Samples.desugar (fd_Body Samples.SquareGenerator) Samples.info))))))
       Samples.staleFrame = Panic.
Proof.
  split; [vm_compute; reflexivity|].
  destruct (prologue_restores Samples.typeExpr Samples.desugar Samples.trackSpans
              Samples.unnestBlocks Samples.hasType Samples.info Samples.SquareGenerator
              Samples.color)
    as (gen & pre & post & _ & _ & _ & _ & _ & _ & _ & Hpanic & _).
  - vm_compute; reflexivity.
  - apply (Hpanic Samples.staleFrame 0%nat Samples.n_ (Some (TBasic "int"))).
    + cbn; lia.
    + vm_compute; reflexivity.
    + vm_compute; reflexivity.
Defined.

(** The exit handler of the generator on a normal return: the frame is
    popped. *)
Lemma epilogue_at_SquareGenerator :
  compilable Samples.desugar Samples.info Samples.SquareGenerator Samples.color = true
  /\ execIf Samples.hasType
       (exitHandler
          (saveAndRestoreNames Samples.SquareGenerator
             (varNames (scanned Samples.info
                          (Samples.desugar (fd_Body Samples.SquareGenerator) Samples.info)))))
       Samples.returning = Done (pop Samples.returning).
Proof.
  split; [vm_compute; reflexivity|].
  destruct (epilogue_saves_or_pops Samples.typeExpr Samples.desugar Samples.trackSpans
              Samples.unnestBlocks Samples.hasType Samples.info Samples.SquareGenerator
              Samples.color)
    as (gen & pre & a & body & _ & _ & _ & _ & _ & Hpop).
  - vm_compute; reflexivity.
  - destruct (Hpop Samples.returning) as [Hrun _]; [reflexivity|exact Hrun].
Defined.


(** A loop with a [break] and nothing else: the gating pass rejects the
    function. *)
Lemma break_at_onlyBreak :
  assignsHaveLhs Samples.onlyBreak = true
  /\ hasStmt Samples.onlyBreak Samples.breakStmt
  /\ bareBreakOrContinue Samples.breakStmt = true
  /\ exists e, gating Samples.onlyBreak Samples.info = Running (Some e).
Proof.
  assert (hasStmt Samples.onlyBreak Samples.breakStmt) as Hin by inList.
  split; [vm_compute; reflexivity|]. split; [exact Hin|]. split; [reflexivity|].
  destruct (break_continue_in_the_two_passes Samples.onlyBreak Samples.info
              Samples.breakStmt) as (Hgating & _).
  - vm_compute; reflexivity.
  - exact Hin.
  - reflexivity.
  - exact Hgating.
Defined.

(** An expression with the two calls [f()] and [g()]. *)
Lemma two_calls_rejected :
  hasExpr Samples.twoCallsFn Samples.twoCalls
  /\ 1 < countFunctionCalls Samples.twoCalls Samples.info
  /\ exists err, unsupported Samples.twoCallsFn Samples.info = Some err.
Proof.
  assert (hasExpr Samples.twoCallsFn Samples.twoCalls) as Hin by inList.
  assert (1 < countFunctionCalls Samples.twoCalls Samples.info) as Hcount
    by (vm_compute; reflexivity).
  split; [exact Hin|]. split; [exact Hcount|].
  destruct (unsupported_calls_and_literals Samples.twoCallsFn Samples.info Samples.twoCalls)
    as (Hrejects & _).
  - exact Hin.
  - left. exact Hcount.
  - exact Hrejects.
Defined.

(** A package whose colored function holds a [defer] and nothing else
    that is rejected. *)
Lemma defer_rejected :
  colorsByDeclOf Samples.colors ∅ = inr (<[1%N := Samples.color]> ∅)
  /\ hasStmt Samples.onlyDefer Samples.deferF
  /\ spec_unconditionallyRejected Samples.deferF = Some "defer"
  /\ compilePackage Samples.typeExpr Samples.desugar Samples.trackSpans
       Samples.unnestBlocks Samples.filepath_Dir Samples.filepath_Join Samples.strconv_Quote Samples.os
       Samples.theCompiler (Samples.packageOf Samples.onlyDefer) Samples.colors
     = ([], Returns (Some "not implemented: defer")).
Proof.
  assert (hasStmt Samples.onlyDefer Samples.deferF) as Hin by inList.
  split; [reflexivity|]. split; [exact Hin|]. split; [reflexivity|].
  destruct (rejected_construct_no_output Samples.typeExpr Samples.desugar
              Samples.trackSpans Samples.unnestBlocks Samples.filepath_Dir
              Samples.filepath_Join Samples.strconv_Quote Samples.os Samples.theCompiler
              (Samples.packageOf Samples.onlyDefer) Samples.colors
              (<[1%N := Samples.color]> ∅) Samples.onlyDefer Samples.color
              Samples.deferF "defer")
    as (_ & (e & Hgating & _ & _ & Hfirst) & _).
  - reflexivity.
  - apply list_elem_of_In. cbn. tauto.
  - vm_compute; reflexivity.
  - vm_compute; reflexivity.
  - exact Hin.
  - reflexivity.
  - assert (e = "not implemented: defer") as ->.
    { assert (gating Samples.onlyDefer Samples.info
              = Running (Some "not implemented: defer")) as Hg by (vm_compute; reflexivity).
      change (p_TypesInfo (Samples.packageOf Samples.onlyDefer)) with Samples.info in Hgating.
      congruence. }
    apply (Hfirst [] []); [reflexivity|constructor].
Defined.

(** The package of the generator: the file handed to the printer holds a
    declaration with the name and the type of the source. *)
Lemma generated_declaration_at_SquareGenerator :
  colorsByDeclOf Samples.colors ∅ = inr (<[1%N := Samples.color]> ∅)
  /\ compilable Samples.desugar Samples.info Samples.SquareGenerator Samples.color = true
  /\ exists gen file,
       compileFunction Samples.typeExpr Samples.desugar Samples.trackSpans
         Samples.unnestBlocks Samples.info Samples.SquareGenerator Samples.color = Some gen
       /\ fd_Name gen = NewIdent "SquareGenerator"
       /\ fd_Type gen = fd_Type Samples.SquareGenerator
       /\ fd_Recv gen = None
       /\ f_Name file = NewIdent "testdata"
       /\ FuncDeclD gen ∈ f_Decls file.
Proof.
  split; [reflexivity|]. split; [vm_compute; reflexivity|].
  destruct (generated_declaration Samples.typeExpr Samples.desugar Samples.trackSpans
              Samples.unnestBlocks Samples.filepath_Dir Samples.filepath_Join Samples.strconv_Quote Samples.os
              Samples.theCompiler (Samples.packageOf Samples.SquareGenerator)
              Samples.colors (<[1%N := Samples.color]> ∅) Samples.SquareGenerator
              Samples.color
              (fst (compilePackage Samples.typeExpr Samples.desugar Samples.trackSpans
                      Samples.unnestBlocks Samples.filepath_Dir Samples.filepath_Join
                      Samples.strconv_Quote Samples.os Samples.theCompiler
                      (Samples.packageOf Samples.SquareGenerator) Samples.colors)))
    as (_ & Hpackage).
  - reflexivity.
  - apply list_elem_of_In. cbn. tauto.
  - vm_compute; reflexivity.
  - destruct Hpackage as (gen & file & Hgen & Hname & Htype & Hrecv & _ & Hfile & Hin).
    + vm_compute; reflexivity.
    + exists gen, file. repeat (split; [done|]). done.
Defined.

(** * Further properties of the compiler *)

(** ** A dispatch block entered with any instruction pointer *)

Section DispatchResume.

Variable unnestBlocks : stmt -> stmt.
Variable spans : gmap addr span.
Variable effect : stmt -> Z -> Z.

Local Abbreviation cases :=
  (dispatchCases unnestBlocks spans (compileStatement unnestBlocks spans)).
Local Abbreviation compiled := (compiled unnestBlocks spans).

(** The statements whose clause is skipped, and the rest. *)
Lemma reached_split (ip : Z) (l : list stmt) :
  exists skipped todo,
    l = skipped ++ todo
    /\ Forall (fun s => end_ (span_at spans s) <= ip) skipped
    /\ (forall s, head todo = Some s -> ip < end_ (span_at spans s)).
Proof.
  induction l as [|s l (skipped & todo & -> & Hall & Hhead)].
  - exists [], []. split; [done|]. split; [constructor|done].
  - destruct (decide (end_ (span_at spans s) <= ip)) as [Hle|Hgt].
    + exists (s :: skipped), todo. split; [done|]. split; [by constructor|done].
    + exists [], (s :: skipped ++ todo). split; [done|]. split; [constructor|].
      intros s' [= <-]. lia.
Qed.

Lemma run_from_pointer (l : list stmt) : forall (n i : Z) (m : machine),
  l <> [] -> i + Z.of_nat (length l) = n ->
  exists m', run_from effect (cases n i l) m = Some m'
             /\ ran m' = ran m ++ map compiled l
             /\ (forall c, l = [c] -> IP m' = effect (compiled c) (IP m))
             /\ (forall before b c, l = before ++ [b; c] ->
                   IP m' = effect (compiled c) (end_ (span_at spans b))).
Proof.
  induction l as [|c0 rest IH]; intros n i m Hne Hlen; [done|].
  cbn [dispatchCases run_from].
  destruct rest as [|c' rest'].
  - assert ((i <? n - 1) = false) as -> by (simpl in Hlen; lia).
    cbn. eexists; split; [done|]. split; [done|]. split.
    + by intros c [= <-].
    + intros before b c H. apply (f_equal length) in H.
      rewrite length_app in H. cbn in H. lia.
  - assert ((i <? n - 1) = true) as -> by (cbn [length] in Hlen; lia).
    cbn [run_body]. rewrite run_tail_bookkeeping. cbv beta iota.
    destruct (IH n (i + 1)
                (MkMachine (end_ (span_at spans c0)) (ran (run_child effect (compiled c0) m))))
      as (m' & Hrun & Hran & Hone & Hmore); [done | cbn [length] in *; lia |].
    exists m'. split; [exact Hrun|]. split; [|split].
    + rewrite Hran. cbn [ran run_child map]. by rewrite <- app_assoc.
    + intros c [=].
    + intros before b c H. destruct before as [|p before'].
      * cbn in H. injection H as <- <- ->. by rewrite (Hone c' eq_refl).
      * cbn in H. injection H as _ H. by apply (Hmore before' b c).
Qed.


End DispatchResume.

(** ** What compilePackage writes *)

Section PackageOutput.

Variable typeExpr : option gotype -> expr.
Variable desugar : stmt -> Info -> stmt.
Variable trackSpans : stmt -> gmap addr span.
Variable unnestBlocks : stmt -> stmt.
Variable filepath_Dir : string -> string.
Variable filepath_Join : string -> string -> string.
Variable strconv_Quote : string -> string.
Variable os : OS.

Local Abbreviation compileFn :=
  (compileFunction typeExpr desugar trackSpans unnestBlocks).
Local Abbreviation compileAll :=
  (compileDecls typeExpr desugar trackSpans unnestBlocks).
Local Abbreviation compilePkg :=
  (compilePackage typeExpr desugar trackSpans unnestBlocks filepath_Dir filepath_Join strconv_Quote os).
Local Abbreviation importDecl :=
  (GenDeclD IMPORT [ImportSpec (BasicLit STRING (Quote coroutinePackage))]).

Local Abbreviation compilesTo :=
  (compilesTo typeExpr desugar trackSpans unnestBlocks).

Lemma coloredDecls_cons (m : gmap addr Signature) (d : Decl) (rest : list Decl) :
  coloredDecls m (d :: rest)
  = match d with
    | FuncDeclD decl =>
        match m !! fd_addr decl with
        | Some color => (decl, color) :: coloredDecls m rest
        | None => coloredDecls m rest
        end
    | GenDeclD _ _ => coloredDecls m rest
    end.
Proof. destruct d as [decl|]; [|done]. unfold coloredDecls. cbn. by destruct (m !! _). Qed.

(** When the loop over the declarations runs to its end, it has appended
    one declaration for every colored function declaration, in order. *)
Lemma compileDecls_exact (p : Package) (m : gmap addr Signature) (decls : list Decl) :
  forall gen out, compileAll p m decls gen = inr out ->
    exists gens, out = gen ++ map FuncDeclD gens
                 /\ Forall2 (compilesTo p) (coloredDecls m decls) gens.
Proof.
  induction decls as [|d rest IH]; intros gen out Hrun; cbn [compileDecls] in Hrun.
  - simplify_eq. exists []. split; [by rewrite app_nil_r|constructor].
  - rewrite coloredDecls_cons. destruct d as [d'|tok specs].
    + destruct (m !! fd_addr d') as [color|] eqn:Hcolor; [|by apply IH].
      destruct (gating d' (p_TypesInfo p)) as [[?|]|] eqn:Hgating; try done.
      destruct (compileFn _ _ _) as [fn'|] eqn:Hfn; [|done].
      destruct (IH _ _ Hrun) as (gens & -> & Hall).
      exists (fn' :: gens). split; [by rewrite <- app_assoc|].
      constructor; [done|exact Hall].
    + by apply IH.
Qed.

(** The events of [writeOutput]. *)
Lemma writeOutput_events (c : compiler) (p : Package) (file : File)
    (events : list event) (out : outcome) :
  writeOutput filepath_Dir filepath_Join strconv_Quote os c p file = (events, out) ->
  events <> [] ->
  exists goFile,
    head (p_GoFiles p) = Some goFile
    /\ head events
       = Some (EvCreate (filepath_Join (filepath_Dir goFile) (outputFilename c))).
Proof.
  unfold writeOutput. destruct (p_GoFiles p) as [|goFile rest]; [by intros [= <- _]|].
  intros H _. exists goFile. split; [done|].
  repeat case_match; by simplify_eq.
Qed.

Lemma colorsByDeclOf_failure (colors : list (ssaFunction * Signature)) :
  forall acc fn color,
    (fn, color) ∈ colors -> (forall decl, fn_Syntax fn <> SynFuncDecl decl) ->
    exists fn' color',
      (fn', color') ∈ colors
      /\ (forall decl, fn_Syntax fn' <> SynFuncDecl decl)
      /\ colorsByDeclOf colors acc
         = inl ("unsupported yield function " ++ fn_String fn' ++ " (Syntax is "
                ++ syntaxT (fn_Syntax fn') ++ ", not *ast.FuncDecl)")%string.
Proof.
  induction colors as [|[fn0 color0] rest IH]; intros acc fn color Hin Hsyn.
  - by apply elem_of_nil in Hin.
  - cbn [colorsByDeclOf].
    destruct (fn_Syntax fn0) as [decl| |] eqn:Hfn0.
    + apply elem_of_cons in Hin as [[= -> ->]|Hin]; [by destruct (Hsyn decl)|].
      destruct (IH (<[decl := color0]> acc) fn color Hin Hsyn)
        as (fn' & color' & Hin' & Hsyn' & Hrun).
      exists fn', color'. split; [by apply elem_of_cons; right|done].
    + exists fn0, color0. split; [apply elem_of_cons; by left|].
      rewrite Hfn0. split; [done|]. reflexivity.
    + exists fn0, color0. split; [apply elem_of_cons; by left|].
      rewrite Hfn0. split; [done|]. reflexivity.
Qed.

(** X2 (what a successful compilePackage has written).  When
    [compilePackage] returns [nil], the colors were all of function
    declarations, every colored function declaration of the package has
    passed the gating pass and has been compiled, and the file system
    has seen, in this order: the creation of the file named by the
    output file name in the directory of the first Go file of the
    package, the header, the printing of a file of the package's name
    that holds the import of the coroutine package followed by exactly
    the compiled colored functions in the order of their declarations,
    and two closes (the explicit one and the deferred one). *)
Theorem compilePackage_success (c : compiler) (p : Package)
    (colors : list (ssaFunction * Signature)) (events : list event) :
  compilePkg c p colors = (events, Returns None) ->
  exists colorsByDecl goFile gens,
    colorsByDeclOf colors ∅ = inr colorsByDecl
    /\ head (p_GoFiles p) = Some goFile
    /\ Forall2 (compilesTo p)
         (coloredDecls colorsByDecl (concat (map f_Decls (p_Syntax p)))) gens
    /\ events = [EvCreate (filepath_Join (filepath_Dir goFile) (outputFilename c));
                 EvWriteString (header c);
                 EvFormatNode (MkFile (NewIdent (p_Name p))
                                 (importDecl :: map FuncDeclD gens));
                 EvClose; EvClose].
Proof.
  unfold compilePackage. intros Hrun.
  destruct (colorsByDeclOf colors ∅) as [err|colorsByDecl]; [done|].
  destruct (compileAll p colorsByDecl _ _) as [out|decls] eqn:Hdecls.
  { injection Hrun as _ ->. by apply compileDecls_early in Hdecls. }
  destruct (compileDecls_exact _ _ _ _ _ Hdecls) as (gens & -> & Hall).
  unfold writeOutput in Hrun.
  destruct (p_GoFiles p) as [|goFile rest]; [done|].
  exists colorsByDecl, goFile, gens. split; [done|]. split; [done|]. split; [done|].
  repeat case_match; by simplify_eq.
Qed.

(** X3 (no output before every colored function is compiled).  Whenever
    [compilePackage] touches the file system at all, whether it then
    succeeds or fails, every colored function declaration of the package
    has passed the gating pass and has been compiled without panic; the
    first effect is the creation of the output file.  So a package in
    which one colored function is rejected, for whatever reason, leaves
    an output file of an earlier run as it was. *)
Theorem output_only_after_all_compiled (c : compiler) (p : Package)
    (colors : list (ssaFunction * Signature)) :
  fst (compilePkg c p colors) <> [] ->
  exists colorsByDecl goFile gens,
    colorsByDeclOf colors ∅ = inr colorsByDecl
    /\ head (p_GoFiles p) = Some goFile
    /\ Forall2 (compilesTo p)
         (coloredDecls colorsByDecl (concat (map f_Decls (p_Syntax p)))) gens
    /\ head (fst (compilePkg c p colors))
       = Some (EvCreate (filepath_Join (filepath_Dir goFile) (outputFilename c))).
Proof.
  unfold compilePackage.
  destruct (colorsByDeclOf colors ∅) as [err|colorsByDecl]; [done|].
  destruct (compileAll p colorsByDecl _ _) as [out|decls] eqn:Hdecls; [done|].
  destruct (compileDecls_exact _ _ _ _ _ Hdecls) as (gens & -> & Hall).
  intros Hev.
  destruct (writeOutput _ _ _ _ _ _) as [events out] eqn:Hw.
  destruct (writeOutput_events _ _ _ _ _ Hw Hev) as (goFile & Hgo & Hhead).
  exists colorsByDecl, goFile, gens. done.
Qed.

(** X4 (the output file is closed).  On every path of [compilePackage]
    the effects on the file system are: none at all; or the one failed
    creation of the output file, whose error is returned with the path
    as [strconv.Quote] renders it (the verb [%q]);
    or the creation of the file followed by writes and ended by a close,
    also when writing the header or printing the tree fails. *)
Theorem output_file_is_closed (c : compiler) (p : Package)
    (colors : list (ssaFunction * Signature)) :
  fst (compilePkg c p colors) = []
  \/ (exists path err,
        os_Create os path = Some err
        /\ compilePkg c p colors
           = ([EvCreate path],
              Returns (Some ("os.Create " ++ strconv_Quote path ++ ": " ++ err)%string)))
  \/ (exists path writes,
        os_Create os path = None
        /\ fst (compilePkg c p colors) = EvCreate path :: writes ++ [EvClose]
        /\ Forall (fun ev => match ev with EvCreate _ => False | _ => True end) writes).
Proof.
  unfold compilePackage.
  destruct (colorsByDeclOf colors ∅) as [err|colorsByDecl]; [by left|].
  destruct (compileAll p colorsByDecl _ _) as [out|decls]; [by left|].
  unfold writeOutput.
  destruct (p_GoFiles p) as [|goFile rest]; [by left|]. cbv zeta.
  destruct (os_Create os _) as [err|] eqn:Hcreate.
  { right. left. eexists _, err. done. }
  right. right. eexists _. 
  destruct (file_WriteString os _).
  { exists [EvWriteString (header c)]. split; [done|]. split; [done|].
    repeat constructor. }
  destruct (format_Node os _).
  { eexists [EvWriteString (header c); EvFormatNode _]. split; [done|]. split; [done|].
    repeat constructor. }
  eexists [EvWriteString (header c); EvFormatNode _; EvClose].
  split; [done|]. split; [done|]. repeat constructor.
Qed.

(** X5 (a colored function that is not a function declaration).  When
    the syntax of one of the colored functions is not a function
    declaration (a function literal, or no syntax at all),
    [compilePackage] returns the "unsupported yield function" error of
    such a function, which names the function and the type of its syntax,
    whatever the order in which Go ranges over the colors; no function is
    compiled and the file system is not touched. *)
Theorem yield_function_without_declaration (c : compiler) (p : Package)
    (colors : list (ssaFunction * Signature)) (fn : ssaFunction) (color : Signature) :
  (fn, color) ∈ colors -> (forall decl, fn_Syntax fn <> SynFuncDecl decl) ->
  exists fn' color',
    (fn', color') ∈ colors
    /\ (forall decl, fn_Syntax fn' <> SynFuncDecl decl)
    /\ compilePkg c p colors
       = ([], Returns (Some ("unsupported yield function " ++ fn_String fn'
                             ++ " (Syntax is " ++ syntaxT (fn_Syntax fn')
                             ++ ", not *ast.FuncDecl)")%string)).
Proof.
  intros Hin Hsyn.
  destruct (colorsByDeclOf_failure colors ∅ fn color Hin Hsyn)
    as (fn' & color' & Hin' & Hsyn' & Hrun).
  exists fn', color'. split; [done|]. split; [done|].
  unfold compilePackage. by rewrite Hrun.
Qed.

End PackageOutput.

(** ** What the gating pass guarantees *)

Lemma gatingVisit_nil (info : Info) (st : gating_state) :
  fst (gatingVisit info None st) = st.
Proof. by destruct st. Qed.

(** An inspection by the gating closure that ends without error and
    without panic has started without error and has assigned no error at
    any node of the tree. *)
Lemma gating_accepts_nodes (info : Info) (t : tree) : forall st,
  Inspect (gatingVisit info) t st = Running None ->
  st = Running None
  /\ Forall (fun n => match n with
                      | NStmt s => gatingStmt info s = Some None
                      | _ => True
                      end) (nodes t).
Proof.
  induction t as [n children IH] using tree_ind'. intros st Hrun.
  cbn [Inspect] in Hrun. rewrite nodes_Tree.
  assert (forall st0,
    fold_left (fun acc child => Inspect (gatingVisit info) child acc) children st0
    = Running None ->
    st0 = Running None
    /\ Forall (fun n => match n with
                        | NStmt s => gatingStmt info s = Some None
                        | _ => True
                        end) (concat (map nodes children))) as Hfold.
  { clear Hrun. induction IH as [|c rest Hc Hrest IHrest]; intros st0 H0.
    - cbn in *. split; [done|constructor].
    - cbn [fold_left map concat] in *.
      destruct (IHrest _ H0) as [H1 Hall2].
      destruct (Hc _ H1) as [-> Hall1].
      split; [done|]. by apply Forall_app. }
  destruct st as [err|]; [|done].
  destruct n as [e|s|f|l|tok specs|sp|]; cbn [gatingVisit] in Hrun;
    try (rewrite gatingVisit_nil in Hrun;
         destruct (Hfold _ Hrun) as [[= ->] Hall]; split; [done|by constructor]).
  destruct (gatingStmt info s) as [new|] eqn:Hs; [|done].
  cbn zeta in Hrun. case_bool_decide as Herr.
  - rewrite gatingVisit_nil in Hrun. destruct (Hfold _ Hrun) as [_ Hall].
    apply assignErr_None in Herr as [-> ->]. split; [done|]. by constructor.
  - congruence.
Qed.

(** The nodes of the body are nodes of the declaration. *)
Lemma body_nodes (decl : FuncDecl) (n : node) :
  n ∈ nodes (walkStmt (fd_Body decl)) -> n ∈ nodes (walkFuncDecl decl).
Proof.
  intros Hn. unfold walkFuncDecl. rewrite nodes_Tree, map_app, concat_app.
  cbn [map concat]. rewrite app_nil_r.
  apply elem_of_cons. right. apply elem_of_app. right.
  apply elem_of_app. right. apply elem_of_app. by right.
Qed.

(** X6 (what an accepted function looks like).  In a function that the
    gating pass of [compilePackage] lets through, every assignment has
    exactly one target, which is an identifier, and exactly one value;
    so the type assertion of the first target to an identifier, with
    which [compileFunction] scans the variables, cannot fail on the body
    as it was checked. *)
Theorem accepted_assignments_are_simple (decl : FuncDecl) (info : Info) :
  gating decl info = Running None ->
  (forall a lhs tok rhs, hasStmt decl (AssignStmt a lhs tok rhs) ->
     exists name value, lhs = [Ident name] /\ rhs = [value])
  /\ assignTargetsAreIdents (fd_Body decl) = true
  /\ is_Some (scanVariables info (fd_Body decl)).
Proof.
  intros Hrun. apply gating_accepts_nodes in Hrun as [_ Hall].
  rewrite Forall_forall in Hall.
  assert (forall a lhs tok rhs, hasStmt decl (AssignStmt a lhs tok rhs) ->
            exists name value, lhs = [Ident name] /\ rhs = [value]) as Hsimple.
  { intros a lhs tok rhs Hs. specialize (Hall _ Hs). cbn in Hall.
    destruct lhs as [|[] [|]]; try done; cbn in Hall;
      destruct rhs as [|? [|]]; try done. eauto. }
  split; [exact Hsimple|].
  assert (assignTargetsAreIdents (fd_Body decl) = true) as Hids.
  { unfold assignTargetsAreIdents. apply forallb_forall. intros n Hn.
    apply list_elem_of_In in Hn.
    destruct n as [|s| | | | |]; try done. destruct s; try done.
    match goal with
    | H : NStmt (AssignStmt ?a ?lhs ?tok ?rhs) ∈ _ |- _ =>
        destruct (Hsimple a lhs tok rhs) as (name & value & -> & ->); [|done]
    end.
    by apply body_nodes. }
  split; [exact Hids|].
  rewrite (scanVariables_spec info (fd_Body decl) Hids). done.
Qed.

(** A statement at which the gating pass assigns no error is assigned no
    error by [unsupported] either. *)
Lemma gatingStmt_unsupportedStmt (info : Info) (s : stmt) :
  gatingStmt info s = Some None -> unsupportedStmt s = None.
Proof.
  destruct s; cbn; try done; repeat case_match; try done.
  by intros [= ->].
Qed.

(** X7 (the gating pass is the stricter pass on statements).  A function
    that the gating pass of [compilePackage] lets through has no
    statement at which [unsupported] assigns an error: [unsupported] can
    reject it only for an expression, with the error of a function
    literal or of several calls in one expression, and it accepts it when
    no expression of it is rejected. *)
Theorem accepted_functions_fail_only_on_expressions (decl : FuncDecl) (info : Info) :
  gating decl info = Running None ->
  (forall s, hasStmt decl s -> unsupportedStmt s = None)
  /\ (forall err, unsupported decl info = Some err ->
        err = "not implemented: func literals"
        \/ err = "not implemented: multiple function calls in an expression")
  /\ ((forall e, hasExpr decl e -> unsupportedExpr info e = None) ->
      unsupported decl info = None).
Proof.
  intros Hrun. apply gating_accepts_nodes in Hrun as [_ Hall].
  rewrite Forall_forall in Hall.
  assert (forall s, hasStmt decl s -> unsupportedStmt s = None) as Hstmts.
  { intros s Hs. apply (gatingStmt_unsupportedStmt info). exact (Hall _ Hs). }
  destruct (unsupported_spec decl info) as [Hnone Hsome].
  split; [exact Hstmts|]. split.
  - intros err Herr. destruct (Hsome err Herr) as (n & Hn & Hcheck).
    destruct n as [e|s| | | | |]; try done.
    + cbn in Hcheck. unfold unsupportedExpr in Hcheck.
      repeat case_match; simplify_eq; auto.
    + cbn in Hcheck. by rewrite (Hstmts s Hn) in Hcheck.
  - intros Hexprs. apply Hnone. apply Forall_forall. intros n Hn.
    destruct n as [e|s| | | | |]; try done; cbn; auto.
Qed.

(** ** countFunctionCalls, part by part *)

Lemma holdsWalks_children (children : list tree) (e' : expr) :
  Forall holdsWalks children ->
  NExpr e' ∈ concat (map nodes children) ->
  exists pre post, concat (map nodes children) = pre ++ nodes (walkExpr e') ++ post.
Proof.
  induction 1 as [|c rest Hc Hrest IH]; cbn [map concat]; intros Hin.
  - by apply elem_of_nil in Hin.
  - apply elem_of_app in Hin as [Hin|Hin].
    + destruct (Hc e' Hin) as (pre & post & ->).
      exists pre, (post ++ concat (map nodes rest)). by rewrite <- !app_assoc.
    + destruct (IH Hin) as (pre & post & ->).
      exists (nodes c ++ pre), post. by rewrite <- !app_assoc.
Qed.

Lemma holdsWalks_Tree (n : node) (children : list tree) :
  Forall holdsWalks children ->
  (forall e', n = NExpr e' -> walkExpr e' = Tree n children) ->
  holdsWalks (Tree n children).
Proof.
  intros Hall Hroot e' Hin. rewrite nodes_Tree in Hin.
  apply elem_of_cons in Hin as [Heq|Hin].
  - exists [], []. rewrite (Hroot e' (eq_sym Heq)). by rewrite app_nil_r.
  - rewrite nodes_Tree.
    destruct (holdsWalks_children children e' Hall Hin) as (pre & post & ->).
    by exists (n :: pre), post.
Qed.

Lemma holdsWalks_map {A} (walk : A -> tree) (l : list A) :
  Forall (fun x => holdsWalks (walk x)) l -> Forall holdsWalks (map walk l).
Proof. intros H. by apply Forall_map. Qed.

Lemma holdsWalks_opt {A} (walk : A -> tree) (o : option A) :
  from_option (fun x => holdsWalks (walk x)) True o -> Forall holdsWalks (walkOpt walk o).
Proof. destruct o; cbn; intros H; [by repeat constructor|constructor]. Qed.

Lemma holdsWalks_ident (id : ident) : holdsWalks (walkIdent id).
Proof. apply holdsWalks_Tree; [constructor|]. by intros e' [= <-]. Qed.

Lemma holdsWalks_idents (names : list ident) : Forall holdsWalks (map walkIdent names).
Proof. apply Forall_map, Forall_forall. intros id _. apply holdsWalks_ident. Qed.

Lemma holdsWalks_fields (o : option (list field)) :
  from_option (Forall (fun f => holdsWalks (walkField f))) True o ->
  Forall holdsWalks
    match o with
    | Some l => [Tree (NFieldList l) (map walkField l)]
    | None => []
    end.
Proof.
  destruct o as [l|]; cbn; intros H; [|constructor].
  repeat constructor. apply holdsWalks_Tree; [by apply Forall_map|done].
Qed.

Local Ltac walksChildren :=
  repeat first
    [ apply Forall_nil_2
    | apply Forall_app_2
    | apply Forall_cons_2
    | by apply holdsWalks_map
    | by apply holdsWalks_opt
    | by apply holdsWalks_fields
    | apply holdsWalks_idents
    | apply holdsWalks_ident
    | assumption ].

Lemma holdsWalks_all :
  (forall e, holdsWalks (walkExpr e)) /\ (forall s, holdsWalks (walkStmt s)).
Proof.
  apply ast_induction with
    (Pp := fun sp => holdsWalks (walkSpec sp))
    (Pf := fun f => holdsWalks (walkField f));
    intros;
    match goal with
    | |- holdsWalks (_ ?x) =>
        first [rewrite (walkExpr_eq x) | rewrite (walkStmt_eq x)
              | rewrite (walkSpec_eq x) | rewrite (walkField_eq x)];
        cbv beta match;
        apply holdsWalks_Tree;
        [ walksChildren
        | try done; intros e' [= <-]; rewrite (walkExpr_eq _) at 1; reflexivity ]
    end.
  - apply holdsWalks_Tree; [by apply Forall_map|done].
  - destruct label; cbn; walksChildren.
Qed.

Lemma counted_concat (info : Info) (args : list expr) :
  Z.of_nat (length (filter (fun n => countedCall info n = true)
                      (concat (map nodes (map walkExpr args)))))
  = foldr (fun a acc => countFunctionCalls a info + acc) 0 args.
Proof.
  induction args as [|a args IH]; [done|].
  cbn [map concat foldr]. rewrite filter_app, length_app, Nat2Z.inj_add, IH.
  by rewrite countFunctionCalls_spec.
Qed.

(** X8 (the count of calls, part by part).  The number that
    [countFunctionCalls] gives for an expression is never negative; for a
    call it is the count of the callee plus the counts of the arguments,
    plus one unless the call is left out of the count; for a binary
    expression it is the sum of the counts of the operands; and it is at
    least the count of every expression inside it.  So when [unsupported]
    rejects an expression for several calls, it rejects every expression
    around it for the same reason. *)
Theorem countFunctionCalls_by_parts (info : Info) :
  (forall e, 0 <= countFunctionCalls e info)
  /\ (forall f args,
        countFunctionCalls (CallExpr f args) info
        = (if skipCall info f then 0 else 1) + countFunctionCalls f info
          + foldr (fun a acc => countFunctionCalls a info + acc) 0 args)
  /\ (forall x op y,
        countFunctionCalls (BinaryExpr x op y) info
        = countFunctionCalls x info + countFunctionCalls y info)
  /\ (forall e e', NExpr e' ∈ nodes (walkExpr e) ->
        countFunctionCalls e' info <= countFunctionCalls e info
        /\ (unsupportedExpr info e'
            = Some "not implemented: multiple function calls in an expression" ->
            unsupportedExpr info e
            = Some "not implemented: multiple function calls in an expression")).
Proof.
  split; [intros e; rewrite countFunctionCalls_spec; lia|].
  split; [|split].
  - intros f args. rewrite (countFunctionCalls_spec (CallExpr f args)).
    rewrite walkExpr_eq, nodes_Tree. cbn [map concat].
    rewrite filter_cons, filter_app.
    rewrite <- counted_concat, (countFunctionCalls_spec f).
    case_decide as Hc; unfold countedCall in Hc;
      destruct (skipCall info f); cbn in Hc; try done;
      cbn [length]; rewrite ?length_app; lia.
  - intros x op y. rewrite (countFunctionCalls_spec (BinaryExpr x op y)).
    rewrite walkExpr_eq, nodes_Tree. cbn [map concat].
    rewrite filter_cons, !filter_app, app_nil_r.
    rewrite (countFunctionCalls_spec x), (countFunctionCalls_spec y).
    case_decide; [done|]. rewrite length_app. lia.
  - intros e e' Hin.
    assert (countFunctionCalls e' info <= countFunctionCalls e info) as Hle.
    { destruct holdsWalks_all as [Hwalks _].
      destruct (Hwalks e e' Hin) as (pre & post & Heq).
      rewrite !countFunctionCalls_spec, Heq, !filter_app, !length_app. lia. }
    split; [exact Hle|].
    unfold unsupportedExpr.
    destruct (Z.ltb_spec 1 (countFunctionCalls e' info)) as [Hmany|Hfew].
    + intros _. destruct (Z.ltb_spec 1 (countFunctionCalls e info)); [done|lia].
    + destruct e'; done.
Qed.

(** ** flattenPackages *)

Section Flatten.

Variable heap : gmap pkgptr (list pkgptr).
Hypothesis heap_closed : closedHeap heap = true.
Variable rangeSeen : gset pkgptr -> list pkgptr.
Hypothesis rangeSeen_elements : forall seen, rangeSeen seen ≡ₚ elements seen.

Local Abbreviation step fuel :=
  (fun acc child =>
     match acc with
     | Ended seen' => flattenPackages0 fuel heap seen' child
     | other => other
     end).

Lemma validPackages_spec (l : list pkgptr) :
  validPackages heap l = true <-> forall p, p ∈ l -> p ∈ dom heap.
Proof.
  unfold validPackages. rewrite forallb_forall. split.
  - intros H p Hp. apply elem_of_dom. apply list_elem_of_In in Hp.
    specialize (H p Hp). by apply bool_decide_eq_true in H.
  - intros H p Hp. apply bool_decide_eq_true. apply elem_of_dom, H.
    by apply list_elem_of_In.
Qed.

Lemma imports_valid (p q : pkgptr) : imports heap p q -> q ∈ dom heap.
Proof.
  intros (l & Hl & Hq). unfold closedHeap in heap_closed.
  rewrite forallb_forall in heap_closed.
  specialize (heap_closed (p, l)). cbn in heap_closed.
  apply validPackages_spec with (p := q) in heap_closed; [done| |done].
  apply list_elem_of_In. by apply elem_of_map_to_list.
Qed.

Lemma grows_loop (fuel : nat) :
  (forall seen p, p ∈ dom heap -> (size (dom heap ∖ seen) < fuel)%nat ->
     exists seen', flattenPackages0 fuel heap seen p = Ended seen'
                   /\ grows heap [p] seen seen') ->
  forall l seen, (forall p, p ∈ l -> p ∈ dom heap) ->
    (size (dom heap ∖ seen) < fuel)%nat ->
    exists seen', fold_left (step fuel) l (Ended seen) = Ended seen'
                  /\ grows heap l seen seen'.
Proof.
  intros Hcall. induction l as [|c rest IH]; intros seen Hvalid Hsize.
  - exists seen. split; [done|]. unfold grows. set_solver.
  - destruct (Hcall seen c) as (seen1 & Hrun1 & Hsub1 & Hin1 & Hreach1 & Hclosed1);
      [apply Hvalid; set_solver | done |].
    destruct (IH seen1) as (seen' & Hrun & Hsub & Hin & Hreach & Hclosed).
    { intros p Hp. apply Hvalid. set_solver. }
    { eapply Nat.le_lt_trans; [|exact Hsize]. apply subseteq_size. set_solver. }
    exists seen'. cbn [fold_left]. rewrite Hrun1. split; [exact Hrun|].
    split; [set_solver|]. split; [|split].
    + intros p Hp. apply elem_of_cons in Hp as [->|Hp]; [|by apply Hin].
      apply Hsub, Hin1. set_solver.
    + intros x Hx Hnot. destruct (decide (x ∈ seen1)) as [Hx1|Hx1].
      * destruct (Hreach1 x Hx1 Hnot) as (p & Hp & Hrtc).
        exists p. split; [set_solver|done].
      * destruct (Hreach x Hx Hx1) as (p & Hp & Hrtc).
        exists p. split; [set_solver|done].
    + intros x y Hx Hnot Hxy. destruct (decide (x ∈ seen1)) as [Hx1|Hx1].
      * apply Hsub. by apply (Hclosed1 x y).
      * by apply (Hclosed x y).
Qed.

Lemma grows_call (fuel : nat) : forall seen p,
  p ∈ dom heap -> (size (dom heap ∖ seen) < fuel)%nat ->
  exists seen', flattenPackages0 fuel heap seen p = Ended seen'
                /\ grows heap [p] seen seen'.
Proof.
  induction fuel as [|fuel IH]; intros seen p Hp Hsize; [lia|].
  cbn [flattenPackages0]. destruct (decide (p ∈ seen)) as [Hseen|Hnew].
  - exists seen. split; [done|]. unfold grows. set_solver.
  - apply elem_of_dom in Hp as Hl. destruct Hl as [l Hl]. rewrite Hl.
    assert (size (dom heap ∖ ({[p]} ∪ seen)) < fuel)%nat as Hsize1.
    { assert (dom heap ∖ seen ≡ {[p]} ∪ dom heap ∖ ({[p]} ∪ seen)) as Heq.
      { apply set_equiv. intros x. destruct (decide (x = p)); set_solver. }
      rewrite Heq, size_union, size_singleton in Hsize by set_solver. lia. }
    destruct (grows_loop fuel IH l ({[p]} ∪ seen))
      as (seen' & Hrun & Hsub & Hin & Hreach & Hclosed); [|done|].
    { intros q Hq. apply (imports_valid p). by exists l. }
    exists seen'. split; [exact Hrun|]. split; [set_solver|]. split; [|split].
    + intros q Hq. apply Hsub. set_solver.
    + intros x Hx Hnot. exists p. split; [set_solver|].
      destruct (decide (x = p)) as [->|Hne]; [done|].
      destruct (Hreach x Hx) as (c & Hc & Hrtc); [set_solver|].
      eapply rtc_l; [|exact Hrtc]. by exists l.
    + intros x y Hx Hnot Hxy. destruct (decide (x = p)) as [->|Hne].
      * destruct Hxy as (l' & Hl' & Hy). rewrite Hl in Hl'. injection Hl' as <-.
        by apply Hin.
      * apply (Hclosed x y); [done|set_solver|done].
Qed.

(** X9 (flattenPackages).  For packages on a heap on which every import
    of a package is a package again, and in whatever order Go ranges over
    the set of the packages seen, [flattenPackages] returns, given a fuel
    above the number of packages, a slice without duplicates that holds
    exactly the packages that can be reached from the given ones through
    imports, the given ones included; it ends on graphs with import
    cycles too, and a package given twice or imported along several
    paths appears once. *)
Theorem flattenPackages_reachable (pp : list pkgptr) (fuel : nat) :
  validPackages heap pp = true ->
  (size heap < fuel)%nat ->
  exists flattened,
    flattenPackages rangeSeen fuel heap pp = Ended flattened
    /\ NoDup flattened
    /\ forall q, q ∈ flattened <-> exists p, p ∈ pp /\ rtc (imports heap) p q.
Proof.
  intros Hvalid Hfuel. rewrite validPackages_spec in Hvalid.
  destruct (grows_loop fuel (grows_call fuel) pp ∅ Hvalid)
    as (seen & Hrun & _ & Hin & Hreach & Hclosed).
  { eapply Nat.le_lt_trans; [|exact Hfuel].
    rewrite <- size_dom. apply subseteq_size. set_solver. }
  exists (rangeSeen seen). unfold flattenPackages. rewrite Hrun.
  split; [done|]. split; [rewrite rangeSeen_elements; apply NoDup_elements|].
  intros q. rewrite rangeSeen_elements, elem_of_elements. split.
  - intros Hq. apply Hreach; [done|set_solver].
  - intros (p & Hp & Hrtc). apply Hin in Hp.
    induction Hrtc as [x|x y z Hxy _ IH]; [done|].
    apply IH. apply (Hclosed x y); [done|set_solver|done].
Qed.

End Flatten.

(** * The serialization library *)

(** ** assignPointerID *)

(** The map of a serializer numbers the pointers it holds from 1 on
    without gaps and without giving a number twice. *)
Lemma int64_small (z : Z) : - 2 ^ 63 <= z < 2 ^ 63 -> types.int64 z = z.
Proof. intros H. unfold types.int64. rewrite Z.mod_small; lia. Qed.

Lemma size_list_to_set_le (l : list N) :
  (size (list_to_set (C := gset N) l) <= length l)%nat.
Proof.
  induction l as [|x l IH]; cbn [list_to_set length]; [by rewrite size_empty|].
  rewrite size_union_alt, size_singleton.
  assert (size (list_to_set (C := gset N) l ∖ {[x]}) <= size (list_to_set (C := gset N) l))%nat
    by (apply subseteq_size; set_solver).
  lia.
Qed.

Lemma assignPointerIDs_snoc (ps : list types.pointer) (p : types.pointer) :
  types.assignPointerIDs (ps ++ [p])
  = (fst (types.assignPointerID (fst (types.assignPointerIDs ps)) p),
     snd (types.assignPointerIDs ps)
     ++ [snd (types.assignPointerID (fst (types.assignPointerIDs ps)) p)]).
Proof.
  unfold types.assignPointerIDs. rewrite fold_left_app. cbn [fold_left].
  by destruct (types.assignPointerID _ p).
Qed.

(** X12 (the numbering of pointers).  On a fresh serializer, after any
    run of calls of [assignPointerID] (fewer than 2^63 - 1 of them), the
    map holds exactly the pointers that were passed; their IDs are the
    numbers from 1 to the size of the map, each given to one pointer
    only; every call has returned the ID that its pointer has at the end
    of the run, so the ID of a pointer never changes; and a call has
    answered [true] exactly when its pointer had not been passed
    before. *)
Theorem assignPointerID_numbers (ps : list types.pointer)
    (ptrs : gmap types.pointer types.sID) (out : list (types.sID * bool)) :
  Z.of_nat (length ps) < 2 ^ 63 - 1 ->
  types.assignPointerIDs ps = (ptrs, out) ->
  (forall p, is_Some (ptrs !! p) <-> p ∈ ps)
  /\ (forall p id, ptrs !! p = Some id -> 1 <= id <= Z.of_nat (size ptrs))
  /\ (forall id, 1 <= id <= Z.of_nat (size ptrs) -> exists p, ptrs !! p = Some id)
  /\ (forall p q id, ptrs !! p = Some id -> ptrs !! q = Some id -> p = q)
  /\ length out = length ps
  /\ (forall i p id fresh, ps !! i = Some p -> out !! i = Some (id, fresh) ->
        ptrs !! p = Some id /\ (fresh = true <-> p ∉ take i ps)).
Proof.
  revert ptrs out. induction ps as [|p ps IH] using rev_ind; intros ptrs out Hlen Hrun.
  - injection Hrun as <- <-. split; [|split; [|split; [|split; [|split]]]]; try done.
    + intros p. rewrite lookup_empty. split; [by intros [? ?]|by intros ?%elem_of_nil].
    + intros id. rewrite map_size_empty. lia.
  - rewrite assignPointerIDs_snoc in Hrun.
    destruct (types.assignPointerIDs ps) as [ptrs0 out0] eqn:Hps.
    rewrite length_app in Hlen. cbn in Hlen.
    destruct (IH ptrs0 out0 ltac:(lia) eq_refl)
      as (Hdom & Hrange & Hall & Hinj & Hout & Hcalls).
    assert (size ptrs0 <= length ps)%nat as Hsize.
    { rewrite <- size_dom.
      assert (dom ptrs0 ⊆ list_to_set ps) as Hsub.
      { intros x Hx. apply elem_of_list_to_set, Hdom. by apply elem_of_dom. }
      apply subseteq_size in Hsub. etrans; [exact Hsub|].
      apply size_list_to_set_le. }
    cbn [fst snd] in Hrun. unfold types.assignPointerID in Hrun.
    destruct (ptrs0 !! p) as [id0|] eqn:Hp; cbn [fst snd] in Hrun;
      injection Hrun as <- <-.
    + (* a pointer passed before *)
      split; [|split; [|split; [|split; [|split]]]]; try done.
      * intros q. rewrite Hdom, elem_of_app, list_elem_of_singleton.
        split; [tauto|]. intros [?| ->]; [done|]. apply Hdom. eauto.
      * rewrite !length_app. cbn. lia.
      * intros i q id fresh Hi Ho.
        destruct (decide (i < length ps)%nat) as [Hlt|Hge].
        -- rewrite lookup_app_l in Hi by done.
           rewrite lookup_app_l in Ho by lia.
           rewrite take_app_le by lia. by apply Hcalls.
        -- assert (i = length ps) as ->.
           { apply lookup_lt_Some in Hi. rewrite length_app in Hi. cbn in Hi. lia. }
           rewrite list_lookup_middle in Hi by done. injection Hi as <-.
           rewrite <- Hout, list_lookup_middle in Ho by done. injection Ho as <- <-.
           split; [done|]. rewrite take_app_length.
           split; [done|]. intros Hnot. destruct Hnot. apply Hdom. eauto.
    + (* a new pointer *)
      rewrite int64_small by lia.
      assert (p ∉ ps) as Hnew.
      { intros Hin. apply Hdom in Hin as [? Hin]. by pose proof (eq_trans (eq_sym Hp) Hin). }
      rewrite (map_size_insert_None _ _ _ Hp).
      split; [|split; [|split; [|split; [|split]]]].
      * intros q. rewrite elem_of_app, list_elem_of_singleton, <- Hdom.
        destruct (decide (q = p)) as [->|Hne].
        -- rewrite lookup_insert_eq. split; [tauto|eauto].
        -- rewrite lookup_insert_ne by done. split; [tauto|]. intros [?|?]; done.
      * intros q id. destruct (decide (q = p)) as [->|Hne].
        -- rewrite lookup_insert_eq. intros [= <-]. lia.
        -- rewrite lookup_insert_ne by done. intros Hq.
           specialize (Hrange q id Hq). lia.
      * intros id Hid. destruct (decide (id = Z.of_nat (size ptrs0) + 1)) as [->|Hne].
        -- exists p. by rewrite lookup_insert_eq.
        -- destruct (Hall id) as [q Hq]; [lia|]. exists q.
           rewrite lookup_insert_ne; [done|]. intros ->. by pose proof (eq_trans (eq_sym Hp) Hq).
      * intros q1 q2 id.
        destruct (decide (q1 = p)) as [->|Hne1]; destruct (decide (q2 = p)) as [->|Hne2];
          rewrite ?lookup_insert_eq, ?lookup_insert_ne by done; try done.
        -- intros [= <-] Hq. specialize (Hrange _ _ Hq). lia.
        -- intros Hq [= <-]. specialize (Hrange _ _ Hq). lia.
        -- apply Hinj.
      * rewrite !length_app. cbn. lia.
      * intros i q id fresh Hi Ho.
        destruct (decide (i < length ps)%nat) as [Hlt|Hge].
        -- rewrite lookup_app_l in Hi by done.
           rewrite lookup_app_l in Ho by lia.
           rewrite take_app_le by lia.
           destruct (Hcalls i q id fresh Hi Ho) as [Hq Hfresh].
           split; [|done]. rewrite lookup_insert_ne; [done|]. intros ->. by pose proof (eq_trans (eq_sym Hp) Hq).
        -- assert (i = length ps) as ->.
           { apply lookup_lt_Some in Hi. rewrite length_app in Hi. cbn in Hi. lia. }
           rewrite list_lookup_middle in Hi by done. injection Hi as <-.
           rewrite <- Hout, list_lookup_middle in Ho by done. injection Ho as <- <-.
           rewrite lookup_insert_eq. split; [done|].
           by rewrite take_app_length.
Qed.

(** ** store *)

Lemma stores_cons (i : types.sID) (p : types.pointer) (ops : list (types.sID * types.pointer))
    (ptrs : gmap types.sID types.pointer) :
  types.stores ((i, p) :: ops) ptrs
  = match types.store ptrs i p with
    | Some ptrs' => types.stores ops ptrs'
    | None => None
    end.
Proof.
  unfold types.stores. cbn [fold_left fst snd].
  destruct (types.store ptrs i p); [done|].
  induction ops as [|op ops IH]; [done|]. exact IH.
Qed.

Lemma load_insert (ptrs : gmap types.sID types.pointer) (i j : types.sID)
    (p : types.pointer) :
  types.load (<[i := p]> ptrs) j = if decide (i = j) then p else types.load ptrs j.
Proof.
  unfold types.load. destruct (decide (i = j)) as [->|Hne].
  - by rewrite lookup_insert_eq.
  - by rewrite lookup_insert_ne.
Qed.

(** X13 (an ID is stored once).  When a run of calls of [store] on a
    deserializer ends without panic, an ID that held a pointer other than
    nil before the run has not been stored during the run and holds the
    same pointer after it; every pointer other than nil that was stored
    during the run is the pointer its ID holds at the end; an ID that was
    not stored holds what it held.  So an ID never changes from one
    pointer to another; only an ID that holds nil, stored or not, can
    still be stored. *)
Theorem store_keeps_pointers (ops : list (types.sID * types.pointer))
    (ptrs0 ptrs : gmap types.sID types.pointer) :
  types.stores ops ptrs0 = Some ptrs ->
  (forall i, types.load ptrs0 i <> types.nil ->
     types.load ptrs i = types.load ptrs0 i /\ forall p, (i, p) ∉ ops)
  /\ (forall i p, (i, p) ∈ ops -> p <> types.nil -> types.load ptrs i = p)
  /\ (forall i, (forall p, (i, p) ∉ ops) -> types.load ptrs i = types.load ptrs0 i).
Proof.
  revert ptrs0. induction ops as [|[j q] ops IH]; intros ptrs0 Hrun.
  - injection Hrun as <-. split; [|split]; [|by intros ? ? ?%elem_of_nil|done].
    intros i _. split; [done|]. by intros p ?%elem_of_nil.
  - rewrite stores_cons in Hrun. unfold types.store in Hrun.
    destruct (decide (types.load ptrs0 j <> types.nil)) as [|Hnil]; [done|].
    apply dec_stable in Hnil.
    destruct (IH _ Hrun) as (Hkept & Hstored & Hother).
    split; [|split].
    + intros i Hi. assert (j <> i) as Hne by (intros ->; done).
      destruct (Hkept i) as [Hload Hnot].
      { rewrite load_insert. by destruct (decide (j = i)). }
      rewrite load_insert in Hload. destruct (decide (j = i)); [done|].
      split; [done|]. intros p Hin.
      apply elem_of_cons in Hin as [[= ? ?]|Hin]; [done|]. by apply (Hnot p).
    + intros i p Hin Hp. apply elem_of_cons in Hin as [[= -> ->]|Hin].
      * destruct (Hkept j) as [Hload _].
        { rewrite load_insert. by destruct (decide (j = j)). }
        rewrite Hload, load_insert. by destruct (decide (j = j)).
      * by apply Hstored.
    + intros i Hnot. rewrite Hother.
      * rewrite load_insert. destruct (decide (j = i)) as [->|]; [|done].
        destruct (Hnot q). apply elem_of_cons. by left.
      * intros p Hin. apply (Hnot p). apply elem_of_cons. by right.
Qed.

(** * The generator of serialization functions *)

(** ** ensureImport *)

Lemma ensureImports_cons (n p : string) (rest : list (string * string))
    (imports : gmap string string) :
  serdecmd.ensureImports ((n, p) :: rest) imports
  = match serdecmd.ensureImport imports n p with
    | Some imports' => serdecmd.ensureImports rest imports'
    | None => None
    end.
Proof.
  unfold serdecmd.ensureImports. cbn [fold_left fst snd].
  destruct (serdecmd.ensureImport imports n p); [done|].
  induction rest as [|r rest IH]; [done|]. exact IH.
Qed.

(** X14 (imports of the generated file).  A run of calls of
    [ensureImport] panics exactly when a call asks for a name that is
    bound, in the map the run starts with or by an earlier or later
    request of the run, to another path.  When it does not panic, the
    map at the end holds the bindings it held at the start and the
    bindings asked for, and no other. *)
Theorem ensureImport_bindings (requests : list (string * string))
    (imports : gmap string string) :
  (serdecmd.ensureImports requests imports = None <->
   exists n p p', p <> p' /\ (n, p) ∈ requests
                  /\ (imports !! n = Some p' \/ (n, p') ∈ requests))
  /\ (forall imports', serdecmd.ensureImports requests imports = Some imports' ->
        imports ⊆ imports'
        /\ (forall n p, (n, p) ∈ requests -> imports' !! n = Some p)
        /\ (forall n p, imports' !! n = Some p ->
              imports !! n = Some p \/ (n, p) ∈ requests)).
Proof.
  revert imports. induction requests as [|[n p] rest IH]; intros imports.
  - split.
    + split; [done|]. intros (n & p & p' & _ & Hin & _). by apply elem_of_nil in Hin.
    + intros imports' [= <-]. split; [done|]. split; [|by left].
      by intros n p ?%elem_of_nil.
  - rewrite ensureImports_cons. unfold serdecmd.ensureImport.
    destruct (imports !! n) as [p0|] eqn:Hn.
    + case_bool_decide as Hp.
      * split; [|done]. split; [intros _|done].
        exists n, p, p0. split; [congruence|]. split; [apply elem_of_cons; by left|by left].
      * subst p0.
        destruct (IH imports) as [Hnone Hsome]. split.
        -- rewrite Hnone. split.
           ++ intros (n1 & p1 & p2 & Hne & Hin & Hor). exists n1, p1, p2.
              split; [done|]. split; [apply elem_of_cons; by right|].
              destruct Hor; [by left|right; apply elem_of_cons; by right].
           ++ intros (n1 & p1 & p2 & Hne & Hin & Hor).
              apply elem_of_cons in Hin as [[= -> ->]|Hin].
              ** destruct Hor as [Hor|Hor]; [congruence|].
                 apply elem_of_cons in Hor as [[= ->]|Hor]; [done|].
                 exists n, p2, p. split; [done|]. split; [done|by left].
              ** exists n1, p1, p2. split; [done|]. split; [done|].
                 destruct Hor as [Hor|Hor]; [by left|].
                 apply elem_of_cons in Hor as [[= -> ->]|Hor]; [by left|by right].
        -- intros imports' Hrun.
           destruct (Hsome imports' Hrun) as (Hsub & Hreq & Honly).
           split; [done|]. split.
           ++ intros n1 p1 Hin. apply elem_of_cons in Hin as [[= -> ->]|Hin]; [|by apply Hreq].
              eapply lookup_weaken; eauto.
           ++ intros n1 p1 H1. destruct (Honly n1 p1 H1); [by left|].
              right. apply elem_of_cons. by right.
    + destruct (IH (<[n := p]> imports)) as [Hnone Hsome]. split.
      * rewrite Hnone. split.
        -- intros (n1 & p1 & p2 & Hne & Hin & Hor). exists n1, p1, p2.
           split; [done|]. split; [apply elem_of_cons; by right|].
           destruct Hor as [Hor|Hor]; [|right; apply elem_of_cons; by right].
           destruct (decide (n = n1)) as [->|Hnn].
           ++ rewrite lookup_insert_eq in Hor. injection Hor as ->.
              right. apply elem_of_cons. by left.
           ++ rewrite lookup_insert_ne in Hor by done. by left.
        -- intros (n1 & p1 & p2 & Hne & Hin & Hor).
           apply elem_of_cons in Hin as [[= -> ->]|Hin].
           ++ destruct Hor as [Hor|Hor]; [congruence|].
              apply elem_of_cons in Hor as [[= ->]|Hor]; [done|].
              exists n, p2, p. split; [done|]. split; [done|].
              left. by rewrite lookup_insert_eq.
           ++ exists n1, p1, p2. split; [done|]. split; [done|].
              destruct Hor as [Hor|Hor].
              ** left. rewrite lookup_insert_ne; [done|]. intros ->. congruence.
              ** apply elem_of_cons in Hor as [[= -> ->]|Hor]; [|by right].
                 left. by rewrite lookup_insert_eq.
      * intros imports' Hrun.
        destruct (Hsome imports' Hrun) as (Hsub & Hreq & Honly).
        split; [|split].
        -- etrans; [|exact Hsub]. by apply insert_subseteq.
        -- intros n1 p1 Hin. apply elem_of_cons in Hin as [[= -> ->]|Hin]; [|by apply Hreq].
           eapply lookup_weaken; [|exact Hsub]. by rewrite lookup_insert_eq.
        -- intros n1 p1 H1. destruct (Honly n1 p1 H1) as [Hins|Hin].
           ++ destruct (decide (n = n1)) as [->|Hnn].
              ** rewrite lookup_insert_eq in Hins. injection Hins as ->.
                 right. apply elem_of_cons. by left.
              ** rewrite lookup_insert_ne in Hins by done. by left.
           ++ right. apply elem_of_cons. by right.
Qed.

(** ** newGenLocation *)

Lemma containsInvalidChar_app (a b : string) :
  serdecmd.containsInvalidChar (a ++ b)
  = serdecmd.containsInvalidChar a || serdecmd.containsInvalidChar b.
Proof.
  unfold serdecmd.containsInvalidChar. induction a as [|c a IH]; [done|].
  change (String c a +:+ b) with (String c (a +:+ b)).
  cbn [list_ascii_of_string existsb]. by rewrite IH, orb_assoc.
Qed.

Lemma containsInvalidChar_uint (d : Decimal.uint) :
  serdecmd.containsInvalidChar (NilEmpty.string_of_uint d) = false.
Proof. induction d; [done|..]; exact IHd. Qed.

Lemma containsInvalidChar_Itoa (k : nat) :
  serdecmd.containsInvalidChar (Itoa (Z.of_nat k)) = false.
Proof.
  unfold Itoa. destruct (Z.of_nat k) as [|p|p] eqn:Hk; [done| |lia].
  cbn. destruct (Pos.to_uint p); try done; apply containsInvalidChar_uint.
Qed.

Lemma append_inv_head (a b c : string) : (a ++ b = a ++ c)%string -> b = c.
Proof.
  induction a as [|x a IH]; [done|].
  change (String x a +:+ b) with (String x (a +:+ b)).
  change (String x a +:+ c) with (String x (a +:+ c)).
  intros [= H]. by apply IH.
Qed.

(** X15 (the names of the generated functions).  [newGenLocation] panics
    exactly when the type already has a location.  Otherwise it records
    the location it returns for the type, and the two function names are
    [Serialize_] and [Deserialize_] followed by one and the same suffix:
    the given name when it is not empty and made of letters, digits and
    underscores only, and [gen] followed by the number of types known so
    far in every other case.  Whatever the given name is, the two names
    hold letters, digits and underscores only; and two names made from
    the number of known types differ when these numbers differ. *)
Theorem newGenLocation_names (known : gmap serdecmd.typeKey serdecmd.locations)
    (t : serdecmd.typeKey) (name : string) :
  (serdecmd.newGenLocation known t name = None <-> is_Some (known !! t))
  /\ forall known' loc, serdecmd.newGenLocation known t name = Some (known', loc) ->
       known' = <[t := loc]> known
       /\ serdecmd.get known' t = (loc, true)
       /\ exists suffix,
            loc = serdecmd.MkLocations
                    (serdecmd.MkLocation "" ("Serialize_" ++ suffix)%string false)
                    (serdecmd.MkLocation "" ("Deserialize_" ++ suffix)%string false)
            /\ suffix = (if serdecmd.containsInvalidChar name || bool_decide (name = "")
                         then "gen" ++ Itoa (Z.of_nat (size known)) else name)%string
            /\ serdecmd.containsInvalidChar (serdecmd.name (serdecmd.serializer loc)) = false
            /\ serdecmd.containsInvalidChar (serdecmd.name (serdecmd.deserializer loc)) = false
            /\ (forall known2 t2 name2 known2' loc2,
                  serdecmd.newGenLocation known2 t2 name2 = Some (known2', loc2) ->
                  serdecmd.containsInvalidChar name || bool_decide (name = "") = true ->
                  serdecmd.containsInvalidChar name2 || bool_decide (name2 = "") = true ->
                  size known <> size known2 ->
                  serdecmd.name (serdecmd.serializer loc)
                  <> serdecmd.name (serdecmd.serializer loc2)).
Proof.
  assert (forall known0 t0 name0 known0' loc0,
    serdecmd.newGenLocation known0 t0 name0 = Some (known0', loc0) ->
    known0 !! t0 = None
    /\ known0' = <[t0 := loc0]> known0
    /\ loc0 = serdecmd.MkLocations
                (serdecmd.MkLocation ""
                   ("Serialize_"
                    ++ (if serdecmd.containsInvalidChar name0 || bool_decide (name0 = "")
                        then "gen" ++ Itoa (Z.of_nat (size known0)) else name0)%string)%string false)
                (serdecmd.MkLocation ""
                   ("Deserialize_"
                    ++ (if serdecmd.containsInvalidChar name0 || bool_decide (name0 = "")
                        then "gen" ++ Itoa (Z.of_nat (size known0)) else name0)%string)%string false))
    as Hshape.
  { intros known0 t0 name0 known0' loc0. unfold serdecmd.newGenLocation, serdecmd.setLocation.
    destruct (known0 !! t0) eqn:Ht0; [done|]. cbv zeta. intros [= <- <-].
    split; [done|]. split.
    - destruct (serdecmd.containsInvalidChar name0); cbn [orb]; [done|].
      by destruct (bool_decide (name0 = "")).
    - destruct (serdecmd.containsInvalidChar name0); cbn [orb]; [done|].
      by destruct (bool_decide (name0 = "")). }
  split.
  - unfold serdecmd.newGenLocation, serdecmd.setLocation.
    destruct (known !! t) eqn:Ht; split; try done; try (by intros [? ?]); eauto.
  - intros known' loc Hrun.
    destruct (Hshape _ _ _ _ _ Hrun) as (Hnew & -> & Hloc).
    split; [done|]. split.
    { unfold serdecmd.get. by rewrite lookup_insert_eq. }
    eexists. split; [exact Hloc|]. split; [done|].
    assert (serdecmd.containsInvalidChar
              (if serdecmd.containsInvalidChar name || bool_decide (name = "")
               then "gen" ++ Itoa (Z.of_nat (size known)) else name)%string = false) as Hvalid.
    { destruct (serdecmd.containsInvalidChar name) eqn:Hname; cbn [orb].
      - rewrite containsInvalidChar_app, containsInvalidChar_Itoa. done.
      - case_bool_decide; [|done].
        rewrite containsInvalidChar_app, containsInvalidChar_Itoa. done. }
    rewrite Hloc. cbn [serdecmd.name serdecmd.serializer serdecmd.deserializer].
    rewrite !containsInvalidChar_app, Hvalid.
    split; [done|]. split; [done|].
    intros known2 t2 name2 known2' loc2 Hrun2 Hgen Hgen2 Hsize.
    destruct (Hshape _ _ _ _ _ Hrun2) as (_ & _ & ->).
    cbn [serdecmd.name serdecmd.serializer]. rewrite Hgen, Hgen2.
    intros Heq. apply append_inv_head, append_inv_head, Itoa_inj in Heq. lia.
Qed.

(** ** TargetFile *)

Lemma LastIndexByte_range (s : string) (c : Ascii.ascii) :
  -1 <= serdecmd.LastIndexByte s c < Z.of_nat (String.length s).
Proof.
  induction s as [|a s IH]; cbn [serdecmd.LastIndexByte String.length]; [lia|].
  destruct (Z.eqb_spec (serdecmd.LastIndexByte s c) (-1)); [|lia].
  destruct (Ascii.eqb a c); lia.
Qed.

Lemma LastIndexByte_none (s : string) (c : Ascii.ascii) :
  serdecmd.LastIndexByte s c = -1 <-> c ∉ list_ascii_of_string s.
Proof.
  induction s as [|a s IH]; cbn [serdecmd.LastIndexByte list_ascii_of_string].
  - split; [intros _; apply not_elem_of_nil|done].
  - rewrite not_elem_of_cons, <- IH.
    pose proof (LastIndexByte_range s c).
    destruct (Z.eqb_spec (serdecmd.LastIndexByte s c) (-1)) as [Heq|Hne].
    + destruct (Ascii.eqb_spec a c) as [->|Hac].
      * split; [lia|]. by intros [? _].
      * split; [|done]. intros _. split; [congruence|done].
    + split; [lia|]. by intros [_ ?].
Qed.

Lemma LastIndexByte_last (stem ext : string) (c : Ascii.ascii) :
  c ∉ list_ascii_of_string ext ->
  serdecmd.LastIndexByte (stem ++ String c ext) c = Z.of_nat (String.length stem).
Proof.
  intros Hext. induction stem as [|a stem IH].
  - change (("" ++ String c ext)%string) with (String c ext).
    cbn [serdecmd.LastIndexByte String.length].
    apply LastIndexByte_none in Hext. rewrite Hext. cbn. by rewrite Ascii.eqb_refl.
  - change ((String a stem ++ String c ext)%string) with (String a (stem ++ String c ext)%string).
    cbn [serdecmd.LastIndexByte String.length]. rewrite IH.
    destruct (Z.eqb_spec (Z.of_nat (String.length stem)) (-1)); lia.
Qed.

Lemma substring_prefix (stem rest : string) :
  substring 0 (String.length stem) (stem ++ rest) = stem.
Proof.
  induction stem as [|a stem IH].
  - change (("" ++ rest)%string) with rest. cbn. by destruct rest.
  - change ((String a stem ++ rest)%string) with (String a (stem ++ rest)%string).
    cbn [String.length substring]. by rewrite IH.
Qed.

(** X16 (the file of the generated functions).  [TargetFile] panics
    exactly when the name of the file that holds the type, without its
    directory, has no dot.  Otherwise the name is cut at its last dot:
    for a file [stem.ext] whose extension [ext] has no dot, the functions
    go to the file [stem_serde.go] of the same directory, whose name
    differs from the name of the file that holds the type. *)
Theorem TargetFile_name (filepath_Split : string -> string * string)
    (filepath_Join : string -> string -> string) (Filename : string) :
  (serdecmd.TargetFile filepath_Split filepath_Join Filename = None <->
   serdecmd.dot ∉ list_ascii_of_string (snd (filepath_Split Filename)))
  /\ forall stem ext,
       snd (filepath_Split Filename) = (stem ++ String serdecmd.dot ext)%string ->
       serdecmd.dot ∉ list_ascii_of_string ext ->
       serdecmd.TargetFile filepath_Split filepath_Join Filename
       = Some (filepath_Join (fst (filepath_Split Filename)) (stem ++ "_serde.go")%string)
       /\ (stem ++ "_serde.go")%string <> snd (filepath_Split Filename).
Proof.
  unfold serdecmd.TargetFile. destruct (filepath_Split Filename) as [dir file].
  cbn [fst snd]. split.
  - rewrite <- LastIndexByte_none.
    destruct (Z.eqb_spec (serdecmd.LastIndexByte file serdecmd.dot) (-1)); split; done.
  - intros stem ext -> Hext. rewrite (LastIndexByte_last stem ext _ Hext).
    pose proof (Nat2Z.is_nonneg (String.length stem)).
    destruct (Z.eqb_spec (Z.of_nat (String.length stem)) (-1)); [lia|].
    rewrite Nat2Z.id, substring_prefix. split; [done|].
    intros Heq. apply append_inv_head in Heq. discriminate Heq.
Qed.

(** * The package coroc *)

Lemma relativePattern_head (Separator : Ascii.ascii) (path : string) :
  coroc.relativePattern Separator path = ""
  \/ exists c rest, coroc.relativePattern Separator path = String c rest
                    /\ (c = Separator \/ c = Ascii.ascii_of_nat 46).
Proof.
  destruct path as [|c rest]; [by left|]. right.
  unfold coroc.relativePattern.
  destruct (Ascii.eqb_spec c Separator) as [->|Hsep]; cbn [negb andb].
  - eexists _, _. split; [done|by left].
  - destruct (Ascii.eqb_spec c (Ascii.ascii_of_nat 46)) as [->|Hdot]; cbn [negb].
    + eexists _, _. split; [done|by right].
    + eexists _, _. split; [done|by right].
Qed.

Section CorocCompile.

Variable os_Stat : string -> string + bool.
Variable filepath_Dir : string -> string.
Variable filepath_Clean : string -> string.
Variable Separator : Ascii.ascii.
Variable strconv_Quote : string -> string.
Variable packages_Load : string -> string + list coroc.Package.

Local Abbreviation Compile :=
  (coroc.Compile os_Stat filepath_Dir filepath_Clean Separator strconv_Quote packages_Load).

Lemma statPath_cases (path : string) :
  (coroc.statPath os_Stat filepath_Dir path = ([], inr path)
   /\ (path = "" \/ coroc.HasSuffix path "..." = true))
  \/ (path <> "" /\ coroc.HasSuffix path "..." = false
      /\ ((exists err, os_Stat path = inl err
            /\ coroc.statPath os_Stat filepath_Dir path = ([coroc.EvStat path], inl err))
          \/ (exists isDir, os_Stat path = inr isDir
               /\ coroc.statPath os_Stat filepath_Dir path
                  = ([coroc.EvStat path], inr (if isDir then path else filepath_Dir path))))).
Proof.
  unfold coroc.statPath.
  destruct (String.eqb_spec path "") as [->|Hne]; cbn [negb andb]; [left; by split; [|left]|].
  destruct (coroc.HasSuffix path "...") eqn:Hsuf; cbn [negb]; [left; by split; [|right]|].
  right. split; [done|]. split; [done|].
  destruct (os_Stat path) as [err|isDir]; [left|right]; eauto.
Qed.

Lemma loads_pattern (pattern pat : string) :
  coroc.EvLoad pat ∈ [coroc.EvPrintln pattern; coroc.EvLoad pattern] -> pat = pattern.
Proof.
  intros Hin. repeat (apply elem_of_cons in Hin as [Hin|Hin]; [by simplify_eq|]).
  by apply elem_of_nil in Hin.
Qed.

Lemma no_stat (pattern p : string) :
  coroc.EvStat p ∉ [coroc.EvPrintln pattern; coroc.EvLoad pattern].
Proof.
  intros Hin. repeat (apply elem_of_cons in Hin as [Hin|Hin]; [by simplify_eq|]).
  by apply elem_of_nil in Hin.
Qed.

Lemma names_filter (pkgs : list coroc.Package) :
  List.filter (fun ev => match ev with coroc.EvLoad _ => true | _ => false end)
    (map (fun p => coroc.EvPrintln (coroc.Name p)) pkgs) = [].
Proof. induction pkgs as [|p pkgs IH]; [done|]. exact IH. Qed.

Lemma names_no_load (pkgs : list coroc.Package) (pattern : string) :
  coroc.EvLoad pattern ∉ map (fun p => coroc.EvPrintln (coroc.Name p)) pkgs.
Proof. intros Hin. apply list_elem_of_fmap in Hin as (p & Hp & _). done. Qed.

Lemma names_no_stat (pkgs : list coroc.Package) (path : string) :
  coroc.EvStat path ∉ map (fun p => coroc.EvPrintln (coroc.Name p)) pkgs.
Proof. intros Hin. apply list_elem_of_fmap in Hin as (p & Hp & _). done. Qed.

Lemma no_errors (pkgs : list coroc.Package) :
  concat (map coroc.Errors pkgs) = [] -> Forall (fun p => coroc.Errors p = []) pkgs.
Proof.
  induction pkgs as [|p pkgs IH]; cbn [map concat]; intros Herrs; [constructor|].
  apply app_eq_nil in Herrs as [Hp Hrest]. constructor; [done|by apply IH].
Qed.

(** X11 (what Compile loads and returns).  Whatever the path and the
    answers of the system are: [Compile] asks the loader at most once,
    and for a pattern that is empty or starts with the separator or with
    a dot, so that the loader never takes it for a package of the
    standard library; it calls [os.Stat] only for a path that is not
    empty and does not end in three dots, and when that call fails it
    returns its error without loading anything; it returns [nil] only
    when the loader has answered packages none of which has an error,
    and then it has printed the pattern and the names of the packages. *)
Theorem Compile_loads_relative_pattern (path : string) :
  (forall pattern, coroc.EvLoad pattern ∈ fst (Compile path) ->
     pattern = ""
     \/ exists c rest, pattern = String c rest
                       /\ (c = Separator \/ c = Ascii.ascii_of_nat 46))
  /\ (length (List.filter (fun ev => match ev with coroc.EvLoad _ => true | _ => false end)
                (fst (Compile path))) <= 1)%nat
  /\ (path = "" \/ coroc.HasSuffix path "..." = true ->
      forall p, coroc.EvStat p ∉ fst (Compile path))
  /\ (forall err, path <> "" -> coroc.HasSuffix path "..." = false ->
        os_Stat path = inl err ->
        Compile path = ([coroc.EvStat path], Some err))
  /\ (snd (Compile path) = None ->
      exists pattern pkgs stat,
        packages_Load pattern = inr pkgs
        /\ Forall (fun p => coroc.Errors p = []) pkgs
        /\ fst (Compile path)
           = stat ++ [coroc.EvPrintln pattern; coroc.EvLoad pattern]
             ++ map (fun p => coroc.EvPrintln (coroc.Name p)) pkgs
        /\ (stat = [] \/ stat = [coroc.EvStat path])).
Proof.
  unfold coroc.Compile.
  destruct (statPath_cases path) as [(Hstat & Hwhy)|(Hne & Hsuf & [(e & Hos & Hstat)|(d & Hos & Hstat)])];
    rewrite Hstat.
  - (* os.Stat is not called *)
    cbv zeta. set (pattern := coroc.relativePattern Separator (filepath_Clean path)).
    destruct (packages_Load pattern) as [err|pkgs] eqn:Hpk;
      [|destruct (concat (map coroc.Errors pkgs)) as [|err rest] eqn:Herrs];
      cbn [fst snd app].
    + split; [|split; [|split; [|split]]].
      * intros pat Hin. apply loads_pattern in Hin as ->. apply relativePattern_head.
      * cbn. lia.
      * intros _ p Hin. by apply no_stat in Hin.
      * intros err' Hne Hsuf. destruct Hwhy; congruence.
      * done.
    + split; [|split; [|split; [|split]]].
      * intros pat Hin. apply elem_of_cons in Hin as [?|Hin]; [done|].
        apply elem_of_cons in Hin as [[= ->]|Hin]; [apply relativePattern_head|].
        by apply names_no_load in Hin.
      * cbn [List.filter]. rewrite names_filter. cbn. lia.
      * intros _ p Hin. apply elem_of_cons in Hin as [?|Hin]; [done|].
        apply elem_of_cons in Hin as [?|Hin]; [done|].
        by apply names_no_stat in Hin.
      * intros err' Hne Hsuf. destruct Hwhy; congruence.
      * intros _. exists pattern, pkgs, []. split; [done|].
        split; [by apply no_errors|]. split; [done|by left].
    + split; [|split; [|split; [|split]]].
      * intros pat Hin. apply loads_pattern in Hin as ->. apply relativePattern_head.
      * cbn. lia.
      * intros _ p Hin. by apply no_stat in Hin.
      * intros err' Hne Hsuf. destruct Hwhy; congruence.
      * done.
  - (* os.Stat fails *)
    cbn [fst snd]. split; [|split; [|split; [|split]]].
    + intros pat Hin. apply elem_of_cons in Hin as [?|Hin]; [done|].
      by apply elem_of_nil in Hin.
    + cbn. lia.
    + intros [?|?]; congruence.
    + intros err' _ _ Hos'. congruence.
    + done.
  - (* os.Stat succeeds *)
    cbv zeta.
    set (pattern := coroc.relativePattern Separator
                      (filepath_Clean (if d then path else filepath_Dir path))).
    destruct (packages_Load pattern) as [err|pkgs] eqn:Hpk;
      [|destruct (concat (map coroc.Errors pkgs)) as [|err rest] eqn:Herrs];
      cbn [fst snd app].
    + split; [|split; [|split; [|split]]].
      * intros pat Hin. apply elem_of_cons in Hin as [?|Hin]; [done|].
        apply loads_pattern in Hin as ->. apply relativePattern_head.
      * cbn. lia.
      * intros [?|?]; congruence.
      * intros err' _ _ Hos'. congruence.
      * done.
    + split; [|split; [|split; [|split]]].
      * intros pat Hin. apply elem_of_cons in Hin as [?|Hin]; [done|].
        apply elem_of_cons in Hin as [?|Hin]; [done|].
        apply elem_of_cons in Hin as [[= ->]|Hin]; [apply relativePattern_head|].
        by apply names_no_load in Hin.
      * cbn [List.filter]. rewrite names_filter. cbn. lia.
      * intros [?|?]; congruence.
      * intros err' _ _ Hos'. congruence.
      * intros _. exists pattern, pkgs, [coroc.EvStat path]. split; [done|].
        split; [by apply no_errors|]. split; [done|by right].
    + split; [|split; [|split; [|split]]].
      * intros pat Hin. apply elem_of_cons in Hin as [?|Hin]; [done|].
        apply loads_pattern in Hin as ->. apply relativePattern_head.
      * cbn. lia.
      * intros [?|?]; congruence.
      * intros err' _ _ Hos'. congruence.
      * done.
Qed.

End CorocCompile.

(** * compile *)

Section CompileAllProperties.

Variable typeExpr : option gotype -> expr.
Variable desugar : stmt -> Info -> stmt.
Variable trackSpans : stmt -> gmap addr span.
Variable unnestBlocks : stmt -> stmt.
Variable filepath_Dir : string -> string.
Variable filepath_Join : string -> string -> string.
Variable os : OS.
Variable os_Stat : string -> string + bool.
Variable filepath_Clean : string -> string.
Variable Separator : Ascii.ascii.
Variable strconv_Quote : string -> string.
Variable packages_Load : string -> string + list pkgptr.
Variable heap : gmap pkgptr pkgNode.
Variable coloring : list pkgptr -> pkgptr -> coloringResult.
Variable fn_Pkg : ssaFunction -> option N.
Variable rangeSeen : gset pkgptr -> list pkgptr.
Variable rangePkgs :
  gmap pkgptr (list (ssaFunction * Signature)) ->
  list (pkgptr * list (ssaFunction * Signature)).
Variable rangeColors : list (ssaFunction * Signature) -> list (ssaFunction * Signature).

Hypothesis rangePkgs_map : forall m, rangePkgs m ≡ₚ map_to_list m.
Hypothesis rangeColors_list : forall l, rangeColors l ≡ₚ l.

Local Abbreviation compilePkg :=
  (compilePackage typeExpr desugar trackSpans unnestBlocks filepath_Dir filepath_Join strconv_Quote os).
Local Abbreviation compilePkgs :=
  (compilePackages typeExpr desugar trackSpans unnestBlocks filepath_Dir filepath_Join os
     strconv_Quote
     heap rangeColors).
Local Abbreviation compileV :=
  (compile typeExpr desugar trackSpans unnestBlocks filepath_Dir filepath_Join os
     os_Stat filepath_Clean Separator strconv_Quote packages_Load heap coloring fn_Pkg
     rangeSeen rangePkgs rangeColors).
Local Abbreviation group := (groupColors fn_Pkg).
Local Abbreviation packageOf := (packageOfFn fn_Pkg).

Lemma groupColors_spec (pkgsByTypes : gmap N pkgptr)
    (colors : list (ssaFunction * Signature)) :
  forall acc m, group pkgsByTypes colors acc = inr m ->
    (forall p l, acc !! p = Some l -> l <> []) ->
    Forall (fun fc => is_Some (fn_Pkg (fst fc))) colors
    /\ (forall p l, m !! p = Some l -> l <> [])
    /\ (forall p, default [] (m !! p)
                  = default [] (acc !! p)
                    ++ filter (fun fc => packageOf pkgsByTypes (fst fc) = Some p) colors).
Proof.
  induction colors as [|[fn color] rest IH]; intros acc m Hrun Hacc; cbn [groupColors] in Hrun.
  - injection Hrun as <-. split; [constructor|]. split; [done|].
    intros p. by rewrite app_nil_r.
  - destruct (fn_Pkg fn) as [typesPkg|] eqn:Hfn; [|done]. cbv zeta in Hrun.
    set (p0 := default nilPackage (pkgsByTypes !! typesPkg)) in *.
    destruct (IH _ _ Hrun) as (Hall & Hne & Hm).
    { intros p l. destruct (decide (p0 = p)) as [<-|Hp].
      - rewrite lookup_insert_eq. intros [= <-]. by destruct (default [] (acc !! p0)).
      - rewrite lookup_insert_ne by done. apply Hacc. }
    split; [constructor; [cbn [fst]; by rewrite Hfn|done]|]. split; [done|].
    assert (packageOf pkgsByTypes fn = Some p0) as Hpk.
    { unfold packageOfFn. by rewrite Hfn. }
    intros p. rewrite Hm, filter_cons. cbn [fst]. rewrite Hpk.
    destruct (decide (p0 = p)) as [<-|Hp].
    + rewrite lookup_insert_eq. rewrite decide_True by done.
      unfold default at 1. cbn [from_option id]. by rewrite <- app_assoc.
    + rewrite lookup_insert_ne by done. rewrite decide_False by congruence. done.
Qed.

Local Abbreviation compiledEntryV :=
  (compiledEntry typeExpr desugar trackSpans unnestBlocks filepath_Dir filepath_Join os
     strconv_Quote
     heap rangeColors).

Lemma compilePackages_events (c : compiler)
    (todo : list (pkgptr * list (ssaFunction * Signature))) :
  forall events out, compilePkgs c todo = Ended (events, out) ->
    exists n, Forall2 (compiledEntryV c) (take n todo) events.
Proof.
  induction todo as [|[p colors] rest IH]; intros events out Hrun; cbn [compilePackages] in Hrun.
  - injection Hrun as <- <-. exists 0%nat. constructor.
  - destruct (heap !! p) as [node|] eqn:Hp; [|done].
    destruct (compilePkg c (pk_Package node) (rangeColors colors)) as [evs [[err|]|]] eqn:Hpkg;
      [| |done].
    + injection Hrun as <- <-. exists 1%nat. cbn [take]. rewrite take_0.
      constructor; [|constructor]. exists node. cbn [fst snd]. by rewrite Hpkg.
    + destruct (compilePkgs c rest) as [[later out']| |] eqn:Hrest; try done.
      injection Hrun as <- <-. destruct (IH _ _ eq_refl) as [n Hn].
      exists (S n). cbn [take]. constructor; [|exact Hn].
      exists node. cbn [fst snd]. by rewrite Hpkg.
Qed.

Lemma compiledEntries_packages (c : compiler)
    (todo : list (pkgptr * list (ssaFunction * Signature))) (events : list cevent) :
  Forall2 (compiledEntryV c) todo events ->
  omap compiledPackage events = map fst todo.
Proof.
  induction 1 as [|t ev todo events (node & _ & ->) _ IH]; [done|].
  cbn [map]. rewrite <- IH. reflexivity.
Qed.

Lemma omap_compiledPackage_outer (evs : list coroc.event) :
  omap compiledPackage (map COuter evs) = [].
Proof. induction evs as [|ev evs IH]; [done|]. exact IH. Qed.

Lemma firstPackageError_none (nodes : list (pkgptr * pkgNode)) :
  firstPackageError nodes = None -> Forall (fun pn => pk_Errors (snd pn) = []) nodes.
Proof.
  unfold firstPackageError. induction nodes as [|pn nodes IH]; cbn [map concat]; [constructor|].
  destruct (pk_Errors (snd pn)) as [|e es] eqn:He; [|done]. cbn [app]. intros H.
  constructor; [done|by apply IH].
Qed.

Lemma findCoroutinePackage_some (nodes : list (pkgptr * pkgNode)) (p : pkgptr)
    (node : pkgNode) :
  findCoroutinePackage nodes = Some (p, node) ->
  (p, node) ∈ nodes /\ pk_PkgPath node = coroutinePackage.
Proof.
  unfold findCoroutinePackage. intros H. apply List.find_some in H as [Hin Heq].
  split; [by apply list_elem_of_In|]. by apply String.eqb_eq in Heq.
Qed.

(** How a run of [compile] that returns is made up. *)
Lemma compile_shape (fuel : nat) (c : compiler) (path : string)
    (events : list cevent) (out : option string) :
  compileV fuel c path = Ended (events, out) ->
  exists outer compiled,
    events = map COuter outer ++ compiled
    /\ (forall pattern, coroc.EvLoad pattern ∈ outer ->
          pattern = coroc.relativePattern Separator
                      (filepath_Clean (match snd (coroc.statPath os_Stat filepath_Dir path) with
                                       | inr path' => path'
                                       | inl _ => path
                                       end)))
    /\ (compiled = []
        \/ exists pattern pkgs flatpkgs nodes coroutinePkg cnode allColors colorsByPkg,
             packages_Load pattern = inr pkgs
             /\ flattenPackages rangeSeen fuel (pk_Imports <$> heap) pkgs = Ended flatpkgs
             /\ nodesOf heap flatpkgs = Some nodes
             /\ Forall (fun pn => pk_Errors (snd pn) = []) nodes
             /\ (coroutinePkg, cnode) ∈ nodes
             /\ pk_PkgPath cnode = coroutinePackage
             /\ coloring pkgs coroutinePkg = Colored allColors
             /\ group (pkgsByTypesOf nodes) allColors ∅ = inr colorsByPkg
             /\ compilePkgs c (rangePkgs colorsByPkg) = Ended (compiled, out)).
Proof.
  assert (forall pattern,
            coroc.EvLoad pattern ∉ fst (coroc.statPath os_Stat filepath_Dir path)) as Hstat.
  { intros pattern.
    destruct (statPath_cases os_Stat filepath_Dir path)
      as [(-> & _)|(_ & _ & [(e & _ & ->)|(d & _ & ->)])]; cbn [fst].
    - apply not_elem_of_nil.
    - intros Hin. apply elem_of_cons in Hin as [?|Hin]; [done|]. by apply elem_of_nil in Hin.
    - intros Hin. apply elem_of_cons in Hin as [?|Hin]; [done|]. by apply elem_of_nil in Hin. }
  unfold compile. destruct (coroc.statPath os_Stat filepath_Dir path) as [stat [err|path']].
  { intros [= <- <-]. exists stat, []. rewrite app_nil_r. split; [done|]. split; [|by left].
    intros pattern Hin. by apply Hstat in Hin. }
  cbv zeta. cbn [snd fst] in *.
  set (pattern := coroc.relativePattern Separator (filepath_Clean path')).
  assert (forall pat, coroc.EvLoad pat ∈ stat ++ [coroc.EvLoad pattern] -> pat = pattern)
    as Hload.
  { intros pat Hin. apply elem_of_app in Hin as [Hin|Hin]; [by apply Hstat in Hin|].
    apply elem_of_cons in Hin as [[= ->]|Hin]; [done|]. by apply elem_of_nil in Hin. }
  assert (map COuter stat ++ [COuter (coroc.EvLoad pattern)]
          = map COuter (stat ++ [coroc.EvLoad pattern]) ++ []) as Hev.
  { by rewrite map_app, app_nil_r. }
  assert (forall out0, exists outer compiled,
            map COuter stat ++ [COuter (coroc.EvLoad pattern)] = map COuter outer ++ compiled
            /\ (forall pat, coroc.EvLoad pat ∈ outer -> pat = pattern)
            /\ (compiled = []
                \/ exists pattern pkgs flatpkgs nodes coroutinePkg cnode allColors colorsByPkg,
                     packages_Load pattern = inr pkgs
                     /\ flattenPackages rangeSeen fuel (pk_Imports <$> heap) pkgs
                        = Ended flatpkgs
                     /\ nodesOf heap flatpkgs = Some nodes
                     /\ Forall (fun pn => pk_Errors (snd pn) = []) nodes
                     /\ (coroutinePkg, cnode) ∈ nodes
                     /\ pk_PkgPath cnode = coroutinePackage
                     /\ coloring pkgs coroutinePkg = Colored allColors
                     /\ group (pkgsByTypesOf nodes) allColors ∅ = inr colorsByPkg
                     /\ compilePkgs c (rangePkgs colorsByPkg) = Ended (compiled, out0)))
    as Hearly.
  { intros out0. exists (stat ++ [coroc.EvLoad pattern]), []. split; [exact Hev|].
    split; [exact Hload|by left]. }
  destruct (packages_Load pattern) as [err|pkgs] eqn:Hpk.
  { intros [= <- <-]. apply Hearly. }
  destruct (flattenPackages rangeSeen fuel (pk_Imports <$> heap) pkgs)
    as [flatpkgs| |] eqn:Hflat; try done.
  destruct (nodesOf heap flatpkgs) as [nodes|] eqn:Hnodes; [|done].
  destruct (firstPackageError nodes) as [err|] eqn:Herr.
  { intros [= <- <-]. apply Hearly. }
  destruct (findCoroutinePackage nodes) as [[coroutinePkg cnode]|] eqn:Hfind.
  2: { intros [= <- <-]. apply Hearly. }
  destruct (coloring pkgs coroutinePkg) as [allColors|err|] eqn:Hcol; [| |done].
  2: { intros [= <- <-]. apply Hearly. }
  destruct (group (pkgsByTypesOf nodes) allColors ∅) as [err|colorsByPkg] eqn:Hgroup.
  { intros [= <- <-]. apply Hearly. }
  destruct (compilePkgs c (rangePkgs colorsByPkg)) as [[compiled out']| |] eqn:Hrun; try done.
  intros [= <- <-]. exists (stat ++ [coroc.EvLoad pattern]), compiled.
  split; [by rewrite map_app|]. split; [exact Hload|]. right.
  apply findCoroutinePackage_some in Hfind as [Hin Hpath].
  exists pattern, pkgs, flatpkgs, nodes, coroutinePkg, cnode, allColors, colorsByPkg.
  repeat (split; [done|]). split; [by apply firstPackageError_none|]. done.
Qed.

(** X10 (one call of compilePackage for every package with colored
    functions).  In whatever order Go ranges over the maps, when
    [compile] returns, every pattern it has asked the loader for is empty
    or starts with the separator or a dot; no package has been compiled
    twice; and every call of [compilePackage] it has made was made after
    the loader had answered packages, none of the flattened packages had
    an error, the coroutine package was among them and the coloring had
    given colors for functions that all have a package: the call was for
    a package on the heap, with the colors of exactly those colored
    functions whose package it is, at least one, and its effects on the
    file system are those recorded. *)
Theorem compile_groups_by_package (fuel : nat) (c : compiler) (path : string)
    (events : list cevent) (out : option string) :
  compileV fuel c path = Ended (events, out) ->
  (forall pattern, COuter (coroc.EvLoad pattern) ∈ events ->
     pattern = ""
     \/ exists ch rest, pattern = String ch rest
                        /\ (ch = Separator \/ ch = Ascii.ascii_of_nat 46))
  /\ NoDup (omap compiledPackage events)
  /\ (forall p colors evs, CCompilePackage p colors evs ∈ events ->
        exists pattern pkgs flatpkgs nodes coroutinePkg cnode allColors node,
          packages_Load pattern = inr pkgs
          /\ flattenPackages rangeSeen fuel (pk_Imports <$> heap) pkgs = Ended flatpkgs
          /\ nodesOf heap flatpkgs = Some nodes
          /\ Forall (fun pn => pk_Errors (snd pn) = []) nodes
          /\ (coroutinePkg, cnode) ∈ nodes
          /\ pk_PkgPath cnode = coroutinePackage
          /\ coloring pkgs coroutinePkg = Colored allColors
          /\ Forall (fun fc => is_Some (fn_Pkg (fst fc))) allColors
          /\ heap !! p = Some node
          /\ colors ≡ₚ filter (fun fc => packageOf (pkgsByTypesOf nodes) (fst fc) = Some p)
                         allColors
          /\ colors <> []
          /\ evs = fst (compilePkg c (pk_Package node) colors)).
Proof.
  intros Hrun.
  destruct (compile_shape fuel c path events out Hrun)
    as (outer & compiled & -> & Hload & Hcompiled).
  assert (exists todo,
            Forall2 (compiledEntryV c) todo compiled
            /\ (compiled <> [] ->
                exists pattern pkgs flatpkgs nodes coroutinePkg cnode allColors colorsByPkg,
                  packages_Load pattern = inr pkgs
                  /\ flattenPackages rangeSeen fuel (pk_Imports <$> heap) pkgs
                     = Ended flatpkgs
                  /\ nodesOf heap flatpkgs = Some nodes
                  /\ Forall (fun pn => pk_Errors (snd pn) = []) nodes
                  /\ (coroutinePkg, cnode) ∈ nodes
                  /\ pk_PkgPath cnode = coroutinePackage
                  /\ coloring pkgs coroutinePkg = Colored allColors
                  /\ group (pkgsByTypesOf nodes) allColors ∅ = inr colorsByPkg
                  /\ todo `sublist_of` rangePkgs colorsByPkg)
            /\ NoDup (map fst todo)) as (todo & Htodo & Hwhy & Hnodup).
  { destruct Hcompiled as [->|Hex].
    - exists []. split; [constructor|]. split; [done|constructor].
    - destruct Hex as (pattern & pkgs & flatpkgs & nodes & coroutinePkg & cnode & allColors
                       & colorsByPkg & H1 & H2 & H3 & H4 & H5 & H6 & H7 & H8 & Hpkgs).
      destruct (compilePackages_events c _ _ _ Hpkgs) as [n Hn].
      exists (take n (rangePkgs colorsByPkg)). split; [exact Hn|]. split.
      + intros _. exists pattern, pkgs, flatpkgs, nodes, coroutinePkg, cnode, allColors,
          colorsByPkg. repeat (split; [done|]). apply sublist_take.
      + change (map fst (take n (rangePkgs colorsByPkg)))
          with (fst <$> take n (rangePkgs colorsByPkg)).
        rewrite fmap_take.
        apply (sublist_NoDup _ (fst <$> rangePkgs colorsByPkg)); [|apply sublist_take].
        rewrite rangePkgs_map. apply NoDup_fst_map_to_list. }
  split; [|split].
  - intros pattern Hin. apply elem_of_app in Hin as [Hin|Hin].
    + apply list_elem_of_fmap in Hin as (ev & [= <-] & Hev).
      rewrite (Hload pattern Hev). apply relativePattern_head.
    + exfalso. clear -Htodo Hin.
      induction Htodo as [|t ev todo evs (node & _ & ->) _ IH].
      * by apply elem_of_nil in Hin.
      * apply elem_of_cons in Hin as [?|Hin]; [done|]. by apply IH.
  - rewrite omap_app, omap_compiledPackage_outer, app_nil_l.
    by rewrite (compiledEntries_packages c todo compiled Htodo).
  - intros p colors evs Hin. apply elem_of_app in Hin as [Hin|Hin].
    { apply list_elem_of_fmap in Hin as (ev & ? & _). done. }
    destruct Hwhy as (pattern & pkgs & flatpkgs & nodes & coroutinePkg & cnode & allColors
                      & colorsByPkg & H1 & H2 & H3 & H4 & H5 & H6 & H7 & H8 & Hsub).
    { intros ->. by apply elem_of_nil in Hin. }
    assert (exists l node,
              (p, l) ∈ todo /\ heap !! p = Some node /\ colors = rangeColors l
              /\ evs = fst (compilePkg c (pk_Package node) (rangeColors l)))
      as (l & node & Hl & Hnode & -> & ->).
    { clear -Htodo Hin.
      induction Htodo as [|[p0 l0] ev todo evs0 (node & Hnode & ->) _ IH].
      - by apply elem_of_nil in Hin.
      - apply elem_of_cons in Hin as [[= -> -> ->]|Hin].
        + exists l0, node. split; [apply elem_of_cons; by left|]. done.
        + destruct (IH Hin) as (l & node' & Hl & Hrest).
          exists l, node'. split; [apply elem_of_cons; by right|done]. }
    assert (colorsByPkg !! p = Some l) as Hlookup.
    { apply elem_of_map_to_list. rewrite <- rangePkgs_map.
      eapply elem_of_sublist; [exact Hl|exact Hsub]. }
    destruct (groupColors_spec _ _ _ _ H8) as (Hall & Hne & Hm).
    { intros p0 l0. by rewrite lookup_empty. }
    specialize (Hm p). rewrite Hlookup, lookup_empty in Hm. cbn in Hm.
    exists pattern, pkgs, flatpkgs, nodes, coroutinePkg, cnode, allColors, node.
    repeat (split; [done|]). split; [by rewrite rangeColors_list, Hm|].
    split; [|done]. intros Hnil.
    apply (Hne p l Hlookup). apply Permutation_nil_r.
    rewrite <- Hnil. by rewrite rangeColors_list.
Qed.

Lemma nodesOf_elem (flatpkgs : list pkgptr) (nodes : list (pkgptr * pkgNode))
    (p : pkgptr) (node : pkgNode) :
  nodesOf heap flatpkgs = Some nodes -> (p, node) ∈ nodes -> heap !! p = Some node.
Proof.
  unfold nodesOf. intros H Hin. apply mapM_Some in H.
  induction H as [|q pn flat nodes' Hq _ IH]; [by apply elem_of_nil in Hin|].
  apply elem_of_cons in Hin as [<-|Hin]; [|by apply IH].
  destruct (heap !! q) as [nq|] eqn:Hnq; [|done]. by injection Hq as -> ->.
Qed.

Lemma firstPackageError_some (nodes : list (pkgptr * pkgNode)) (err : string) :
  firstPackageError nodes = Some err ->
  exists p node, (p, node) ∈ nodes /\ err ∈ pk_Errors node.
Proof.
  unfold firstPackageError. induction nodes as [|[p node] nodes IH]; cbn [map concat]; [done|].
  cbn [snd]. destruct (pk_Errors node) as [|e es] eqn:He.
  - cbn [app]. intros H. destruct (IH H) as (p' & node' & Hin & Herr).
    exists p', node'. split; [apply elem_of_cons; by right|done].
  - intros [= <-]. exists p, node. split; [apply elem_of_cons; by left|].
    rewrite He. apply elem_of_cons. by left.
Qed.

(** X19 (a module without the coroutine package).  When no package on
    the heap is the coroutine package and [compile] returns, it has
    compiled no package; and it has returned [nil], or the error of
    [os.Stat], or the error of the loader after the words
    [packages.Load] and the quoted pattern, or an error of one of the
    loaded packages. *)
Theorem compile_without_coroutine_package (fuel : nat) (c : compiler) (path : string)
    (events : list cevent) (out : option string) :
  (forall p node, heap !! p = Some node -> pk_PkgPath node <> coroutinePackage) ->
  compileV fuel c path = Ended (events, out) ->
  (forall ev, ev ∈ events -> compiledPackage ev = None)
  /\ (out = None
      \/ (exists err, os_Stat path = inl err /\ out = Some err)
      \/ (exists pattern err,
            packages_Load pattern = inl err
            /\ out = Some ("packages.Load " ++ strconv_Quote pattern ++ ": " ++ err)%string)
      \/ (exists p node err,
            heap !! p = Some node /\ err ∈ pk_Errors node /\ out = Some err)).
Proof.
  intros Hnone. unfold compile.
  assert (forall evs ev, ev ∈ map COuter evs -> compiledPackage ev = None) as Houter.
  { intros evs ev Hin. apply list_elem_of_fmap in Hin as (e & -> & _). done. }
  destruct (statPath_cases os_Stat filepath_Dir path)
    as [(-> & _)|(_ & _ & [(e & Hos & ->)|(d & _ & ->)])].
  3: {
    cbv zeta.
    set (pattern := coroc.relativePattern Separator
                      (filepath_Clean (if d then path else filepath_Dir path))).
    change (map COuter [coroc.EvStat path] ++ [COuter (coroc.EvLoad pattern)])
      with (map COuter [coroc.EvStat path; coroc.EvLoad pattern]).
    pose proof (Houter [coroc.EvStat path; coroc.EvLoad pattern]) as Hout.
    destruct (packages_Load pattern) as [err|pkgs] eqn:Hpk.
    { intros [= <- <-]. split; [exact Hout|]. right. right. left. eauto. }
    destruct (flattenPackages _ _ _ _) as [flatpkgs| |]; try done.
    destruct (nodesOf heap flatpkgs) as [nodes|] eqn:Hnodes; [|done].
    destruct (firstPackageError nodes) as [err|] eqn:Herr.
    { intros [= <- <-]. split; [exact Hout|]. right. right. right.
      destruct (firstPackageError_some _ _ Herr) as (p & node & Hin & He).
      exists p, node, err. split; [by apply (nodesOf_elem flatpkgs nodes)|done]. }
    destruct (findCoroutinePackage nodes) as [[p node]|] eqn:Hfind.
    { apply findCoroutinePackage_some in Hfind as [Hin Hpath].
      destruct (Hnone p node (nodesOf_elem _ _ _ _ Hnodes Hin) Hpath). }
    intros [= <- <-]. split; [exact Hout|by left]. }
  - cbv zeta.
    set (pattern := coroc.relativePattern Separator (filepath_Clean path)).
    change (map COuter [] ++ [COuter (coroc.EvLoad pattern)])
      with (map COuter [coroc.EvLoad pattern]).
    pose proof (Houter [coroc.EvLoad pattern]) as Hout.
    destruct (packages_Load pattern) as [err|pkgs] eqn:Hpk.
    { intros [= <- <-]. split; [exact Hout|]. right. right. left. eauto. }
    destruct (flattenPackages _ _ _ _) as [flatpkgs| |]; try done.
    destruct (nodesOf heap flatpkgs) as [nodes|] eqn:Hnodes; [|done].
    destruct (firstPackageError nodes) as [err|] eqn:Herr.
    { intros [= <- <-]. split; [exact Hout|]. right. right. right.
      destruct (firstPackageError_some _ _ Herr) as (p & node & Hin & He).
      exists p, node, err. split; [by apply (nodesOf_elem flatpkgs nodes)|done]. }
    destruct (findCoroutinePackage nodes) as [[p node]|] eqn:Hfind.
    { apply findCoroutinePackage_some in Hfind as [Hin Hpath].
      destruct (Hnone p node (nodesOf_elem _ _ _ _ Hnodes Hin) Hpath). }
    intros [= <- <-]. split; [exact Hout|by left].
  - intros [= <- <-]. split; [exact (Houter [coroc.EvStat path])|]. right. left. eauto.
Qed.

End CompileAllProperties.

(** * When compileFunction panics *)

Lemma scan_panicked (info : Info) (l : list node) :
  fold_left (scanNode info) l None = None.
Proof.
  induction l as [|n l IH]; [done|]. cbn [fold_left].
  replace (scanNode info None n) with (@None scanState); [exact IH|].
  unfold scanNode, scanVisit. by repeat case_match.
Qed.

Lemma scan_panics (info : Info) (l : list node) : forall st,
  forallb (fun n => match n with
                    | NStmt (AssignStmt _ (Ident _ :: _) _ _) => true
                    | NStmt (AssignStmt _ _ _ _) => false
                    | _ => true
                    end) l = false ->
  fold_left (scanNode info) l (Some st) = None.
Proof.
  induction l as [|n l IH]; intros st Hbad; [done|].
  cbn [forallb] in Hbad. cbn [fold_left].
  destruct (scanNode info (Some st) n) as [st'|] eqn:Hn; [|apply scan_panicked].
  apply IH. apply andb_false_iff in Hbad as [Hbad|Hbad]; [|done].
  exfalso. unfold scanNode, scanVisit in Hn.
  destruct n as [e|s| | | | |]; try done. destruct s; try done.
  cbn [fst] in Hn. unfold scanAssign in Hn.
  match goal with
  | H : match ?lhs with [] => _ | _ => _ end = false |- _ => destruct lhs as [|[] rest]
  end; done.
Qed.

Section FunctionPanics.

Variable typeExpr : option gotype -> expr.
Variable desugar : stmt -> Info -> stmt.
Variable trackSpans : stmt -> gmap addr span.
Variable unnestBlocks : stmt -> stmt.

(** X17 (when compileFunction panics).  For a function whose desugared
    body is a block, and the functions of the package whose files are not
    at hand being taken to return, [compileFunction] panics exactly when
    the color has
    no parameter or no result, so that [At(0)] is out of range, or when
    the first target of some assignment of the desugared body is not an
    identifier, so that the type assertion of the variable scan fails;
    in every other case it returns a declaration. *)
Theorem compileFunction_panics_exactly (info : Info) (fn : FuncDecl) (color : Signature)
    (b : addr) (l : list stmt) :
  desugar (fd_Body fn) info = BlockStmt b l ->
  (compileFunction typeExpr desugar trackSpans unnestBlocks info fn color = None <->
   sig_Params color = [] \/ sig_Results color = []
   \/ assignTargetsAreIdents (BlockStmt b l) = false)
  /\ (is_Some (compileFunction typeExpr desugar trackSpans unnestBlocks info fn color) <->
      compilable desugar info fn color = true).
Proof.
  intros Hbody.
  assert (compilable desugar info fn color = true ->
          is_Some (compileFunction typeExpr desugar trackSpans unnestBlocks info fn color))
    as Hok.
  { intros H.
    destruct (compileFunction_shape typeExpr desugar trackSpans unnestBlocks info fn color H)
      as (y & r & a & body & _ & _ & _ & ->). eauto. }
  assert (compilable desugar info fn color = false ->
          compileFunction typeExpr desugar trackSpans unnestBlocks info fn color = None)
    as Hbad.
  { unfold compilable, compileFunction. rewrite Hbody.
    destruct (sig_Params color) as [|y ps]; [done|].
    destruct (sig_Results color) as [|r rs]; [done|].
    intros H. unfold scanVariables. rewrite scan_inspect.
    unfold assignTargetsAreIdents in H. by rewrite (scan_panics info _ _ H). }
  assert (compilable desugar info fn color = false <->
          sig_Params color = [] \/ sig_Results color = []
          \/ assignTargetsAreIdents (BlockStmt b l) = false) as Hwhy.
  { unfold compilable. rewrite Hbody.
    destruct (sig_Params color) as [|y ps]; [split; [by left|done]|].
    destruct (sig_Results color) as [|r rs]; [split; [by right; left|done]|].
    split; [by right; right|]. by intros [?|[?|?]]. }
  split.
  - rewrite <- Hwhy. split; [|exact Hbad].
    intros Hnone. destruct (compilable desugar info fn color) eqn:Hc; [|done].
    destruct (Hok eq_refl) as [gen Hgen]. congruence.
  - split; [|exact Hok]. intros [gen Hgen].
    destruct (compilable desugar info fn color) eqn:Hc; [done|].
    rewrite (Hbad eq_refl) in Hgen. done.
Qed.

End FunctionPanics.

(** * The options of Compile *)

Lemma configure_snoc (options : list CompileOption) (o : CompileOption) :
  configure (options ++ [o]) = o (configure options).
Proof. unfold configure. by rewrite fold_left_app. Qed.

(** X18 (the options of Compile).  The compiler that [Compile] runs has,
    as output file name, the argument of the last [WithOutputFilename]
    among the options, and [coroc_generated.go] when there is none; as
    build tags the argument of the last [WithBuildTags], and none when
    there is none; options of the two kinds do not disturb each other.
    Without build tags the header written to the generated file is the
    marker line alone: the file carries no build constraint. *)
Theorem Compile_options (specs : list optionSpec) :
  outputFilename (configure (map optionOf specs))
  = default "coroc_generated.go" (last (omap outputFilenameOf specs))
  /\ buildTags (configure (map optionOf specs))
     = default "" (last (omap buildTagsOf specs))
  /\ (default "" (last (omap buildTagsOf specs)) = "" ->
      header (configure (map optionOf specs))
      = ("// Code generated by coroc. DO NOT EDIT" ++ newline ++ newline)%string).
Proof.
  assert (outputFilename (configure (map optionOf specs))
          = default "coroc_generated.go" (last (omap outputFilenameOf specs))
          /\ buildTags (configure (map optionOf specs))
             = default "" (last (omap buildTagsOf specs))) as [Hname Htags].
  { induction specs as [|o specs IH] using rev_ind; [done|].
    destruct IH as [IHname IHtags].
    rewrite map_app, omap_app, omap_app. cbn [map]. rewrite configure_snoc.
    destruct o as [name|tags].
    - change (omap outputFilenameOf [OutputFilename name]) with [name].
      change (omap buildTagsOf [OutputFilename name]) with (@nil string).
      rewrite last_snoc, app_nil_r. done.
    - change (omap outputFilenameOf [BuildTags tags]) with (@nil string).
      change (omap buildTagsOf [BuildTags tags]) with [tags].
      rewrite last_snoc, app_nil_r. done. }
  split; [exact Hname|]. split; [exact Htags|].
  intros Hnone. unfold header. rewrite Htags, Hnone. reflexivity.
Qed.

(** * The inspection of serialized state *)

Lemma Type_elem (s : inspect.State) (i : Z) (t : inspect.TypeMsg) :
  inspect.Type_ s i = Ended t -> t ∈ inspect.st_Types s.
Proof.
  unfold inspect.Type_. destruct (_ || _); [done|].
  destruct (inspect.st_Types s !! Z.to_nat i) eqn:E; [|done].
  intros [= <-]. apply list_elem_of_lookup. eauto.
Qed.

Section FormatProperties.

Variable reflect_Kind_String : inspect.Kind -> string.
Variable wrapped : Z.

#[local] Abbreviation Format := (inspect.Format reflect_Kind_String wrapped).
#[local] Abbreviation qualifiedName := (inspect.qualifiedName reflect_Kind_String).
#[local] Abbreviation parts := (inspect.parts wrapped).

#[local] Abbreviation prefixKind k :=
  (k ∈ [inspect.KIND_ARRAY; inspect.KIND_CHAN; inspect.KIND_POINTER; inspect.KIND_SLICE]).

Lemma elemPrefix_prefixKind (t : inspect.TypeMsg) :
  prefixKind (inspect.tm_Kind t) ->
  inspect.primitiveKind (inspect.tm_Kind t) = "" /\ inspect.elemPrefix t <> "".
Proof.
  unfold inspect.elemPrefix.
  intros Hk. repeat (apply elem_of_cons in Hk as [->|Hk]); [..|by apply elem_of_nil in Hk];
    (split; [done|]); cbn; try done.
  all: by destruct (inspect.tm_ChanDir t).
Qed.

(** X20 (Format on a cycle of types without name).  When some types of
    the state all have no name and no package, are not opaque, are
    arrays, channels, pointers or slices, and each has as element a type
    among them, then [Format] returns on none of them, with or without
    flags: the method calls itself on the element for ever, and the
    model runs out of every fuel. *)
Theorem Format_never_returns_on_cycle (s : inspect.State) (cycle : inspect.TypeMsg -> Prop) :
  (forall t, cycle t ->
     qualifiedName s t = Ended "" /\ inspect.Opaque t = false
     /\ prefixKind (inspect.tm_Kind t)
     /\ exists t', inspect.Elem s t = Ended (Some t') /\ cycle t') ->
  forall fuel t verbose, cycle t -> Format fuel s t verbose = OutOfFuel.
Proof.
  intros Hcycle. induction fuel as [|fuel IH]; intros t verbose Ht; [done|].
  destruct (Hcycle t Ht) as (Hname & Hopaque & Hkind & t' & Helem & Ht').
  destruct (elemPrefix_prefixKind t Hkind) as [Hprim Hpre].
  cbn [inspect.Format]. rewrite Hname. cbn [mbind result_bind].
  rewrite Hopaque, Hprim, Helem. cbn [mbind result_bind].
  rewrite (IH t' false Ht').
  rewrite !bool_decide_false by (by intros []). cbn [andb].
  by rewrite bool_decide_true.
Qed.

Lemma mapM_Ended {A B} (f : A -> result B) (l : list A) :
  (forall x, x ∈ l -> exists y, f x = Ended y) -> exists ys, mapM f l = Ended ys.
Proof.
  induction l as [|x l IH]; intros Hall; [by exists []|].
  destruct (Hall x) as [y Hy]; [by left|].
  destruct IH as [ys Hys]; [intros x' Hx'; apply Hall; by right|].
  exists (y :: ys). cbn [mapM]. rewrite Hy. cbn [mbind result_bind].
  by rewrite Hys.
Qed.

Section FormatReturns.

Variable s : inspect.State.
Variable rank : inspect.TypeMsg -> nat.

Hypothesis names : forall t, t ∈ inspect.st_Types s -> exists q, qualifiedName s t = Ended q.
Hypothesis opaques : forall t, t ∈ inspect.st_Types s ->
  inspect.Opaque t = true -> qualifiedName s t = Ended "" ->
  inspect.tm_Kind t <> inspect.KIND_OTHER.
Hypothesis fields : forall t f, t ∈ inspect.st_Types s ->
  inspect.Opaque t = false -> inspect.tm_Kind t = inspect.KIND_STRUCT ->
  f ∈ inspect.tm_Fields t -> inspect.fm_Anonymous f = false ->
  exists n, inspect.FieldName s f = Ended n.
Hypothesis targets : forall t r, t ∈ inspect.st_Types s ->
  inspect.Opaque t = false -> r ∈ parts s t ->
  exists t', r = Ended (Some t')
    /\ (qualifiedName s t' = Ended "" -> inspect.Opaque t' = false ->
        (rank t' < rank t)%nat).

Lemma Elem_elem (t t' : inspect.TypeMsg) :
  inspect.Elem s t = Ended (Some t') -> t' ∈ inspect.st_Types s.
Proof.
  unfold inspect.Elem. destruct (_ =? _)%N; [done|].
  destruct (inspect.Type_ s _) eqn:E; try done.
  intros [= <-]. by eapply Type_elem.
Qed.

Lemma Key_elem (t t' : inspect.TypeMsg) :
  inspect.Key s t = Ended (Some t') -> t' ∈ inspect.st_Types s.
Proof.
  unfold inspect.Key. destruct (_ =? _)%N; [done|].
  destruct (inspect.Type_ s _) eqn:E; try done.
  intros [= <-]. by eapply Type_elem.
Qed.

Lemma bound_elem (i : Z) (t' : inspect.TypeMsg) :
  (t ← inspect.Type_ s i; Ended (Some t)) = Ended (Some t') ->
  inspect.Type_ s i = Ended t'.
Proof. destruct (inspect.Type_ s i); try done. by intros [= <-]. Qed.

Lemma part_elem (t t' : inspect.TypeMsg) :
  Ended (Some t') ∈ parts s t -> t' ∈ inspect.st_Types s.
Proof.
  unfold inspect.parts. intros Hin.
  destruct (inspect.tm_Kind t);
    repeat (apply elem_of_cons in Hin as [Hin|Hin]);
    try (by apply elem_of_nil in Hin);
    try (by eapply Elem_elem); try (by eapply Key_elem).
  - apply list_elem_of_fmap in Hin as (r & Hr & _).
    symmetry in Hr. apply bound_elem in Hr. by eapply Type_elem.
  - apply list_elem_of_fmap in Hin as (r & Hr & _).
    symmetry in Hr. apply bound_elem in Hr. by eapply Type_elem.
Qed.

(** A type with a name, or an opaque one, printed without flags. *)
Lemma Format_short (fuel : nat) (t : inspect.TypeMsg) (q : string) :
  t ∈ inspect.st_Types s -> qualifiedName s t = Ended q ->
  forall verbose, inspect.Opaque t = true \/ (q <> "" /\ verbose = false) ->
  exists out, Format (S fuel) s t verbose = Ended out.
Proof.
  intros Ht Hq verbose Hcase. cbn [inspect.Format]. rewrite Hq. cbn [mbind result_bind].
  destruct (inspect.Opaque t) eqn:Ho.
  - destruct (decide (q = "")) as [->|Hn].
    + pose proof (opaques t Ht Ho Hq) as Hk.
      rewrite (bool_decide_true (_ = "")) by done.
      unfold inspect.anon. destruct (inspect.tm_Kind t); try done; cbn; eauto.
    + rewrite (bool_decide_false (q = "")) by done. cbn. eauto.
  - destruct Hcase as [|[Hn ->]]; [done|].
    rewrite bool_decide_true by done. cbn. eauto.
Qed.

Lemma Format_part (fuel : nat) (t : inspect.TypeMsg) (r : result (option inspect.TypeMsg)) :
  (forall t' verbose, t' ∈ inspect.st_Types s -> (rank t' + 2 <= fuel)%nat ->
     exists out, Format fuel s t' verbose = Ended out) ->
  t ∈ inspect.st_Types s -> inspect.Opaque t = false -> (rank t + 2 <= S fuel)%nat ->
  r ∈ parts s t ->
  exists t' out, r = Ended (Some t') /\ Format fuel s t' false = Ended out.
Proof.
  intros IH Ht Ho Hfuel Hr.
  destruct (targets t r Ht Ho Hr) as (t' & -> & Hrank).
  pose proof (part_elem t t' Hr) as Ht'.
  destruct (names t' Ht') as [q' Hq'].
  exists t'.
  destruct (inspect.Opaque t') eqn:Ho'.
  { destruct fuel as [|fuel]; [lia|].
    destruct (Format_short fuel t' q' Ht' Hq' false) as [out Hout]; [by left|]. eauto. }
  destruct (decide (q' = "")) as [->|Hn].
  - destruct (IH t' false Ht') as [out Hout]; [specialize (Hrank Hq' eq_refl); lia|]. eauto.
  - destruct fuel as [|fuel]; [lia|].
    destruct (Format_short fuel t' q' Ht' Hq' false) as [out Hout]; [by right|]. eauto.
Qed.

(** X21 (Format returns).  Let the references of every type of the
    state resolve: its name and its package are strings of the state (and
    the kind is one that the method [Kind] knows where an anonymous name
    is printed), the names of the fields of a struct are strings of the
    state, and the types that the inner calls are made on are types of
    the state.  Let [rank] decrease from a type to every type without
    name, not opaque, that an inner call is made on.  Then [Format]
    returns a text for every type of the state, with or without flags,
    with fuel [rank t + 2]: the recursion goes on through types without
    name only, since a type with a name is printed by its name in an
    inner call. *)
Theorem Format_returns (t : inspect.TypeMsg) (verbose : bool) (fuel : nat) :
  t ∈ inspect.st_Types s -> (rank t + 2 <= fuel)%nat ->
  exists out, Format fuel s t verbose = Ended out.
Proof.
  revert t verbose. induction fuel as [|fuel IH]; intros t verbose Ht Hfuel; [lia|].
  destruct (names t Ht) as [q Hq].
  destruct (inspect.Opaque t) eqn:Ho.
  { apply (Format_short fuel t q Ht Hq). by left. }
  pose proof (Format_part fuel t) as Hpart.
  pose proof (fields t) as Hfields.
  cbn [inspect.Format]. rewrite Hq. cbn [mbind result_bind]. rewrite Ho.
  destruct (bool_decide (q <> "") && negb verbose); [eauto|].
  unfold inspect.elemPrefix, inspect.parts in *.
  destruct (inspect.tm_Kind t) eqn:Hk; cbn [inspect.primitiveKind].
  all: try (rewrite (bool_decide_true (_ <> "")) by done; eauto).
  all: rewrite (bool_decide_false ("" <> "")) by (intros H; by apply H).
  all: specialize (fun r => Hpart r IH Ht Ho Hfuel).
  - destruct (Hpart (inspect.Elem s t)) as (e & eout & He & Heout); [by left|].
    rewrite He. cbn [mbind result_bind]. rewrite Heout.
    rewrite bool_decide_true by done. cbn. eauto.
  - destruct (Hpart (inspect.Elem s t)) as (e & eout & He & Heout); [by left|].
    rewrite He. cbn [mbind result_bind]. rewrite Heout.
    destruct (inspect.tm_ChanDir t); rewrite bool_decide_true by done; cbn; eauto.
  - assert (forall r, r ∈ inspect.tm_Params t ++ inspect.tm_Results t ->
              exists out, (inspect.Type_ s (inspect.index wrapped r)
                           ≫= fun t' => Format fuel s t' false) = Ended out) as Hnested.
    { intros r Hr.
      destruct (Hpart (inspect.Type_ s (inspect.index wrapped r)
                       ≫= fun t' => Ended (Some t'))) as (t' & out & He & Hout).
      { apply list_elem_of_fmap. by exists r. }
      apply bound_elem in He. rewrite He. cbn [mbind result_bind]. eauto. }
    match goal with
    | |- context [mapM ?f (imap ?g (inspect.tm_Params t))] =>
        destruct (mapM_Ended f (imap g (inspect.tm_Params t))) as [params ->]
    end.
    { intros [i p] Hip. apply elem_of_lookup_imap in Hip as (i' & p' & [= -> ->] & Hp).
      destruct (Hnested p') as [out Hout].
      { apply elem_of_app. left. by eapply list_elem_of_lookup_2. }
      cbn [fst snd]. rewrite Hout. cbn [mbind result_bind]. eauto. }
    cbn [mbind result_bind].
    match goal with
    | |- context [mapM ?f (inspect.tm_Results t)] =>
        destruct (mapM_Ended f (inspect.tm_Results t)) as [results ->]
    end.
    { intros r Hr. apply Hnested. apply elem_of_app. by right. }
    cbn [mbind result_bind]. eauto.
  - destruct (Hpart (inspect.Key s t)) as (k & kout & Hkey & Hkout); [by left|].
    destruct (Hpart (inspect.Elem s t)) as (e & eout & He & Heout); [by right; left|].
    rewrite Hkey, He. cbn [mbind result_bind]. rewrite Hkout, Heout.
    cbn [mbind result_bind]. eauto.
  - destruct (Hpart (inspect.Elem s t)) as (e & eout & He & Heout); [by left|].
    rewrite He. cbn [mbind result_bind]. rewrite Heout.
    rewrite bool_decide_true by done. cbn. eauto.
  - destruct (Hpart (inspect.Elem s t)) as (e & eout & He & Heout); [by left|].
    rewrite He. cbn [mbind result_bind]. rewrite Heout.
    rewrite bool_decide_true by done. cbn. eauto.
  - destruct (inspect.tm_Fields t) as [|f0 fs] eqn:Hfs; [cbn; eauto|].
    match goal with
    | |- context [mapM ?f (f0 :: fs)] =>
        destruct (mapM_Ended f (f0 :: fs)) as [items ->]
    end.
    { intros f Hf.
      destruct (Hpart (inspect.Type_ s (inspect.index wrapped (inspect.fm_Type f))
                       ≫= fun t' => Ended (Some t'))) as (t' & out & He & Hout).
      { apply list_elem_of_fmap. by exists f. }
      apply bound_elem in He. rewrite He.
      destruct (inspect.fm_Anonymous f) eqn:Hanon.
      - cbn [mbind result_bind]. rewrite Hout. cbn [mbind result_bind]. eauto.
      - destruct (Hfields f Ht Ho eq_refl Hf Hanon) as [n ->].
        cbn [mbind result_bind]. rewrite Hout. cbn [mbind result_bind]. eauto. }
    cbn [mbind result_bind]. eauto.
  - cbn [mbind result_bind]. eauto.
Qed.

End FormatReturns.

Lemma string_append_assoc (a b c : string) : ((a ++ b) ++ c = a ++ (b ++ c))%string.
Proof.
  induction a as [|x a IH]; [done|].
  change (String x ((a ++ b) ++ c) = String x (a ++ (b ++ c)))%string. by rewrite IH.
Qed.

(** X22 (Format of a type with a name).  For a type that is not opaque
    and has a name, qualified by its package when it has one: without
    flags [Format] writes the qualified name and nothing else, in one
    call; with the flag plus or sharp, when the kind is not a primitive
    one, it writes what it writes for the same type without name,
    between the opening [(name=] and a closing parenthesis; for a
    function type the closing parenthesis is written twice. *)
Theorem Format_of_named_type (fuel : nat) (s : inspect.State) (t : inspect.TypeMsg)
    (q : string) (verbose : bool) :
  qualifiedName s t = Ended q -> q <> "" -> inspect.Opaque t = false ->
  Format (S fuel) s t false = Ended q
  /\ (inspect.primitiveKind (inspect.tm_Kind t) = "" ->
      Format fuel s t true
      = (Format fuel s (inspect.unnamed t) verbose
         ≫= fun body =>
              Ended ("(" ++ q ++ "=" ++ body
                     ++ (if bool_decide (inspect.tm_Kind t = inspect.KIND_FUNC)
                         then "))" else ")"))%string)).
Proof.
  intros Hq Hn Ho. split.
  { cbn [inspect.Format]. rewrite Hq. cbn [mbind result_bind]. rewrite Ho.
    by rewrite bool_decide_true. }
  intros Hprim. destruct fuel as [|fuel]; [done|].
  cbn [inspect.Format]. rewrite Hq.
  change (qualifiedName s (inspect.unnamed t)) with (@Ended string "").
  cbn [mbind result_bind].
  change (inspect.Opaque (inspect.unnamed t)) with (inspect.Opaque t). rewrite Ho.
  change (inspect.tm_Kind (inspect.unnamed t)) with (inspect.tm_Kind t).
  change (inspect.elemPrefix (inspect.unnamed t)) with (inspect.elemPrefix t).
  change (inspect.Elem s (inspect.unnamed t)) with (inspect.Elem s t).
  change (inspect.Key s (inspect.unnamed t)) with (inspect.Key s t).
  change (inspect.tm_Params (inspect.unnamed t)) with (inspect.tm_Params t).
  change (inspect.tm_Results (inspect.unnamed t)) with (inspect.tm_Results t).
  change (inspect.tm_Fields (inspect.unnamed t)) with (inspect.tm_Fields t).
  change (inspect.tm_Variadic (inspect.unnamed t)) with (inspect.tm_Variadic t).
  rewrite Hprim.
  rewrite (bool_decide_true (q <> "")) by done.
  rewrite !(bool_decide_false ("" <> "")) by (intros H; by apply H).
  cbn [andb negb].
  unfold inspect.elemPrefix.
  destruct (inspect.tm_Kind t) eqn:Hk; try discriminate Hprim.
  all: rewrite ?(bool_decide_false ("" <> "")) by (intros H; by apply H).
  all: rewrite ?(bool_decide_false (_ = inspect.KIND_FUNC)) by done.
  all: rewrite ?(bool_decide_true (inspect.KIND_FUNC = inspect.KIND_FUNC)) by done.
  - rewrite !bool_decide_true by done.
    destruct (inspect.Elem s t) as [[t'|]| |]; try done. cbn [mbind result_bind].
    destruct (Format fuel s t' false); try done. cbn [mbind result_bind].
    f_equal. by rewrite !string_append_assoc.
  - destruct (inspect.tm_ChanDir t); rewrite !bool_decide_true by done.
    all: destruct (inspect.Elem s t) as [[t'|]| |]; try done; cbn [mbind result_bind].
    all: destruct (Format fuel s t' false); try done; cbn [mbind result_bind].
    all: f_equal; by rewrite !string_append_assoc.
  - destruct (mapM _ (imap _ _)) as [params| |]; try done. cbn [mbind result_bind].
    destruct (mapM _ (inspect.tm_Results t)) as [results| |]; try done.
    cbn [mbind result_bind]. f_equal. rewrite !string_append_assoc.
    destruct (0 <? _)%nat, (1 <? _)%nat; by rewrite ?append_assoc.
  - destruct (inspect.Key s t) as [[k|]| |]; try done. cbn [mbind result_bind].
    destruct (Format fuel s k false); try done. cbn [mbind result_bind].
    destruct (inspect.Elem s t) as [[t'|]| |]; try done. cbn [mbind result_bind].
    destruct (Format fuel s t' false); try done. cbn [mbind result_bind].
    f_equal. by rewrite !string_append_assoc.
  - rewrite !bool_decide_true by done.
    destruct (inspect.Elem s t) as [[t'|]| |]; try done. cbn [mbind result_bind].
    destruct (Format fuel s t' false); try done. cbn [mbind result_bind].
    f_equal. by rewrite !string_append_assoc.
  - rewrite !bool_decide_true by done.
    destruct (inspect.Elem s t) as [[t'|]| |]; try done. cbn [mbind result_bind].
    destruct (Format fuel s t' false); try done. cbn [mbind result_bind].
    f_equal. by rewrite !string_append_assoc.
  - destruct (inspect.tm_Fields t) as [|f0 fs].
    { cbn [mbind result_bind]. f_equal. by rewrite !string_append_assoc. }
    destruct (mapM _ _) as [items| |]; try done.
    cbn [mbind result_bind]. f_equal. by rewrite !string_append_assoc.
  - cbn [mbind result_bind]. f_equal. by rewrite !string_append_assoc.
Qed.

End FormatProperties.

(** * The properties at sample data *)

Lemma compilePackage_success_at_SquareGenerator :
  exists colorsByDecl goFile gens,
    colorsByDeclOf Samples.colors ∅ = inr colorsByDecl
    /\ head (p_GoFiles (Samples.packageOf Samples.SquareGenerator)) = Some goFile
    /\ Forall2 (compilesTo Samples.typeExpr Samples.desugar Samples.trackSpans
                  Samples.unnestBlocks (Samples.packageOf Samples.SquareGenerator))
         (coloredDecls colorsByDecl
            (concat (map f_Decls (p_Syntax (Samples.packageOf Samples.SquareGenerator)))))
         gens
    /\ fst (compilePackage Samples.typeExpr Samples.desugar Samples.trackSpans
              Samples.unnestBlocks Samples.filepath_Dir Samples.filepath_Join Samples.strconv_Quote Samples.os
              Samples.theCompiler (Samples.packageOf Samples.SquareGenerator) Samples.colors)
       = [EvCreate (Samples.filepath_Join (Samples.filepath_Dir goFile)
                      (outputFilename Samples.theCompiler));
          EvWriteString (header Samples.theCompiler);
          EvFormatNode
            (MkFile (NewIdent (p_Name (Samples.packageOf Samples.SquareGenerator)))
               (GenDeclD IMPORT [ImportSpec (BasicLit STRING (Quote coroutinePackage))]
                :: map FuncDeclD gens));
          EvClose; EvClose].
Proof.
  apply (compilePackage_success Samples.typeExpr Samples.desugar Samples.trackSpans
           Samples.unnestBlocks Samples.filepath_Dir Samples.filepath_Join Samples.strconv_Quote Samples.os
           Samples.theCompiler (Samples.packageOf Samples.SquareGenerator) Samples.colors).
  vm_compute; reflexivity.
Defined.

Lemma output_only_after_all_compiled_at_SquareGenerator :
  exists colorsByDecl goFile gens,
    colorsByDeclOf Samples.colors ∅ = inr colorsByDecl
    /\ head (p_GoFiles (Samples.packageOf Samples.SquareGenerator)) = Some goFile
    /\ Forall2 (compilesTo Samples.typeExpr Samples.desugar Samples.trackSpans
                  Samples.unnestBlocks (Samples.packageOf Samples.SquareGenerator))
         (coloredDecls colorsByDecl
            (concat (map f_Decls (p_Syntax (Samples.packageOf Samples.SquareGenerator)))))
         gens
    /\ head (fst (compilePackage Samples.typeExpr Samples.desugar Samples.trackSpans
                    Samples.unnestBlocks Samples.filepath_Dir Samples.filepath_Join
                    Samples.strconv_Quote Samples.os Samples.theCompiler
                    (Samples.packageOf Samples.SquareGenerator) Samples.colors))
       = Some (EvCreate (Samples.filepath_Join (Samples.filepath_Dir goFile)
                           (outputFilename Samples.theCompiler))).
Proof.
  apply (output_only_after_all_compiled Samples.typeExpr Samples.desugar Samples.trackSpans
           Samples.unnestBlocks Samples.filepath_Dir Samples.filepath_Join Samples.strconv_Quote Samples.os
           Samples.theCompiler (Samples.packageOf Samples.SquareGenerator) Samples.colors).
  vm_compute. discriminate.
Defined.

Lemma yield_in_function_literal :
  exists fn' color',
    (fn', color') ∈ MoreSamples.literalColors
    /\ (forall decl, fn_Syntax fn' <> SynFuncDecl decl)
    /\ compilePackage Samples.typeExpr Samples.desugar Samples.trackSpans
         Samples.unnestBlocks Samples.filepath_Dir Samples.filepath_Join Samples.strconv_Quote Samples.os
         Samples.theCompiler (Samples.packageOf Samples.SquareGenerator)
         MoreSamples.literalColors
       = ([], Returns (Some ("unsupported yield function " ++ fn_String fn'
                             ++ " (Syntax is " ++ syntaxT (fn_Syntax fn')
                             ++ ", not *ast.FuncDecl)")%string)).
Proof.
  apply (yield_function_without_declaration Samples.typeExpr Samples.desugar
           Samples.trackSpans Samples.unnestBlocks Samples.filepath_Dir
           Samples.filepath_Join Samples.strconv_Quote Samples.os Samples.theCompiler
           (Samples.packageOf Samples.SquareGenerator) MoreSamples.literalColors
           (MkSsaFunction "testdata.G$1" SynFuncLit) Samples.color).
  - apply list_elem_of_In. simpl. tauto.
  - simpl. discriminate.
Defined.

Lemma SquareGenerator_assignments_are_simple :
  (forall a lhs tok rhs, hasStmt Samples.SquareGenerator (AssignStmt a lhs tok rhs) ->
     exists name value, lhs = [Ident name] /\ rhs = [value])
  /\ assignTargetsAreIdents (fd_Body Samples.SquareGenerator) = true
  /\ is_Some (scanVariables Samples.info (fd_Body Samples.SquareGenerator)).
Proof.
  apply (accepted_assignments_are_simple Samples.SquareGenerator Samples.info).
  vm_compute; reflexivity.
Defined.

Lemma SquareGenerator_fails_only_on_expressions :
  (forall s, hasStmt Samples.SquareGenerator s -> unsupportedStmt s = None)
  /\ (forall err, unsupported Samples.SquareGenerator Samples.info = Some err ->
        err = "not implemented: func literals"
        \/ err = "not implemented: multiple function calls in an expression")
  /\ ((forall e, hasExpr Samples.SquareGenerator e ->
         unsupportedExpr Samples.info e = None) ->
      unsupported Samples.SquareGenerator Samples.info = None).
Proof.
  apply (accepted_functions_fail_only_on_expressions Samples.SquareGenerator Samples.info).
  vm_compute; reflexivity.
Defined.

Lemma flattenPackages_at_importGraph :
  exists flattened,
    flattenPackages elements 5 MoreSamples.importGraph [1%N; 1%N] = Ended flattened
    /\ NoDup flattened
    /\ forall q, q ∈ flattened <->
                 exists p, p ∈ [1%N; 1%N] /\ rtc (imports MoreSamples.importGraph) p q.
Proof.
  apply (flattenPackages_reachable MoreSamples.importGraph).
  - vm_compute; reflexivity.
  - intros seen. reflexivity.
  - vm_compute; reflexivity.
  - vm_compute. lia.
Defined.

Lemma assignPointerID_at_three_calls :
  (forall p, is_Some (fst (types.assignPointerIDs [5%N; 7%N; 5%N]) !! p)
             <-> p ∈ [5%N; 7%N; 5%N])
  /\ snd (types.assignPointerIDs [5%N; 7%N; 5%N]) = [(1, true); (2, true); (1, false)].
Proof.
  destruct (assignPointerID_numbers [5%N; 7%N; 5%N]
              (fst (types.assignPointerIDs [5%N; 7%N; 5%N]))
              (snd (types.assignPointerIDs [5%N; 7%N; 5%N]))) as (Hdom & _).
  - simpl. lia.
  - vm_compute; reflexivity.
  - split; [exact Hdom|]. vm_compute; reflexivity.
Defined.

Lemma store_at_three_calls :
  types.stores [(1, 10%N); (2, types.nil); (2, 11%N)] ∅
  = Some (<[2 := 11%N]> (<[2 := types.nil]> (<[1 := 10%N]> ∅)))
  /\ types.load (<[2 := 11%N]> (<[2 := types.nil]> (<[1 := 10%N]> ∅))) 1 = 10%N
  /\ types.load (<[2 := 11%N]> (<[2 := types.nil]> (<[1 := 10%N]> ∅))) 2 = 11%N.
Proof.
  assert (types.stores [(1, 10%N); (2, types.nil); (2, 11%N)] ∅
          = Some (<[2 := 11%N]> (<[2 := types.nil]> (<[1 := 10%N]> ∅)))) as Hrun
    by (vm_compute; reflexivity).
  split; [exact Hrun|].
  destruct (store_keeps_pointers [(1, 10%N); (2, types.nil); (2, 11%N)] ∅ _ Hrun)
    as (_ & Hstored & _).
  split; apply Hstored; try done; apply list_elem_of_In; simpl; tauto.
Defined.

Lemma compile_at_testdata :
  exists events,
    MoreSamples.compiled = Ended (events, None)
    /\ NoDup (omap compiledPackage events)
    /\ exists evs, CCompilePackage 1%N Samples.colors evs ∈ events.
Proof.
  eexists. split; [vm_compute; reflexivity|].
  match goal with
  | |- NoDup (omap compiledPackage ?events) /\ _ =>
      destruct (compile_groups_by_package Samples.typeExpr Samples.desugar
                  Samples.trackSpans Samples.unnestBlocks Samples.filepath_Dir
                  Samples.filepath_Join Samples.os MoreSamples.os_Stat
                  MoreSamples.filepath_Clean MoreSamples.Separator
                  MoreSamples.strconv_Quote MoreSamples.packages_Load
                  MoreSamples.packages MoreSamples.coloring MoreSamples.fn_Pkg
                  elements map_to_list (fun colors => colors)
                  ltac:(intros m; reflexivity) ltac:(intros l; reflexivity)
                  3%nat Samples.theCompiler "" events None) as (_ & Hnodup & _)
  end.
  - vm_compute; reflexivity.
  - split; [exact Hnodup|]. eexists. apply list_elem_of_In. simpl. right. left. reflexivity.
Defined.

(** The generator of the test data is compiled without a panic. *)
Lemma compileFunction_at_SquareGenerator :
  Samples.desugar (fd_Body Samples.SquareGenerator) Samples.info
  = BlockStmt 20%N [Samples.squareLoop]
  /\ is_Some (compileFunction Samples.typeExpr Samples.desugar Samples.trackSpans
                Samples.unnestBlocks Samples.info Samples.SquareGenerator Samples.color).
Proof.
  split; [reflexivity|].
  destruct (compileFunction_panics_exactly Samples.typeExpr Samples.desugar
              Samples.trackSpans Samples.unnestBlocks Samples.info
              Samples.SquareGenerator Samples.color 20%N [Samples.squareLoop])
    as [_ [_ Hsome]].
  - reflexivity.
  - apply Hsome. vm_compute; reflexivity.
Defined.

(** A module without the coroutine package: nothing is compiled and
    [compile] returns [nil]. *)
Lemma compile_at_plain :
  (forall p node, MoreSamples.plain !! p = Some node -> pk_PkgPath node <> coroutinePackage)
  /\ exists events,
       MoreSamples.compiledPlain = Ended (events, None)
       /\ forall ev, ev ∈ events -> compiledPackage ev = None.
Proof.
  assert (forall p node, MoreSamples.plain !! p = Some node ->
                         pk_PkgPath node <> coroutinePackage) as Hplain.
  { intros p node Hp. unfold MoreSamples.plain in Hp.
    apply lookup_singleton_Some in Hp as [_ <-]. discriminate. }
  split; [exact Hplain|].
  eexists. split; [vm_compute; reflexivity|].
  match goal with
  | |- forall ev, ev ∈ ?events -> _ =>
      destruct (compile_without_coroutine_package Samples.typeExpr Samples.desugar
                  Samples.trackSpans Samples.unnestBlocks Samples.filepath_Dir
                  Samples.filepath_Join Samples.os MoreSamples.os_Stat
                  MoreSamples.filepath_Clean MoreSamples.Separator
                  MoreSamples.strconv_Quote MoreSamples.packages_Load
                  MoreSamples.plain MoreSamples.coloring MoreSamples.fn_Pkg
                  elements map_to_list (fun colors => colors)
                  3%nat Samples.theCompiler "" events None Hplain) as [Hnone _]
  end.
  - vm_compute; reflexivity.
  - exact Hnone.
Defined.

(** A slice type that is its own element. *)
Lemma Format_at_selfSlice :
  inspect.Format MoreSamples.kindName (-1) 7 MoreSamples.cyclic MoreSamples.selfSlice true
  = OutOfFuel.
Proof.
  apply (Format_never_returns_on_cycle MoreSamples.kindName (-1) MoreSamples.cyclic
           (fun t => t = MoreSamples.selfSlice)); [|reflexivity].
  intros t ->. split; [reflexivity|]. split; [reflexivity|]. split.
  - apply list_elem_of_In. simpl. tauto.
  - exists MoreSamples.selfSlice. split; reflexivity.
Defined.

(** The struct [main.T] with a field of type [*T]. *)
Lemma Format_at_structT :
  MoreSamples.structT ∈ inspect.st_Types MoreSamples.state
  /\ (MoreSamples.rank MoreSamples.structT + 2 <= 3)%nat
  /\ (exists out,
        inspect.Format MoreSamples.kindName (-1) 3 MoreSamples.state MoreSamples.structT true
        = Ended out)
  /\ inspect.Format MoreSamples.kindName (-1) 3 MoreSamples.state MoreSamples.structT true
     = Ended "(main.T=struct{ next *main.T })".
Proof.
  assert (MoreSamples.structT ∈ inspect.st_Types MoreSamples.state) as Hin.
  { apply list_elem_of_In. simpl. tauto. }
  split; [exact Hin|]. split; [vm_compute; lia|]. split; [|vm_compute; reflexivity].
  apply (Format_returns MoreSamples.kindName (-1) MoreSamples.state MoreSamples.rank).
  - intros t Ht. apply list_elem_of_In in Ht. simpl in Ht.
    destruct Ht as [<-|[<-|[<-|[]]]]; eexists; vm_compute; reflexivity.
  - intros t Ht. apply list_elem_of_In in Ht. simpl in Ht.
    destruct Ht as [<-|[<-|[<-|[]]]]; discriminate.
  - intros t f Ht _ Hk Hf _. apply list_elem_of_In in Ht. simpl in Ht.
    destruct Ht as [<-|[<-|[<-|[]]]]; try discriminate Hk.
    apply list_elem_of_In in Hf. simpl in Hf. destruct Hf as [<-|[]].
    eexists. vm_compute. reflexivity.
  - intros t r Ht _ Hr. apply list_elem_of_In in Ht. simpl in Ht.
    destruct Ht as [<-|[<-|[<-|[]]]]; apply list_elem_of_In in Hr; simpl in Hr;
      destruct Hr as [<-|[]]; eexists; (split; [vm_compute; reflexivity|]);
      intros Hname Hopaque; try discriminate Hname; vm_compute; lia.
  - exact Hin.
  - vm_compute; lia.
Defined.

(** The function type [main.F], printed with a flag. *)
Lemma Format_at_funcT :
  inspect.qualifiedName MoreSamples.kindName MoreSamples.state MoreSamples.funcT
  = Ended "main.F"
  /\ inspect.Format MoreSamples.kindName (-1) 1 MoreSamples.state MoreSamples.funcT false
     = Ended "main.F"
  /\ inspect.Format MoreSamples.kindName (-1) 3 MoreSamples.state MoreSamples.funcT true
     = Ended "(main.F=func(main.T)))".
Proof.
  split; [vm_compute; reflexivity|].
  destruct (Format_of_named_type MoreSamples.kindName (-1) 0 MoreSamples.state
              MoreSamples.funcT "main.F" false) as [Hplain _].
  { vm_compute; reflexivity. } { discriminate. } { reflexivity. }
  split; [exact Hplain|].
  destruct (Format_of_named_type MoreSamples.kindName (-1) 3 MoreSamples.state
              MoreSamples.funcT "main.F" false) as [_ Hverbose].
  { vm_compute; reflexivity. } { discriminate. } { reflexivity. }
  rewrite (Hverbose eq_refl). vm_compute. reflexivity.
Defined.
